(** * NodeGraphQt: undo commands and topological sort

    A shallow embedding of [NodeGraphQt/base/commands.py] (the seven
    [QUndoCommand] subclasses) and of the topological sort of
    [NodeGraphQt/base/utils.py], with the properties the specification
    states about them. *)

From stdpp Require Import gmap strings list fin_maps.
From Stdlib Require Import ZArith.

Set Default Proof Using "Type".
#[global] Set Warnings "-clear-no-such-hyp".

(** ** Python primitives *)

Module Py.

(** The exceptions the modelled code can raise. *)
Inductive exn := KeyError | ValueError | AttributeError.

(** A computation that returns or raises. *)
Inductive result (A : Type) : Type :=
  | Ok (a : A)
  | Raise (e : exn).
Arguments Ok {A} a.
Arguments Raise {A} e.

Definition bind {A B} (m : result A) (k : A → result B) : result B :=
  match m with
  | Ok a => k a
  | Raise e => Raise e
  end.

Definition is_Ok {A} (m : result A) : Prop := ∃ a, m = Ok a.

(** [l.remove(x)]: drops the first occurrence of [x], [ValueError] when
    there is none. *)
Fixpoint list_remove (x : string) (l : list string) : result (list string) :=
  match l with
  | [] => Raise ValueError
  | y :: l' =>
      if decide (x = y) then Ok l'
      else bind (list_remove x l') (λ r, Ok (y :: r))
  end.

(** [x in l]. *)
Definition contains (x : string) (l : list string) : bool :=
  bool_decide (x ∈ l).

(** Truth value of a list: a list is true when it is not empty. *)
Definition truthy {A} (l : list A) : bool :=
  match l with
  | [] => false
  | _ :: _ => true
  end.

(** Number of occurrences of [x] in [l] ([l.count(x)]). *)
Definition count (x : string) (l : list string) : nat :=
  length (filter (λ y, y = x) l).

(** [del d[k]]: [KeyError] when the key is missing. *)
Definition dict_delitem {V} (k : string) (d : gmap string V)
  : result (gmap string V) :=
  match d !! k with
  | Some _ => Ok (delete k d)
  | None => Raise KeyError
  end.

(** Object identity. The only identity test of the modelled code compares
    what [dict.get] returned with the value of a list display [[]]: a
    reference is [None], a list object held by a dictionary (named by the
    dictionary's owner and the key), or the object a display has just
    built. *)
Inductive ref (O : Type) : Type :=
  | RefNone
  | RefStored (owner : O) (key : string)
  | RefFresh.
Arguments RefNone {O}.
Arguments RefStored {O} owner key.
Arguments RefFresh {O}.

(** [a is b]. A freshly built object is identical to no other object,
    an object built by another display included. *)
Definition py_is {O} `{EqDecision O} (a b : ref O) : bool :=
  match a, b with
  | RefNone, RefNone => true
  | RefStored o k, RefStored o' k' => bool_decide (o = o' ∧ k = k')
  | _, _ => false
  end.

(** A computation run with fuel: it returns, raises, or is cut off when
    the fuel runs out. *)
Inductive outcome (A : Type) : Type :=
  | Done (a : A)
  | Raised (e : exn)
  | OutOfFuel.
Arguments Done {A} a.
Arguments Raised {A} e.
Arguments OutOfFuel {A}.

Definition obind {A B} (m : outcome A) (k : A → outcome B) : outcome B :=
  match m with
  | Done a => k a
  | Raised e => Raised e
  | OutOfFuel => OutOfFuel
  end.

(** [d[k]] of a plain dictionary: [KeyError] when the key is missing. *)
Definition dict_getitem {K V} `{Countable K} (d : gmap K V) (k : K) : outcome V :=
  match d !! k with
  | Some v => Done v
  | None => Raised KeyError
  end.

End Py.

#[global] Instance result_bind : MBind Py.result := λ A B k m, Py.bind m k.
#[global] Instance result_ret : MRet Py.result := λ A a, Py.Ok a.
#[global] Instance outcome_bind : MBind Py.outcome := λ A B k m, Py.obind m k.
#[global] Instance outcome_ret : MRet Py.outcome := λ A a, Py.Done a.

(** ** The graph model the commands act on *)

Module Commands.
Import Py.

(** Node identifiers and port names are strings. *)
Abbreviation node_id := string.

(** [NodeGraphQt.constants.IN_PORT] and [OUT_PORT]. *)
Inductive port_type := IN_PORT | OUT_PORT.

#[global] Instance port_type_eq_dec : EqDecision port_type.
Proof. solve_decision. Defined.

#[global] Instance port_type_countable : Countable port_type.
Proof.
  refine (inj_countable' (λ t, match t with IN_PORT => false | OUT_PORT => true end)
            (λ b : bool, if b then OUT_PORT else IN_PORT) _).
  by intros [].
Defined.

(** A port object, named by what never changes about it: the id of its
    node ([port.node().id]), its direction ([port.type()]) and its name
    ([port.name()]); a name is unique among the ports of one direction
    of a node. *)
Record Port := mkPort {
  port_node : node_id;
  port_dir : port_type;
  port_name : string
}.

#[global] Instance Port_eq_dec : EqDecision Port.
Proof. solve_decision. Defined.

#[global] Instance Port_countable : Countable Port.
Proof.
  refine (inj_countable' (λ p, (port_node p, port_dir p, port_name p))
            (λ t, mkPort t.1.1 t.1.2 t.2) _).
  by intros [].
Defined.

(** Property values: [None], integers (Python's booleans are the integers
    0 and 1), strings and pairs of coordinates. Equality of values is
    Python's [==]. *)
Inductive Value :=
  | VNone
  | VInt (z : Z)
  | VStr (s : string)
  | VPos (x y : Z).

#[global] Instance Value_eq_dec : EqDecision Value.
Proof. solve_decision. Defined.

(** [a != b] *)
Definition py_ne (a b : Value) : bool := bool_decide (a ≠ b).

(** The mutable part of a port ([port.model]): the visibility flag and
    the connection set, a dictionary from the id of a peer node to the
    names of the connected ports of that node. *)
Record PortModel := mkPortModel {
  visible : bool;
  connected_ports : gmap node_id (list string)
}.

(** A port that nothing has touched yet. *)
Definition new_port : PortModel := mkPortModel true ∅.

(** What the view of a node holds: the embedded widgets (absent when the
    view has no [widgets] attribute), the keys of [view.properties] and
    the attributes written with [setattr]. *)
Record NodeView := mkNodeView {
  widgets : option (gmap string Value);
  view_properties : gset string;
  view_attrs : gmap string Value
}.

Definition new_view : NodeView := mkNodeView None ∅ ∅.

(** Calls on the collaborators that draw: they return nothing, so a call
    is modelled by its record in the log. *)
Inductive ViewCall :=
  | pipe_connect (src trg : Port)          (* src.view.connect_to(trg.view) *)
  | pipe_disconnect (src trg : Port)       (* src.view.disconnect_from(trg.view) *)
  | view_delete (n : node_id)              (* node.view.delete() *)
  | viewer_add_node (n : node_id) (pos : Value)
  | scene_addItem (n : node_id)
  | port_setVisible (p : Port) (b : bool)
  | text_setVisible (p : Port) (b : bool)
  | post_init (n : node_id)
  | bin_set_value (n : node_id) (name : string) (v : Value).

(** The state of the program: the node mapping of the graph model (a node
    object is named by its id, so the mapping is the set of its keys), the
    properties of every node model (the position is the property [pos]),
    the port models, and on the drawing side the node views, the values
    shown by the property bin and the log of calls. *)
Record State := mkState {
  nodes : gset node_id;
  properties : gmap (node_id * string) Value;
  ports : gmap Port PortModel;
  views : gmap node_id NodeView;
  prop_bin : gmap node_id (gmap string Value);
  calls : list ViewCall
}.

Definition empty_state : State := mkState ∅ ∅ ∅ ∅ ∅ [].

(** [port.model] *)
Definition port_model (s : State) (p : Port) : PortModel :=
  default new_port (ports s !! p).

(** [port.model.connected_ports] *)
Definition conns (s : State) (p : Port) : gmap node_id (list string) :=
  connected_ports (port_model s p).

(** The names a port lists under a node id; no key, no names. *)
Definition listed (s : State) (p : Port) (k : node_id) : list string :=
  default [] (conns s p !! k).

Definition set_conns (p : Port) (d : gmap node_id (list string)) (s : State) : State :=
  mkState (nodes s) (properties s)
    (<[p := mkPortModel (visible (port_model s p)) d]> (ports s))
    (views s) (prop_bin s) (calls s).

Definition set_port_visible (p : Port) (b : bool) (s : State) : State :=
  mkState (nodes s) (properties s)
    (<[p := mkPortModel b (conns s p)]> (ports s))
    (views s) (prop_bin s) (calls s).

Definition set_nodes (ns : gset node_id) (s : State) : State :=
  mkState ns (properties s) (ports s) (views s) (prop_bin s) (calls s).

Definition set_properties (ps : gmap (node_id * string) Value) (s : State) : State :=
  mkState (nodes s) ps (ports s) (views s) (prop_bin s) (calls s).

Definition set_views (vs : gmap node_id NodeView) (s : State) : State :=
  mkState (nodes s) (properties s) (ports s) vs (prop_bin s) (calls s).

Definition set_prop_bin (b : gmap node_id (gmap string Value)) (s : State) : State :=
  mkState (nodes s) (properties s) (ports s) (views s) b (calls s).

(** A call on a drawing collaborator. *)
Definition call (c : ViewCall) (s : State) : State :=
  mkState (nodes s) (properties s) (ports s) (views s) (prop_bin s) (calls s ++ [c]).

(** The model half of the state: what the inverse law is about. *)
Record Model := mkModel {
  m_nodes : gset node_id;
  m_properties : gmap (node_id * string) Value;
  m_ports : gmap Port PortModel
}.

Definition model (s : State) : Model :=
  mkModel (nodes s) (properties s) (ports s).

(** Modelled from the spec: the class of [port.model.connected_ports] is
    declared in base/model.py, which is not among the sources. The spec
    has a connect "append target's name into source's connection set
    keyed by target's node id" whether or not the key is there, which is
    a [defaultdict(list)]: reading a missing key stores a new empty list
    under it. [getitem k d] is the dictionary after [d[k]]. *)
Definition getitem (k : node_id) (d : gmap node_id (list string))
  : gmap node_id (list string) :=
  match d !! k with
  | Some _ => d
  | None => <[k := []]> d
  end.

(** [d[k].append(name)]: the list object under [k] grows in place. *)
Definition append_name (k : node_id) (name : string)
    (d : gmap node_id (list string)) : gmap node_id (list string) :=
  alter (λ l, l ++ [name]) k (getitem k d).

(** The reference [d.get(k)] returns. *)
Definition ref_of (owner : Port) (k : node_id) (o : option (list string)) : ref Port :=
  match o with
  | None => RefNone
  | Some _ => RefStored owner k
  end.

(** One endpoint of a disconnect:
<<
    port_names = model.connected_ports.get(peer_id)
    if port_names is []:
        del model.connected_ports[peer_id]
    if port_names and peer_name in port_names:
        port_names.remove(peer_name)
>>
    [remove] changes the list object in place: the dictionary shows it
    as long as it still holds that object. *)
Definition remove_name (owner : Port) (k : node_id) (name : string)
    (d : gmap node_id (list string)) : result (gmap node_id (list string)) :=
  let port_names := d !! k in
  d1 ← (if py_is (ref_of owner k port_names) RefFresh
        then dict_delitem k d else Ok d);
  match port_names with
  | Some l =>
      if truthy l && contains name l
      then l' ← list_remove name l; Ok (alter (λ _, l') k d1)
      else Ok d1
  | None => Ok d1
  end.

(** *** PortConnectedCmd *)

Definition PortConnectedCmd_undo (source target : Port) (s : State) : result State :=
  let src_id := port_node source in
  let trg_id := port_node target in
  d ← remove_name source trg_id (port_name target) (conns s source);
  let s := set_conns source d s in
  d ← remove_name target src_id (port_name source) (conns s target);
  let s := set_conns target d s in
  Ok (call (pipe_disconnect source target) s).

Definition PortConnectedCmd_redo (source target : Port) (s : State) : result State :=
  let src_id := port_node source in
  let trg_id := port_node target in
  let s := set_conns source (append_name trg_id (port_name target) (conns s source)) s in
  let s := set_conns target (append_name src_id (port_name source) (conns s target)) s in
  Ok (call (pipe_connect source target) s).

(** *** PortDisconnectedCmd *)

Definition PortDisconnectedCmd_undo (source target : Port) (s : State) : result State :=
  let src_id := port_node source in
  let trg_id := port_node target in
  let s := set_conns source (append_name trg_id (port_name target) (conns s source)) s in
  let s := set_conns target (append_name src_id (port_name source) (conns s target)) s in
  Ok (call (pipe_connect source target) s).

Definition PortDisconnectedCmd_redo (source target : Port) (s : State) : result State :=
  let src_id := port_node source in
  let trg_id := port_node target in
  d ← remove_name source trg_id (port_name target) (conns s source);
  let s := set_conns source d s in
  d ← remove_name target src_id (port_name source) (conns s target);
  let s := set_conns target d s in
  Ok (call (pipe_disconnect source target) s).

(** *** PropertyChangedCmd *)

(** [node.view] *)
Definition node_view (s : State) (n : node_id) : NodeView :=
  default new_view (views s !! n).

(** Modelled from the spec: [NodeModel.set_property] and
    [NodeObject.get_property] are declared in files that are not among
    the sources; the spec has them write and read the node's mapping
    from property name to value. A property never set reads [None]. *)
Definition set_property (node : node_id) (name : string) (value : Value)
    (s : State) : State :=
  set_properties (<[(node, name) := value]> (properties s)) s.

Definition get_property (node : node_id) (name : string) (s : State) : Value :=
  default VNone (properties s !! (node, name)).

(** [PropertyChangedCmd.set_node_prop] *)
Definition set_node_prop (node : node_id) (name : string) (value : Value)
    (s : State) : State :=
  let s := set_property node name value s in
  let view := node_view s node in
  let view :=
    match widgets view with
    | Some ws =>
        match ws !! name with
        | Some cur =>
            if py_ne cur value
            then mkNodeView (Some (<[name := value]> ws))
                   (view_properties view) (view_attrs view)
            else view
        | None => view
        end
    | None => view
    end in
  let view :=
    if bool_decide (name ∈ view_properties view)
    then
      let name := if bool_decide (name = "pos") then "xy_pos" else name in
      mkNodeView (widgets view) (view_properties view)
        (<[name := value]> (view_attrs view))
    else view in
  set_views (<[node := view]> (views s)) s.

(** [PropertyChangedCmd.update_prop_bin]: [prop_widget] returns nothing
    for a node the bin does not show; [get_widget] of a name the bin has
    no widget for returns [None], whose [get_value] is an
    [AttributeError]. *)
Definition update_prop_bin (node : node_id) (name : string) (value : Value)
    (s : State) : result State :=
  match prop_bin s !! node with
  | Some properties_wgt =>
      match properties_wgt !! name with
      | Some cur =>
          if py_ne cur value
          then Ok (call (bin_set_value node name value)
                     (set_prop_bin (<[node := <[name := value]> properties_wgt]> (prop_bin s)) s))
          else Ok s
      | None => Raise AttributeError
      end
  | None => Ok s
  end.

Definition PropertyChangedCmd_undo (node : node_id) (name : string)
    (old_val new_val : Value) (s : State) : result State :=
  if py_ne old_val new_val
  then update_prop_bin node name old_val (set_node_prop node name old_val s)
  else Ok s.

Definition PropertyChangedCmd_redo (node : node_id) (name : string)
    (old_val new_val : Value) (s : State) : result State :=
  if py_ne old_val new_val
  then update_prop_bin node name new_val (set_node_prop node name new_val s)
  else Ok s.

(** *** NodeMovedCmd *)

(** [node.view.xy_pos = pos] *)
Definition set_xy_pos (node : node_id) (pos : Value) (s : State) : State :=
  let view := node_view s node in
  set_views (<[node := mkNodeView (widgets view) (view_properties view)
                         (<["xy_pos" := pos]> (view_attrs view))]> (views s)) s.

(** [node.model.pos = pos] *)
Definition set_model_pos (node : node_id) (pos : Value) (s : State) : State :=
  set_properties (<[(node, "pos") := pos]> (properties s)) s.

Definition NodeMovedCmd_undo (node : node_id) (pos prev_pos : Value)
    (s : State) : result State :=
  Ok (set_model_pos node prev_pos (set_xy_pos node prev_pos s)).

Definition NodeMovedCmd_redo (node : node_id) (pos prev_pos : Value)
    (s : State) : result State :=
  if bool_decide (pos = prev_pos) then Ok s
  else Ok (set_model_pos node pos (set_xy_pos node pos s)).

(** *** NodeAddedCmd *)

(** [graph.model.nodes.pop(id)] *)
Definition nodes_pop (node : node_id) (s : State) : result State :=
  if bool_decide (node ∈ nodes s)
  then Ok (set_nodes (nodes s ∖ {[node]}) s)
  else Raise KeyError.

(** [graph.model.nodes[id] = node] *)
Definition nodes_setitem (node : node_id) (s : State) : State :=
  set_nodes ({[node]} ∪ nodes s) s.

(** Modelled from the spec: [NodeObject.pos] is declared in a file that
    is not among the sources; the spec has it give "the node's own
    recorded position". *)
Definition node_pos (node : node_id) (s : State) : Value :=
  get_property node "pos" s.

(** The truth value of a property value. *)
Definition value_truthy (v : Value) : bool :=
  match v with
  | VNone => false
  | VInt z => bool_decide (z ≠ 0%Z)
  | VStr s => bool_decide (s ≠ "")
  | VPos _ _ => true
  end.

(** [a or b] *)
Definition py_or (a b : Value) : Value :=
  if value_truthy a then a else b.

(** [undo] writes [self.pos], so it returns the new [self.pos] too. *)
Definition NodeAddedCmd_undo (node : node_id) (pos : Value)
    (s : State) : result (Value * State) :=
  let pos := py_or pos (node_pos node s) in
  s ← nodes_pop node s;
  Ok (pos, call (view_delete node) s).

Definition NodeAddedCmd_redo (node : node_id) (pos : Value)
    (s : State) : result State :=
  Ok (call (viewer_add_node node pos) (nodes_setitem node s)).

(** *** NodeRemovedCmd *)

(** Modelled from the spec: [Port.connect_to] and [Port.disconnect_from]
    are declared in base/port.py, which is not among the sources. The
    spec has connect and disconnect "each touch both endpoints'
    connection sets in one call", with the transformations of the port
    commands. *)
Definition connect_to (port p : Port) (s : State) : result State :=
  PortConnectedCmd_redo port p s.

Definition disconnect_from (port p : Port) (s : State) : result State :=
  PortDisconnectedCmd_redo port p s.

(** [[f(port, p) for p in connected_ports]] *)
Fixpoint for_each_peer (f : Port → Port → State → result State)
    (port : Port) (connected : list Port) (s : State) : result State :=
  match connected with
  | [] => Ok s
  | p :: rest => s ← f port p s; for_each_peer f port rest s
  end.

(** [for port, connected_ports in captured: ...] *)
Fixpoint for_each_port (f : Port → Port → State → result State)
    (captured : list (Port * list Port)) (s : State) : result State :=
  match captured with
  | [] => Ok s
  | (port, connected) :: rest =>
      s ← for_each_peer f port connected s; for_each_port f rest s
  end.

Definition NodeRemovedCmd_undo (node : node_id)
    (inputs outputs : list (Port * list Port)) (s : State) : result State :=
  let s := call (scene_addItem node) (nodes_setitem node s) in
  s ← for_each_port connect_to inputs s;
  for_each_port connect_to outputs s.

Definition NodeRemovedCmd_redo (node : node_id)
    (inputs outputs : list (Port * list Port)) (s : State) : result State :=
  s ← for_each_port disconnect_from inputs s;
  s ← for_each_port disconnect_from outputs s;
  s ← nodes_pop node s;
  Ok (call (view_delete node) s).

(** *** PortVisibleCmd *)

(** [PortVisibleCmd.set_visible]; the node view has a text item for
    every port. *)
Definition set_visible (port : Port) (visible : bool) (s : State) : State :=
  let s := set_port_visible port visible s in
  let s := call (port_setVisible port visible) s in
  let s :=
    match port_dir port with
    | IN_PORT => call (text_setVisible port visible) s
    | OUT_PORT => call (text_setVisible port visible) s
    end in
  call (post_init (port_node port)) s.

Definition PortVisibleCmd_undo (port : Port) (visible : bool) (s : State)
  : result State :=
  Ok (set_visible port visible s).

Definition PortVisibleCmd_redo (port : Port) (visible : bool) (s : State)
  : result State :=
  Ok (set_visible port (negb visible) s).

(** *** The commands as values *)

(** A command object with what its constructor stored. *)
Inductive Cmd :=
  | PropertyChangedCmd (node : node_id) (name : string) (old_val new_val : Value)
  | NodeMovedCmd (node : node_id) (pos prev_pos : Value)
  | NodeAddedCmd (node : node_id) (pos : Value)
  | NodeRemovedCmd (node : node_id) (inputs outputs : list (Port * list Port))
  | PortConnectedCmd (source target : Port)
  | PortDisconnectedCmd (source target : Port)
  | PortVisibleCmd (port : Port) (visible : bool).

(** [cmd.redo()] *)
Definition redo (c : Cmd) (s : State) : result State :=
  match c with
  | PropertyChangedCmd node name old_val new_val =>
      PropertyChangedCmd_redo node name old_val new_val s
  | NodeMovedCmd node pos prev_pos => NodeMovedCmd_redo node pos prev_pos s
  | NodeAddedCmd node pos => NodeAddedCmd_redo node pos s
  | NodeRemovedCmd node inputs outputs => NodeRemovedCmd_redo node inputs outputs s
  | PortConnectedCmd source target => PortConnectedCmd_redo source target s
  | PortDisconnectedCmd source target => PortDisconnectedCmd_redo source target s
  | PortVisibleCmd port visible => PortVisibleCmd_redo port visible s
  end.

(** [cmd.undo()]: the command after the call, and the state. *)
Definition undo (c : Cmd) (s : State) : result (Cmd * State) :=
  match c with
  | PropertyChangedCmd node name old_val new_val =>
      s ← PropertyChangedCmd_undo node name old_val new_val s; Ok (c, s)
  | NodeMovedCmd node pos prev_pos =>
      s ← NodeMovedCmd_undo node pos prev_pos s; Ok (c, s)
  | NodeAddedCmd node pos =>
      '(pos, s) ← NodeAddedCmd_undo node pos s; Ok (NodeAddedCmd node pos, s)
  | NodeRemovedCmd node inputs outputs =>
      s ← NodeRemovedCmd_undo node inputs outputs s; Ok (c, s)
  | PortConnectedCmd source target =>
      s ← PortConnectedCmd_undo source target s; Ok (c, s)
  | PortDisconnectedCmd source target =>
      s ← PortDisconnectedCmd_undo source target s; Ok (c, s)
  | PortVisibleCmd port visible =>
      s ← PortVisibleCmd_undo port visible s; Ok (c, s)
  end.

(** The constructors that read the graph: [PropertyChangedCmd.__init__]
    stores [node.get_property(name)], [PortVisibleCmd.__init__] stores
    [port.visible()]. *)
Definition PropertyChangedCmd_init (node : node_id) (name : string)
    (value : Value) (s : State) : Cmd :=
  PropertyChangedCmd node name (get_property node name s) value.

Definition PortVisibleCmd_init (port : Port) (s : State) : Cmd :=
  PortVisibleCmd port (visible (port_model s port)).

(** *** The undo stack *)

(** Modelled from the spec: the stack is Qt's [QUndoStack], which is not
    among the sources. The spec has it hold the commands and a cursor:
    [push] drops the commands at and after the cursor, runs the command's
    redo, appends it and advances the cursor; [undo] steps the cursor
    back and runs that command's undo; [redo] runs the command at the
    cursor and advances; both do nothing at their end of the history. *)
Record UndoStack := mkStack {
  commands : list Cmd;
  index : nat
}.

Definition empty_stack : UndoStack := mkStack [] 0.

Definition stack_push (c : Cmd) (st : UndoStack * State)
  : result (UndoStack * State) :=
  let '(u, s) := st in
  s ← redo c s;
  Ok (mkStack (take (index u) (commands u) ++ [c]) (S (index u)), s).

Definition stack_undo (st : UndoStack * State) : result (UndoStack * State) :=
  let '(u, s) := st in
  match index u with
  | 0 => Ok st
  | S i =>
      match commands u !! i with
      | Some c =>
          '(c, s) ← undo c s;
          Ok (mkStack (<[i := c]> (commands u)) i, s)
      | None => Ok st
      end
  end.

Definition stack_redo (st : UndoStack * State) : result (UndoStack * State) :=
  let '(u, s) := st in
  match commands u !! index u with
  | Some c => s ← redo c s; Ok (mkStack (commands u) (S (index u)), s)
  | None => Ok st
  end.

(** [n] calls of an operation of the stack, stopping at the first that
    raises. *)
Fixpoint times (n : nat) (f : UndoStack * State → result (UndoStack * State))
    (st : UndoStack * State) : result (UndoStack * State) :=
  match n with
  | 0 => Ok st
  | S n => st ← f st; times n f st
  end.

(** Pushing the commands of a list, first to last. *)
Fixpoint push_all (cs : list Cmd) (st : UndoStack * State)
  : result (UndoStack * State) :=
  match cs with
  | [] => Ok st
  | c :: cs => st ← stack_push c st; push_all cs st
  end.
End Commands.

(** ** The topological sort of base/utils.py *)

Module TopologicalSort.
Import Py.

(** A node object is named by its id. *)
Abbreviation node := string.

(** What the sort reads of a port: the nodes of its connected ports,
    [[cp.node() for cp in p.connected_ports()]], and how many pipes its
    view holds, [len(p.view.connected_pipes)]. *)
Record PortObj := mkPortObj {
  port_peers : list node;
  connected_pipes : nat
}.

(** What the sort reads of a node: [node.input_ports()] and
    [node.output_ports()]. *)
Record NodeObj := mkNodeObj {
  input_ports : list PortObj;
  output_ports : list PortObj
}.

(** The node objects. A node that is not recorded has no ports. *)
Abbreviation Env := (gmap node NodeObj).

Definition obj (env : Env) (n : node) : NodeObj :=
  default (mkNodeObj [] []) (env !! n).

(** [nodes[n.id] = n] on a dictionary that keeps the order of insertion:
    the dictionary maps an id to the node of that id, so it is the list
    of its keys. *)
Definition nodes_setitem (n : node) (nodes : list node) : list node :=
  if bool_decide (n ∈ nodes) then nodes else nodes ++ [n].

(** The two loops of [get_input_nodes] and [get_output_nodes]. *)
Definition collect (ps : list PortObj) : list node :=
  foldl (λ nodes p, foldl (λ nodes n, nodes_setitem n nodes) nodes (port_peers p))
    [] ps.

Definition get_input_nodes (env : Env) (n : node) : list node :=
  collect (input_ports (obj env n)).

Definition get_output_nodes (env : Env) (n : node) : list node :=
  collect (output_ports (obj env n)).

(** The truth value of [p.view.connected_pipes]. *)
Definition has_pipes (p : PortObj) : bool :=
  negb (Nat.eqb (connected_pipes p) 0).

Definition _has_input_node (env : Env) (n : node) : bool :=
  existsb has_pipes (input_ports (obj env n)).

Definition _has_output_node (env : Env) (n : node) : bool :=
  existsb has_pipes (output_ports (obj env n)).

(** The body of the [for] loop in the [while] of [_build_graph], on the
    graph and [_output_nodes]. *)
Definition expand_step (env : Env)
    (st : gmap node (list node) * list node) (n : node)
  : gmap node (list node) * list node :=
  let '(graph, _output_nodes) := st in
  match graph !! n with
  | Some _ => (graph, _output_nodes)
  | None =>
      let nodes := get_output_nodes env n in
      (<[n := nodes]> graph, _output_nodes ++ nodes)
  end.

(** The [for] loop: the graph and [_output_nodes] after it. *)
Definition expand (env : Env) (output_nodes : list node)
    (graph : gmap node (list node)) : gmap node (list node) * list node :=
  foldl (expand_step env) (graph, []) output_nodes.

(** [while output_nodes: ...] *)
Fixpoint while_output_nodes (fuel : nat) (env : Env) (output_nodes : list node)
    (graph : gmap node (list node)) : outcome (gmap node (list node)) :=
  match output_nodes with
  | [] => Done graph
  | _ :: _ =>
      match fuel with
      | 0 => OutOfFuel
      | S fuel =>
          let '(graph, _output_nodes) := expand env output_nodes graph in
          while_output_nodes fuel env _output_nodes graph
      end
  end.

(** [for node in start_nodes: ...] *)
Fixpoint for_start_nodes (fuel : nat) (env : Env) (start_nodes : list node)
    (graph : gmap node (list node)) : outcome (gmap node (list node)) :=
  match start_nodes with
  | [] => Done graph
  | node :: rest =>
      let output_nodes := get_output_nodes env node in
      graph ← while_output_nodes fuel env output_nodes (<[node := output_nodes]> graph);
      for_start_nodes fuel env rest graph
  end.

Definition _build_graph (fuel : nat) (env : Env) (start_nodes : list node)
  : outcome (gmap node (list node)) :=
  for_start_nodes fuel env start_nodes ∅.

(** The two variables the inner function [dfs] shares with
    [topological_sort]. *)
Record Walk := mkWalk {
  visit : gmap node bool;
  sorted_nodes : list node
}.

(** [visit[n] = True] *)
Definition mark (n : node) (w : Walk) : Walk :=
  mkWalk (<[n := true]> (visit w)) (sorted_nodes w).

(** [sorted_nodes.append(n)] *)
Definition append (n : node) (w : Walk) : Walk :=
  mkWalk (visit w) (sorted_nodes w ++ [n]).

(** [for end_node in graph[start_node]: ...], with the recursive call
    as a parameter. *)
Fixpoint for_end_nodes (dfs : node → Walk → outcome Walk)
    (end_nodes : list node) (w : Walk) : outcome Walk :=
  match end_nodes with
  | [] => Done w
  | end_node :: rest =>
      v ← dict_getitem (visit w) end_node;
      if negb v
      then w ← dfs end_node (mark end_node w); for_end_nodes dfs rest w
      else for_end_nodes dfs rest w
  end.

(** [dfs(graph, start_node)]; the fuel bounds the depth of the
    recursion. *)
Fixpoint dfs (fuel : nat) (graph : gmap node (list node)) (start_node : node)
    (w : Walk) : outcome Walk :=
  match fuel with
  | 0 => OutOfFuel
  | S fuel =>
      end_nodes ← dict_getitem graph start_node;
      w ← for_end_nodes (dfs fuel graph) end_nodes w;
      Done (append start_node w)
  end.

(** [for start_node in start_nodes: ...] at the end of
    [topological_sort]. *)
Fixpoint for_roots (fuel : nat) (graph : gmap node (list node))
    (start_nodes : list node) (w : Walk) : outcome Walk :=
  match start_nodes with
  | [] => Done w
  | start_node :: rest =>
      v ← dict_getitem (visit w) start_node;
      if negb v
      then w ← dfs fuel graph start_node (mark start_node w);
           for_roots fuel graph rest w
      else for_roots fuel graph rest w
  end.

(** The start nodes after the first statement of [topological_sort]. *)
Definition roots (env : Env) (start_nodes all_nodes : list node) : list node :=
  if truthy start_nodes then start_nodes
  else filter (λ n, _has_input_node env n = false) all_nodes.

Definition topological_sort (fuel : nat) (env : Env)
    (start_nodes all_nodes : list node) : outcome (list node) :=
  let start_nodes := roots env start_nodes all_nodes in
  if negb (truthy start_nodes) then Done []
  else if negb (truthy (filter (λ n, _has_output_node env n = true) start_nodes))
  then Done start_nodes
  else
    graph ← _build_graph fuel env start_nodes;
    if bool_decide (graph = ∅) then Done []
    else
      let visit := (λ _, false) <$> graph in
      w ← for_roots fuel graph start_nodes (mkWalk visit []);
      Done (reverse (sorted_nodes w)).

(** *** What the specification says about the sort *)

(** An edge of the graph [_build_graph] returns. *)
Definition edge (graph : gmap node (list node)) (u v : node) : Prop :=
  ∃ l, graph !! u = Some l ∧ v ∈ l.

(** A walk along one edge or more. *)
Inductive path (graph : gmap node (list node)) : node → node → Prop :=
  | path_edge u v : edge graph u v → path graph u v
  | path_step u v w : edge graph u v → path graph v w → path graph u w.

(** A DAG: no node is on a cycle. *)
Definition acyclic (graph : gmap node (list node)) : Prop :=
  ∀ v, ¬ path graph v v.

(** [u] is at an earlier place of [l] than [v]. *)
Definition precedes (u v : node) (l : list node) : Prop :=
  ∃ l1 l2 l3, l = l1 ++ u :: l2 ++ v :: l3.

(** The list [dfs] appends to has, before every node of it, the ends of
    the edges of that node. *)
Definition postorder (g : gmap node (list node)) (S : list node) : Prop :=
  ∀ S1 u S2 l v, S = S1 ++ u :: S2 → g !! u = Some l → v ∈ l → v ∈ S1.

(** The walk between two calls of [dfs]: the appended nodes are in
    postorder, each once, and are marked; a marked node that is not
    appended yet is one of [pending]. *)
Definition walk_inv (g : gmap node (list node)) (pending : node → Prop)
    (w : Walk) : Prop :=
  postorder g (sorted_nodes w) ∧
  NoDup (sorted_nodes w) ∧
  (∀ k, k ∈ sorted_nodes w → visit w !! k = Some true) ∧
  (∀ k, visit w !! k = Some true → k ∈ sorted_nodes w ∨ pending k).

(** What a call or a loop of the walk adds: marks stay, appended nodes
    stay, a new mark is an appended node unless it is [kept], and a newly
    appended node was not marked or is [root]. *)
Definition walk_step (root kept : node → Prop) (w w' : Walk) : Prop :=
  (∀ k, visit w !! k = Some true → visit w' !! k = Some true) ∧
  (∀ k, k ∈ sorted_nodes w → k ∈ sorted_nodes w') ∧
  (∀ k, visit w' !! k = Some true →
        k ∈ sorted_nodes w' ∨ (kept k ∧ visit w !! k = Some true)) ∧
  (∀ k, k ∈ sorted_nodes w' →
        k ∈ sorted_nodes w ∨ root k ∨ visit w !! k ≠ Some true).

(** What a call of [dfs] on a DAG does to the walk. *)
Definition dfs_orders (g : gmap node (list node)) (f : nat) : Prop :=
  ∀ start w w',
    dfs f g start w = Done w' →
    walk_inv g (λ k, k = start ∨ path g k start) w →
    visit w !! start = Some true → start ∉ sorted_nodes w →
    postorder g (sorted_nodes w') ∧ NoDup (sorted_nodes w') ∧
    (∀ k, k ∈ sorted_nodes w' → visit w' !! k = Some true) ∧
    start ∈ sorted_nodes w' ∧
    walk_step (λ k, k = start) (λ k, k ≠ start) w w'.

(** Every appended node is appended once and is marked. *)
Definition marked_once (w : Walk) : Prop :=
  NoDup (sorted_nodes w) ∧
  ∀ k, k ∈ sorted_nodes w → visit w !! k = Some true.

(** Marks stay, and a newly appended node was not marked or is [root]. *)
Definition fresh_step (root : node → Prop) (w w' : Walk) : Prop :=
  (∀ k, visit w !! k = Some true → visit w' !! k = Some true) ∧
  (∀ k, k ∈ sorted_nodes w' →
        k ∈ sorted_nodes w ∨ root k ∨ visit w !! k ≠ Some true).

(** What a call of [dfs] does to the walk on any graph: it is never
    called on a node twice. *)
Definition dfs_once (g : gmap node (list node)) (f : nat) : Prop :=
  ∀ start w w',
    dfs f g start w = Done w' →
    marked_once w → visit w !! start = Some true → start ∉ sorted_nodes w →
    marked_once w' ∧ fresh_step (λ k, k = start) w w'.

(** Every value of the graph is the list of the output nodes of its key,
    and every key is one of the nodes [R]. *)
Definition sound (env : Env) (R : node → Prop) (g : gmap node (list node)) : Prop :=
  (∀ k, is_Some (g !! k) → R k) ∧
  ∀ k l, g !! k = Some l → l = get_output_nodes env k.

(** The nodes a walk from a start node along output connections gets
    to. *)
Inductive reach (env : Env) (start_nodes : list node) : node → Prop :=
  | reach_start n : n ∈ start_nodes → reach env start_nodes n
  | reach_step k e :
      reach env start_nodes k → e ∈ get_output_nodes env k →
      reach env start_nodes e.

(** The end of every edge is a key, or waits in [output_nodes]. *)
Definition covered (g : gmap node (list node)) (output_nodes : list node) : Prop :=
  ∀ k l e, g !! k = Some l → e ∈ l → is_Some (g !! e) ∨ e ∈ output_nodes.

(** The end of every edge is a key. *)
Definition closed (g : gmap node (list node)) : Prop :=
  ∀ k l e, g !! k = Some l → e ∈ l → is_Some (g !! e).

(** How many keys are not visited yet. *)
Definition unvisited (v : gmap node bool) : nat :=
  size (filter (λ kv, kv.2 = false) v).

(** What a call of [dfs] with enough fuel does: it returns, on a walk
    that has a mark for every key, and unmarks nothing. *)
Definition returns (g : gmap node (list node)) (f : nat) : Prop :=
  ∀ start w,
    is_Some (g !! start) → dom (visit w) = dom g → unvisited (visit w) < f →
    ∃ w', dfs f g start w = Done w' ∧ dom (visit w') = dom g ∧
          ∀ k, visit w' !! k = Some false → visit w !! k = Some false.

(** Every node that can be an output node. *)
Definition all_peers (env : Env) : list node :=
  map_to_list env ≫= (λ kv, output_ports kv.2 ≫= port_peers).

(** The nodes the graph of [_build_graph] is made of. *)
Definition universe (env : Env) (start_nodes : list node) : gset node :=
  list_to_set (start_nodes ++ all_peers env).

(** Fuel that is enough for every loop of the sort. *)
Definition enough_fuel (env : Env) (start_nodes all_nodes : list node) : nat :=
  S (size (universe env (roots env start_nodes all_nodes))).

(** The diamond A→B, A→C, B→D, C→D; every connection has its pipe. *)
Definition diamond : Env :=
  <["A" := mkNodeObj [] [mkPortObj ["B"; "C"] 2]]>
  (<["B" := mkNodeObj [mkPortObj ["A"] 1] [mkPortObj ["D"] 1]]>
  (<["C" := mkNodeObj [mkPortObj ["A"] 1] [mkPortObj ["D"] 1]]>
  (<["D" := mkNodeObj [mkPortObj ["B"; "C"] 2] []]> ∅))).

(** The graph [_build_graph] makes of the diamond, and the length of the
    longest walk from each of its nodes. *)
Definition diamond_graph : gmap node (list node) :=
  <["A" := ["B"; "C"]]> (<["B" := ["D"]]> (<["C" := ["D"]]> (<["D" := []]> ∅))).

Definition diamond_rank (n : node) : nat :=
  if decide (n = "A") then 2
  else if decide (n = "B") then 1
  else if decide (n = "C") then 1
  else 0.

(** A cycle A→B→A. *)
Definition cycle : Env :=
  <["A" := mkNodeObj [mkPortObj ["B"] 1] [mkPortObj ["B"] 1]]>
  (<["B" := mkNodeObj [mkPortObj ["A"] 1] [mkPortObj ["A"] 1]]> ∅).

(** One node, no connection. *)
Definition isolated : Env :=
  <["N" := mkNodeObj [mkPortObj [] 0] [mkPortObj [] 0]]> ∅.

End TopologicalSort.

(** ** What the specification says about the commands *)

Module CommandSpecs.
Import Py Commands.

(** [l] without the first occurrence of [x], or [l] when there is none. *)
Fixpoint remove_first (x : string) (l : list string) : list string :=
  match l with
  | [] => []
  | y :: l' => if decide (x = y) then l' else y :: remove_first x l'
  end.

(** What [remove_name] leaves of a dictionary. *)
Definition removed (k : string) (name : string) (d : gmap string (list string))
  : gmap string (list string) :=
  match d !! k with
  | Some l => <[k := remove_first name l]> d
  | None => d
  end.

(** The state a connect leaves: [PortConnectedCmd.redo] without the
    monad. *)
Definition connect_state (source target : Port) (s : State) : State :=
  let s := set_conns source
             (append_name (port_node target) (port_name target) (conns s source)) s in
  let s := set_conns target
             (append_name (port_node source) (port_name source) (conns s target)) s in
  call (pipe_connect source target) s.

(** The state a disconnect leaves. *)
Definition disconnect_state (source target : Port) (s : State) : State :=
  let s := set_conns source
             (removed (port_node target) (port_name target) (conns s source)) s in
  let s := set_conns target
             (removed (port_node source) (port_name source) (conns s target)) s in
  call (pipe_disconnect source target) s.

(** INV-1 as the specification writes it: over the ports of the graph,
    [Q.name ∈ P.connections[Q.node_id] ⇔ P.name ∈ Q.connections[P.node_id]]. *)
Definition INV1 (s : State) : Prop :=
  ∀ P Q : Port, P ∈ dom (ports s) → Q ∈ dom (ports s) →
    port_name Q ∈ listed s P (port_node Q) ↔
    port_name P ∈ listed s Q (port_node P).

(** INV-1 by multiplicity, over the pairs a connection can join (a name
    in a connection set is a port of the other direction): each lists
    the other as often as it is listed by it. *)
Definition balanced (s : State) : Prop :=
  ∀ P Q : Port, port_dir P ≠ port_dir Q →
    count (port_name Q) (listed s P (port_node Q)) =
    count (port_name P) (listed s Q (port_node P)).

(** The claim that a transformation of the port commands keeps INV-1. *)
Definition keeps_INV1 (f : Port → Port → State → result State) : Prop :=
  ∀ source target s s', INV1 s → f source target s = Ok s' → INV1 s'.

(** INV-1 over the pairs a connection can join. *)
Definition INV1_opposite (s : State) : Prop :=
  ∀ P Q : Port, port_dir P ≠ port_dir Q →
    port_name Q ∈ listed s P (port_node Q) ↔
    port_name P ∈ listed s Q (port_node P).

(** [n] executions of one transformation, stopping at the first that
    raises. *)
Fixpoint repeat_cmd (n : nat) (f : State → result State) (s : State)
  : result State :=
  match n with
  | 0 => Ok s
  | S n => s ← f s; repeat_cmd n f s
  end.

(** The inverse operation in the words of the specification: it "removes
    each name from the respective list (and, if a node's id key maps to
    an empty list, removes the key entirely)". *)
Definition spec_remove (k : string) (name : string)
    (d : gmap string (list string)) : gmap string (list string) :=
  match d !! k with
  | Some l =>
      match remove_first name l with
      | [] => delete k d
      | l' => <[k := l']> d
      end
  | None => d
  end.

Definition spec_disconnect (source target : Port) (s : State) : State :=
  let s := set_conns source
             (spec_remove (port_node target) (port_name target) (conns s source)) s in
  let s := set_conns target
             (spec_remove (port_node source) (port_name source) (conns s target)) s in
  call (pipe_disconnect source target) s.

(** The forward operation in the words of the specification: "append
    target's name into source's connection set keyed by target's node
    id, append source's name into target's connection set keyed by
    source's node id, notify ViewSync to draw the link". *)
Definition spec_connect (source target : Port) (s : State) : State :=
  let d := conns s source in
  let s := set_conns source
             (<[port_node target :=
                  default [] (d !! port_node target) ++ [port_name target]]> d) s in
  let d := conns s target in
  let s := set_conns target
             (<[port_node source :=
                  default [] (d !! port_node source) ++ [port_name source]]> d) s in
  call (pipe_connect source target) s.

(** Two ports of two nodes, for the examples. *)
Definition out_A : Port := mkPort "A" OUT_PORT "out".
Definition in_B : Port := mkPort "B" IN_PORT "in".

(** [out_A] lists [in_B] once and is listed once. *)
Definition linked : State :=
  mkState ∅ ∅
    (<[out_A := mkPortModel true {["B" := ["in"]]}]>
       (<[in_B := mkPortModel true {["A" := ["out"]]}]> ∅))
    ∅ ∅ [].

(** [out_A] lists [in_B] twice and is listed once. *)
Definition lopsided : State :=
  mkState ∅ ∅
    (<[out_A := mkPortModel true {["B" := ["in"; "in"]]}]>
       (<[in_B := mkPortModel true {["A" := ["out"]]}]> ∅))
    ∅ ∅ [].

(** The two ports exist and list nothing. *)
Definition unlinked : State :=
  mkState ∅ ∅ (<[out_A := new_port]> (<[in_B := new_port]> ∅)) ∅ ∅ [].

(** *** The inverse law *)

(** What the constructor arguments of a command must be like, whatever
    the state: a port is not connected to itself, and a removed node is
    captured without connections. *)
Definition wf_cmd (c : Cmd) : Prop :=
  match c with
  | NodeRemovedCmd node inputs outputs =>
      ∀ pc, pc ∈ inputs ++ outputs → pc.2 = []
  | PortConnectedCmd source target => port_dir source ≠ port_dir target
  | PortDisconnectedCmd source target => port_dir source ≠ port_dir target
  | _ => True
  end.

(** A command records a change of the state it is pushed on. *)
Definition recorded (c : Cmd) (s : State) : Prop :=
  wf_cmd c ∧
  match c with
  | PropertyChangedCmd node name old_val new_val =>
      properties s !! (node, name) = Some old_val
  | NodeMovedCmd node pos prev_pos =>
      properties s !! (node, "pos") = Some prev_pos
  | NodeAddedCmd node pos => node ∉ nodes s
  | NodeRemovedCmd node inputs outputs => node ∈ nodes s
  | PortConnectedCmd source target =>
      is_Some (ports s !! source) ∧ is_Some (ports s !! target) ∧
      count (port_name target) (listed s source (port_node target)) = 0 ∧
      count (port_name source) (listed s target (port_node source)) = 0
  | PortDisconnectedCmd source target =>
      is_Some (ports s !! source) ∧ is_Some (ports s !! target) ∧
      count (port_name target) (listed s source (port_node target)) = 1 ∧
      count (port_name source) (listed s target (port_node source)) = 1
  | PortVisibleCmd port visible =>
      ∃ pm, ports s !! port = Some pm ∧ Commands.visible pm = visible
  end.

(** The redos of a list of commands, first to last. *)
Fixpoint redo_all (cs : list Cmd) (s : State) : result State :=
  match cs with
  | [] => Ok s
  | c :: cs => s ← redo c s; redo_all cs s
  end.

(** The undos of a list of commands, last to first; the commands come
    back as their undos left them. *)
Fixpoint undo_all (cs : list Cmd) (s : State) : result (list Cmd * State) :=
  match cs with
  | [] => Ok ([], s)
  | c :: cs =>
      r ← undo_all cs s;
      r' ← undo c r.2;
      Ok (r'.1 :: r.1, r'.2)
  end.

(** Every command of a list records a change of the state it is run
    on, the commands being run first to last. *)
Fixpoint recorded_run (cs : list Cmd) (s : State) : Prop :=
  match cs with
  | [] => True
  | c :: cs =>
      recorded c s ∧
      match redo c s with
      | Ok s' => recorded_run cs s'
      | Raise _ => False
      end
  end.

(** The inverse law as the specification states it: whatever was pushed,
    [k] undos and then [k] redos return and give the model back. *)
Definition inverse_law : Prop :=
  ∀ (cs : list Cmd) (s0 : State) (u : UndoStack) (s : State) (k : nat),
    push_all cs (empty_stack, s0) = Ok (u, s) → k ≤ length cs →
    ∃ u1 s1 u2 s2,
      times k stack_undo (u, s) = Ok (u1, s1) ∧
      times k stack_redo (u1, s1) = Ok (u2, s2) ∧
      model s2 = model s.

(** A node at the origin, and a move that records no change of it. *)
Definition at_origin : State :=
  mkState {["n"]} {[("n", "pos") := VPos 0 0]} ∅ ∅ ∅ [].

Definition still_move : Cmd := NodeMovedCmd "n" (VPos 5 5) (VPos 5 5).

(** A graph of one node at the origin and two ports, and three commands
    that each record a change of it. *)
Definition small_graph : State :=
  mkState {["n"]} {[("n", "pos") := VPos 0 0]}
    (<[out_A := new_port]> (<[in_B := new_port]> ∅)) ∅ ∅ [].

Definition small_history : list Cmd :=
  [NodeMovedCmd "n" (VPos 5 5) (VPos 0 0);
   PortConnectedCmd out_A in_B;
   PortVisibleCmd out_A true].

(** What one command does to one connection list: it appends a name,
    removes a name, or leaves the list. *)
Inductive Op :=
  | App (z : string)
  | Rem (z : string)
  | Skip.

Definition do_op (o : Op) (l : list string) : list string :=
  match o with
  | App z => l ++ [z]
  | Rem z => remove_first z l
  | Skip => l
  end.

Definition inv_op (o : Op) : Op :=
  match o with
  | App z => Rem z
  | Rem z => App z
  | Skip => Skip
  end.

(** The names an operation is about. *)
Definition op_name (o : Op) : list string :=
  match o with
  | App z => [z]
  | Rem z => [z]
  | Skip => []
  end.

Definition op_names (ops : list Op) : list string := ops ≫= op_name.

Definition exec (ops : list Op) (l : list string) : list string :=
  foldl (λ l o, do_op o l) l ops.

(** An operation records a change of the list: the name it appends is
    not in it, the name it removes is in it once. *)
Definition op_valid (o : Op) (l : list string) : Prop :=
  match o with
  | App z => count z l = 0
  | Rem z => count z l = 1
  | Skip => True
  end.

Fixpoint ops_valid (ops : list Op) (l : list string) : Prop :=
  match ops with
  | [] => True
  | o :: ops => op_valid o l ∧ ops_valid ops (do_op o l)
  end.

(** What the redo of a command does to the list of port [P] under the
    key [k]. *)
Definition cell_op (c : Cmd) (P : Port) (k : string) : Op :=
  match c with
  | PortConnectedCmd source target =>
      if decide (source = P ∧ port_node target = k) then App (port_name target)
      else if decide (target = P ∧ port_node source = k) then App (port_name source)
      else Skip
  | PortDisconnectedCmd source target =>
      if decide (source = P ∧ port_node target = k) then Rem (port_name target)
      else if decide (target = P ∧ port_node source = k) then Rem (port_name source)
      else Skip
  | _ => Skip
  end.

(** What the redos of a list of commands do, one after the other, to
    the list of port [P] under the key [k]. *)
Definition cell_ops (cs : list Cmd) (P : Port) (k : string) : list Op :=
  (λ c, cell_op c P k) <$> cs.

(** The shape of the property bin: which names it shows of which nodes. *)
Definition bin_shape (s : State) : gmap string (gset string) :=
  dom <$> prop_bin s.

(** A state of the replay next to the state of the history it stands
    for: the same nodes, properties and property bin shape, the same
    ports with the same flags, and the same names as often in every
    connection list. *)
Definition rest_sim (t s : State) : Prop :=
  nodes t = nodes s ∧
  properties t = properties s ∧
  bin_shape t = bin_shape s.

Definition ports_sim (t s : State) : Prop :=
  (∀ P, is_Some (ports t !! P) ↔ is_Some (ports s !! P)) ∧
  (∀ P, visible (port_model t P) = visible (port_model s P)) ∧
  (∀ P k x, count x (listed t P k) = count x (listed s P k)).

Definition sim (t s : State) : Prop := rest_sim t s ∧ ports_sim t s.

(** Every key of a connection set of [t] is one of [s]. *)
Definition keys_le (t s : State) : Prop :=
  ∀ P k, is_Some (conns t P !! k) → is_Some (conns s P !! k).

(** A command and what an undo made of it: only the position an added
    node is drawn at can differ. *)
Definition cmd_sim (c c' : Cmd) : Prop :=
  match c, c' with
  | NodeAddedCmd node _, NodeAddedCmd node' _ => node = node'
  | NodeAddedCmd _ _, _ => False
  | _, NodeAddedCmd _ _ => False
  | _, _ => c = c'
  end.

End CommandSpecs.

(** ** What the commands leave alone, and states to run them on *)

Module CommandFrames.
Import Py Commands CommandSpecs.

(** What a port command run on [source] and [target] leaves of [s] in
    [s']: the nodes, the properties, the views, the property bin, every
    visibility flag, every other port, and in the two ports every list
    but the one under the peer's node id. *)
Definition only_the_link (source target : Port) (s s' : State) : Prop :=
  nodes s' = nodes s ∧ properties s' = properties s ∧
  views s' = views s ∧ prop_bin s' = prop_bin s ∧
  (∀ P, visible (port_model s' P) = visible (port_model s P)) ∧
  (∀ P, P ≠ source → P ≠ target → ports s' !! P = ports s !! P) ∧
  (∀ P k, ¬ (P = source ∧ k = port_node target) →
          ¬ (P = target ∧ k = port_node source) →
          conns s' P !! k = conns s P !! k).

(** What [set_node_prop] makes of the view of the node. *)
Definition synced_view (name : string) (value : Value) (view : NodeView)
  : NodeView :=
  let view :=
    match widgets view with
    | Some ws =>
        match ws !! name with
        | Some cur =>
            if py_ne cur value
            then mkNodeView (Some (<[name := value]> ws))
                   (view_properties view) (view_attrs view)
            else view
        | None => view
        end
    | None => view
    end in
  if bool_decide (name ∈ view_properties view)
  then
    let name := if bool_decide (name = "pos") then "xy_pos" else name in
    mkNodeView (widgets view) (view_properties view)
      (<[name := value]> (view_attrs view))
  else view.

(** The view of a node shows the position of its model. *)
Definition shows_position (s : State) (node : node_id) : Prop :=
  view_attrs (node_view s node) !! "xy_pos" = properties s !! (node, "pos").

(** A node whose view has a widget and a view property for ["size"] and
    the view property ["pos"], shown by the property bin. *)
Definition sized_view : NodeView :=
  mkNodeView (Some {["size" := VInt 1]}) {["size"; "pos"]}
    {["size" := VInt 1; "xy_pos" := VPos 0 0]}.

Definition sized_graph : State :=
  mkState {["n"]} {[("n", "size") := VInt 1; ("n", "pos") := VPos 0 0]}
    (<[out_A := new_port]> (<[in_B := new_port]> ∅))
    {["n" := sized_view]}
    {["n" := {["size" := VInt 1; "pos" := VPos 0 0]}]} [].

End CommandFrames.

(** ** What a command does to each part of the model *)

Module Histories.
Import Py Commands CommandSpecs.

(** The property a redo writes, and the value it writes: a property
    change or a move whose two values differ. *)
Definition writes (c : Cmd) : option (node_id * string) :=
  match c with
  | PropertyChangedCmd node name old_val new_val =>
      if py_ne old_val new_val then Some (node, name) else None
  | NodeMovedCmd node pos prev_pos =>
      if bool_decide (pos = prev_pos) then None else Some (node, "pos")
  | _ => None
  end.

Definition redo_value (c : Cmd) : Value :=
  match c with
  | PropertyChangedCmd _ _ _ new_val => new_val
  | NodeMovedCmd _ pos _ => pos
  | _ => VNone
  end.

(** The property an undo writes, and the value: a move writes the
    previous position whatever the two positions are. *)
Definition unwrites (c : Cmd) : option (node_id * string) :=
  match c with
  | PropertyChangedCmd node name old_val new_val =>
      if py_ne old_val new_val then Some (node, name) else None
  | NodeMovedCmd node pos prev_pos => Some (node, "pos")
  | _ => None
  end.

Definition undo_value (c : Cmd) : Value :=
  match c with
  | PropertyChangedCmd _ _ old_val _ => old_val
  | NodeMovedCmd _ _ prev_pos => prev_pos
  | _ => VNone
  end.

(** Some command of the list writes the property when it is redone. *)
Definition written (cs : list Cmd) (key : node_id * string) : Prop :=
  Exists (λ c, writes c = Some key) cs.

(** The node a command puts into the node mapping ([true]) or takes out
    of it ([false]) when it is redone. *)
Definition touch (c : Cmd) : option (node_id * bool) :=
  match c with
  | NodeAddedCmd node _ => Some (node, true)
  | NodeRemovedCmd node _ _ => Some (node, false)
  | _ => None
  end.

(** What the first command of the list that adds or removes the node
    does. *)
Fixpoint first_touch (cs : list Cmd) (n : node_id) : option bool :=
  match cs with
  | [] => None
  | c :: cs =>
      match touch c with
      | Some (m, b) => if decide (m = n) then Some b else first_touch cs n
      | None => first_touch cs n
      end
  end.

(** The ports a captured list makes the removal of a node touch: a port
    with its captured peers, when it has any. *)
Definition cap_ports (caps : list (Port * list Port)) : list Port :=
  caps ≫= (λ pc, match pc.2 with [] => [] | _ :: _ => pc.1 :: pc.2 end).

(** The ports whose model a command writes. *)
Definition cmd_ports (c : Cmd) : list Port :=
  match c with
  | PortConnectedCmd source target => [source; target]
  | PortDisconnectedCmd source target => [source; target]
  | PortVisibleCmd port _ => [port]
  | NodeRemovedCmd _ inputs outputs => cap_ports inputs ++ cap_ports outputs
  | _ => []
  end.

Definition touched (cs : list Cmd) (P : Port) : Prop :=
  Exists (λ c, P ∈ cmd_ports c) cs.

(** The flag a command gives a port when it is redone. *)
Definition flags (c : Cmd) (P : Port) : option bool :=
  match c with
  | PortVisibleCmd port visible =>
      if decide (port = P) then Some (negb visible) else None
  | _ => None
  end.

Definition unflags (c : Cmd) (P : Port) : option bool :=
  match c with
  | PortVisibleCmd port visible =>
      if decide (port = P) then Some visible else None
  | _ => None
  end.

Definition flagged (cs : list Cmd) (P : Port) : Prop :=
  Exists (λ c, is_Some (flags c P)) cs.

(** How often a link of [source] and [target] has the name [x] in the
    list of port [P] under the key [k]. *)
Definition link_weight (source target P : Port) (k x : string) : nat :=
  (if decide (source = P ∧ port_node target = k ∧ port_name target = x)
   then 1 else 0)
  + (if decide (target = P ∧ port_node source = k ∧ port_name source = x)
     then 1 else 0).

Definition peers_weight (port : Port) (peers : list Port)
    (P : Port) (k x : string) : nat :=
  sum_list_with (λ p, link_weight port p P k x) peers.

Definition caps_weight (caps : list (Port * list Port))
    (P : Port) (k x : string) : nat :=
  sum_list_with (λ pc, peers_weight pc.1 pc.2 P k x) caps.

(** The occurrences of [x] a redo appends to the list of [P] under [k],
    and the occurrences it removes, as far as there are any. *)
Definition gain (c : Cmd) (P : Port) (k x : string) : nat :=
  match c with
  | PortConnectedCmd source target => link_weight source target P k x
  | _ => 0
  end.

Definition loss (c : Cmd) (P : Port) (k x : string) : nat :=
  match c with
  | PortDisconnectedCmd source target => link_weight source target P k x
  | NodeRemovedCmd _ inputs outputs =>
      caps_weight inputs P k x + caps_weight outputs P k x
  | _ => 0
  end.

(** The property bin has a widget for the property wherever it shows
    the node. *)
Definition bin_has (node name : string) (s : State) : Prop :=
  ∀ w, prop_bin s !! node = Some w → is_Some (w !! name).

(** What a redo and an undo need in order to return. *)
Definition redo_ready (c : Cmd) (s : State) : Prop :=
  match c with
  | PropertyChangedCmd node name old_val new_val =>
      old_val ≠ new_val → bin_has node name s
  | NodeRemovedCmd node _ _ => node ∈ nodes s
  | _ => True
  end.

Definition undo_ready (c : Cmd) (s : State) : Prop :=
  match c with
  | PropertyChangedCmd node name old_val new_val =>
      old_val ≠ new_val → bin_has node name s
  | NodeAddedCmd node _ => node ∈ nodes s
  | _ => True
  end.

(** What a redo that returns has done to each part of the state, and
    what an undo has. *)
Definition redo_effect (c : Cmd) (s s' : State) : Prop :=
  bin_shape s' = bin_shape s ∧
  properties s' =
    match writes c with
    | Some key => <[key := redo_value c]> (properties s)
    | None => properties s
    end ∧
  nodes s' =
    match touch c with
    | Some (n, true) => {[n]} ∪ nodes s
    | Some (n, false) => nodes s ∖ {[n]}
    | None => nodes s
    end ∧
  (∀ P, is_Some (ports s' !! P) ↔ is_Some (ports s !! P) ∨ P ∈ cmd_ports c) ∧
  (∀ P, visible (port_model s' P) =
        default (visible (port_model s P)) (flags c P)) ∧
  (∀ P k x, count x (listed s' P k) =
            count x (listed s P k) + gain c P k x - loss c P k x).

Definition undo_effect (c : Cmd) (s s' : State) : Prop :=
  bin_shape s' = bin_shape s ∧
  properties s' =
    match unwrites c with
    | Some key => <[key := undo_value c]> (properties s)
    | None => properties s
    end ∧
  nodes s' =
    match touch c with
    | Some (n, true) => nodes s ∖ {[n]}
    | Some (n, false) => {[n]} ∪ nodes s
    | None => nodes s
    end ∧
  (∀ P, is_Some (ports s' !! P) ↔ is_Some (ports s !! P) ∨ P ∈ cmd_ports c) ∧
  (∀ P, visible (port_model s' P) =
        default (visible (port_model s P)) (unflags c P)) ∧
  (∀ P k x, count x (listed s' P k) =
            count x (listed s P k) + loss c P k x - gain c P k x).

(** The value the last command of the list that writes the property
    when it is redone writes, and the value the undo of the first
    command of the list whose undo writes the property writes: the undos
    run last to first, so the first command's is the last to write. *)
Fixpoint last_write (cs : list Cmd) (key : node_id * string) : option Value :=
  match cs with
  | [] => None
  | c :: cs =>
      match last_write cs key with
      | Some v => Some v
      | None => if decide (writes c = Some key) then Some (redo_value c) else None
      end
  end.

Fixpoint first_unwrite (cs : list Cmd) (key : node_id * string) : option Value :=
  match cs with
  | [] => None
  | c :: cs =>
      if decide (unwrites c = Some key) then Some (undo_value c)
      else first_unwrite cs key
  end.

(** The first condition of the inverse law on the commands [cs] pushed
    on [s]: a property that no command of [cs] writes when it is redone,
    and that the undo of some command writes (the position of a node,
    by a move between equal positions), has in [s] the value the undo of
    the first such command writes. *)
Definition moves_fair (cs : list Cmd) (s : State) : Prop :=
  ∀ key v, last_write cs key = None → first_unwrite cs key = Some v →
           properties s !! key = Some v.

(** The second condition: after the adding of a node the next command
    that adds or removes that node does not add it again. *)
Fixpoint adds_fair (cs : list Cmd) : Prop :=
  match cs with
  | [] => True
  | c :: cs =>
      match c with
      | NodeAddedCmd node _ => first_touch cs node ≠ Some true
      | _ => True
      end ∧ adds_fair cs
  end.

Definition fair_history (cs : list Cmd) (s : State) : Prop :=
  moves_fair cs s ∧ adds_fair cs.

(** The model but for the properties: the same nodes and property bin
    shape, the same ports with the same flags, the same names as often
    in every connection list. *)
Definition frame_sim (t s : State) : Prop :=
  nodes t = nodes s ∧ bin_shape t = bin_shape s ∧ ports_sim t s.

(** A replay state [y] next to the state [x] of the history before the
    commands [rest], when [y] is what the undos of [rest] leave: a node
    is in the mapping as the first command of [rest] about it leaves it out or
    in, the ports are those of [x] and those [rest] writes, the flags
    [rest] does not set are as in [x], and no name is listed less often
    than in [x]. *)
Definition undone (rest : list Cmd) (y x : State) : Prop :=
  bin_shape y = bin_shape x ∧
  (∀ n, n ∈ nodes y ↔
        match first_touch rest n with
        | None => n ∈ nodes x
        | Some true => False
        | Some false => True
        end) ∧
  (∀ P, is_Some (ports y !! P) ↔ is_Some (ports x !! P) ∨ touched rest P) ∧
  (∀ P, ¬ flagged rest P →
        visible (port_model y P) = visible (port_model x P)) ∧
  (∀ P k z, count z (listed x P k) ≤ count z (listed y P k)).

(** Two states on which the redos of [rest] end in the same model but
    for the properties: they differ only in what [rest] writes first. *)
Definition agree (rest : list Cmd) (z y : State) : Prop :=
  bin_shape z = bin_shape y ∧
  (∀ n, first_touch rest n ≠ Some true → (n ∈ nodes z ↔ n ∈ nodes y)) ∧
  (∀ P, ¬ touched rest P → (is_Some (ports z !! P) ↔ is_Some (ports y !! P))) ∧
  (∀ P, ¬ flagged rest P →
        visible (port_model z P) = visible (port_model y P)) ∧
  (∀ P k x, count x (listed z P k) = count x (listed y P k)).

(** What a state keeps when only connection lists change. *)
Definition same_frame (s s' : State) : Prop :=
  nodes s' = nodes s ∧ properties s' = properties s ∧
  prop_bin s' = prop_bin s ∧
  ∀ P, visible (port_model s' P) = visible (port_model s P).

(** The node ["n"] added twice. *)
Definition double_add : list Cmd :=
  [NodeAddedCmd "n" VNone; NodeAddedCmd "n" VNone].

(** The two ports exist, and [out_A] lists another port of ["B"] after
    [in_B]. *)
Definition crowded : State :=
  mkState ∅ ∅
    (<[out_A := mkPortModel true {["B" := ["in"; "aux"]]}]>
       (<[in_B := mkPortModel true {["A" := ["out"]]}]> ∅))
    ∅ ∅ [].

(** A move of ["n"] between equal positions, and a move after it. *)
Definition healed_move : list Cmd :=
  [still_move; NodeMovedCmd "n" (VPos 1 1) (VPos 0 0)].

(** A history in which the conditions hold though hardly a command
    records a change: a move between equal positions of a node that is
    somewhere else, a property change with a stale old value, a move
    with a stale previous position, the adding of a node that is there,
    a connect of ports that list each other, a visibility command with a
    stale flag, the removal of a node with a captured connection. *)
Definition rough_history : list Cmd :=
  [still_move;
   PropertyChangedCmd "n" "pos" (VPos 9 9) (VPos 1 1);
   NodeMovedCmd "n" (VPos 2 2) (VPos 7 7);
   NodeAddedCmd "n" VNone;
   PortConnectedCmd out_A in_B;
   PortConnectedCmd out_A in_B;
   PortDisconnectedCmd in_B out_A;
   PortVisibleCmd out_A false;
   NodeRemovedCmd "n" [(in_B, [out_A])] [(out_A, [in_B])]].

End Histories.

(** ** What the walk of the sort has seen *)

Module SortFrames.
Import Py TopologicalSort.

(** Every end of an edge of an appended node is marked, and a marked
    node is appended or is one of [pend], the nodes whose call of [dfs]
    has not returned. *)
Definition explored (g : gmap node (list node)) (pend : node → Prop)
    (w : Walk) : Prop :=
  (∀ k l e, k ∈ sorted_nodes w → g !! k = Some l → e ∈ l →
            visit w !! e = Some true) ∧
  (∀ k, visit w !! k = Some true → k ∈ sorted_nodes w ∨ pend k).

(** Marks stay and appended nodes stay. *)
Definition grows (w w' : Walk) : Prop :=
  (∀ k, visit w !! k = Some true → visit w' !! k = Some true) ∧
  (∀ k, k ∈ sorted_nodes w → k ∈ sorted_nodes w').

(** What a call of [dfs] that returns has done, on any graph. *)
Definition dfs_explores (g : gmap node (list node)) (f : nat) : Prop :=
  ∀ start w w' (pend : node → Prop),
    dfs f g start w = Done w' →
    explored g (λ k, k = start ∨ pend k) w →
    explored g pend w' ∧ grows w w' ∧
    ∃ S, sorted_nodes w' = S ++ [start].

(** Every edge of the graph goes forward in the sequence. *)
Definition respects (g : gmap node (list node)) (l : list node) : Prop :=
  ∀ u v, edge g u v → precedes u v l.

(** [has a connected input port], [has a connected output port]: some
    port of that side has a connected port, whatever the view draws. *)
Definition has_connected_input (env : Env) (n : node) : bool :=
  existsb (λ p, truthy (port_peers p)) (input_ports (obj env n)).

Definition has_connected_output (env : Env) (n : node) : bool :=
  existsb (λ p, truthy (port_peers p)) (output_ports (obj env n)).

(** The view of the node draws a pipe on exactly the connected ports. *)
Definition pipes_match (env : Env) (n : node) : Prop :=
  ∀ p, p ∈ input_ports (obj env n) ++ output_ports (obj env n) →
       has_pipes p = truthy (port_peers p).

(** The order the specification states, on every DAG built from the
    start nodes. *)
Definition order_claim : Prop :=
  ∀ (env : Env) (start_nodes all_nodes : list node) (fuel : nat)
    (g : gmap node (list node)),
    enough_fuel env start_nodes all_nodes ≤ fuel →
    _build_graph fuel env (roots env start_nodes all_nodes) = Done g →
    acyclic g →
    ∃ l, topological_sort fuel env start_nodes all_nodes = Done l ∧
         respects g l.

(** The degenerate returns the specification states, on connected
    ports. *)
Definition degenerate_claim : Prop :=
  ∀ (fuel : nat) (env : Env),
    (∀ all_nodes,
       (∀ n, n ∈ all_nodes → has_connected_input env n = true) →
       topological_sort fuel env [] all_nodes = Done []) ∧
    (∀ start_nodes all_nodes,
       start_nodes ≠ [] →
       (∀ n, n ∈ start_nodes → has_connected_output env n = false) →
       topological_sort fuel env start_nodes all_nodes = Done start_nodes).

(** A→B connected in the model, with no pipe drawn. *)
Definition nopipe : Env :=
  <["A" := mkNodeObj [] [mkPortObj ["B"] 0]]>
  (<["B" := mkNodeObj [mkPortObj ["A"] 0] []]> ∅).

(** A ring A→B→C→A with an entry node S→A. *)
Definition ring : Env :=
  <["S" := mkNodeObj [] [mkPortObj ["A"] 1]]>
  (<["A" := mkNodeObj [mkPortObj ["S"; "C"] 2] [mkPortObj ["B"] 1]]>
  (<["B" := mkNodeObj [mkPortObj ["A"] 1] [mkPortObj ["C"] 1]]>
  (<["C" := mkNodeObj [mkPortObj ["B"] 1] [mkPortObj ["A"] 1]]> ∅))).

End SortFrames.

(** ** Properties of the port commands *)

Module CommandFacts.
Import Py Commands CommandSpecs.

(** *** Lists *)

Lemma count_nil x : count x [] = 0.
Proof. done. Qed.

Lemma count_cons x y l :
  count x (y :: l) = (if decide (y = x) then 1 else 0) + count x l.
Proof.
  unfold count. destruct (decide (y = x)) as [->|Hne].
  - by rewrite filter_cons_True.
  - by rewrite filter_cons_False.
Qed.

Lemma count_app x l1 l2 : count x (l1 ++ l2) = count x l1 + count x l2.
Proof. unfold count. by rewrite filter_app, length_app. Qed.

Lemma count_snoc x y l :
  count x (l ++ [y]) = count x l + (if decide (y = x) then 1 else 0).
Proof. rewrite count_app, count_cons, count_nil. lia. Qed.

Lemma count_pos x l : x ∈ l ↔ 0 < count x l.
Proof.
  induction l as [|y l IH]; [rewrite elem_of_nil, count_nil; lia|].
  rewrite elem_of_cons, count_cons, IH.
  destruct (decide (y = x)) as [->|Hne].
  - split; [lia|]. intros _. by left.
  - split; [intros [?|?]; [congruence|lia]|]. intros ?. right. lia.
Qed.

Lemma count_zero x l : x ∉ l ↔ count x l = 0.
Proof. rewrite count_pos. lia. Qed.

Lemma remove_first_absent x l : x ∉ l → remove_first x l = l.
Proof.
  induction l as [|y l IH]; [done|]. rewrite not_elem_of_cons.
  intros [Hne Hnin]. simpl. destruct (decide (x = y)); [done|]. by rewrite IH.
Qed.

Lemma list_remove_present x l : x ∈ l → list_remove x l = Ok (remove_first x l).
Proof.
  induction l as [|y l IH]; [by rewrite elem_of_nil|].
  rewrite elem_of_cons. intros Hin. simpl.
  destruct (decide (x = y)); [done|].
  destruct Hin as [|Hin]; [done|]. by rewrite (IH Hin).
Qed.

Lemma list_remove_absent x l : x ∉ l → list_remove x l = Raise ValueError.
Proof.
  induction l as [|y l IH]; [done|]. rewrite not_elem_of_cons.
  intros [Hne Hnin]. simpl. destruct (decide (x = y)); [done|]. by rewrite (IH Hnin).
Qed.

Lemma count_remove_first x y l :
  count x (remove_first y l) =
  if decide (y = x) then pred (count x l) else count x l.
Proof.
  induction l as [|z l IH]; [by destruct (decide (y = x))|].
  simpl. destruct (decide (y = z)) as [->|Hne].
  - rewrite count_cons. destruct (decide (z = x)); simpl; lia.
  - rewrite !count_cons, IH.
    destruct (decide (y = x)), (decide (z = x)); simpl; try lia. congruence.
Qed.

Lemma remove_first_snoc x l : x ∉ l → remove_first x (l ++ [x]) = l.
Proof.
  induction l as [|y l IH]; simpl.
  - intros _. by destruct (decide (x = x)).
  - rewrite not_elem_of_cons. intros [Hne Hnin].
    destruct (decide (x = y)); [done|]. by rewrite IH.
Qed.

Lemma truthy_contains x l : truthy l && contains x l = contains x l.
Proof.
  destruct l; [|done]. simpl. symmetry.
  apply bool_decide_eq_false_2, not_elem_of_nil.
Qed.

(** *** Connection dictionaries *)

(** The test that guards the deletion of a key never succeeds. *)
Lemma py_is_fresh (r : ref Port) : py_is r RefFresh = false.
Proof. by destruct r. Qed.

Lemma append_name_insert k name (d : gmap string (list string)) :
  append_name k name d = <[k := default [] (d !! k) ++ [name]]> d.
Proof.
  unfold append_name, getitem. apply map_eq. intros j.
  destruct (d !! k) as [l|] eqn:Hk; simpl.
  - destruct (decide (k = j)) as [<-|Hne].
    + by rewrite lookup_alter_eq, lookup_insert_eq, Hk.
    + by rewrite lookup_alter_ne, lookup_insert_ne.
  - by rewrite alter_insert_eq.
Qed.

Lemma remove_name_removed owner k name d :
  remove_name owner k name d = Ok (removed k name d).
Proof.
  unfold remove_name, removed. rewrite py_is_fresh. simpl.
  destruct (d !! k) as [l|] eqn:Hk; [|done].
  rewrite truthy_contains. unfold contains. case_bool_decide as Hin.
  - rewrite (list_remove_present _ _ Hin). simpl. f_equal.
    apply map_eq. intros j. destruct (decide (k = j)) as [<-|Hne].
    + by rewrite lookup_alter_eq, lookup_insert_eq, Hk.
    + by rewrite lookup_alter_ne, lookup_insert_ne.
  - rewrite (remove_first_absent _ _ Hin). by rewrite insert_id.
Qed.

Lemma removed_lookup k name d j :
  removed k name d !! j =
  if decide (k = j) then remove_first name <$> d !! j else d !! j.
Proof.
  unfold removed. destruct (decide (k = j)) as [<-|Hne].
  - destruct (d !! k) eqn:Hk; [by rewrite lookup_insert_eq|by rewrite Hk].
  - destruct (d !! k); [by rewrite lookup_insert_ne|done].
Qed.

Lemma removed_keys k name d j : is_Some (removed k name d !! j) ↔ is_Some (d !! j).
Proof. rewrite removed_lookup. case_decide; [|done]. by rewrite fmap_is_Some. Qed.

(** *** States *)

Lemma conns_set_conns P d s P' :
  conns (set_conns P d s) P' = if decide (P = P') then d else conns s P'.
Proof.
  unfold conns, port_model, set_conns. simpl.
  destruct (decide (P = P')) as [<-|Hne].
  - by rewrite lookup_insert_eq.
  - by rewrite lookup_insert_ne.
Qed.

Lemma visible_set_conns P d s P' :
  visible (port_model (set_conns P d s) P') = visible (port_model s P').
Proof.
  unfold port_model, set_conns. simpl.
  destruct (decide (P = P')) as [<-|Hne].
  - by rewrite lookup_insert_eq.
  - by rewrite lookup_insert_ne.
Qed.

Lemma conns_call c s P : conns (call c s) P = conns s P.
Proof. done. Qed.

Lemma listed_call c s P k : listed (call c s) P k = listed s P k.
Proof. done. Qed.

Lemma listed_append P k name s P' k' :
  listed (set_conns P (append_name k name (conns s P)) s) P' k' =
  if decide (P = P' ∧ k = k') then listed s P' k' ++ [name] else listed s P' k'.
Proof.
  unfold listed. rewrite conns_set_conns, append_name_insert.
  destruct (decide (P = P')) as [<-|HP].
  - destruct (decide (k = k')) as [<-|Hk].
    + rewrite lookup_insert_eq. by rewrite decide_True.
    + rewrite lookup_insert_ne by done. by rewrite decide_False by (by intros [??]).
  - by rewrite decide_False by (by intros [??]).
Qed.

Lemma listed_removed P k name s P' k' :
  listed (set_conns P (removed k name (conns s P)) s) P' k' =
  if decide (P = P' ∧ k = k') then remove_first name (listed s P' k')
  else listed s P' k'.
Proof.
  unfold listed. rewrite conns_set_conns.
  destruct (decide (P = P')) as [<-|HP].
  - rewrite removed_lookup. destruct (decide (k = k')) as [<-|Hk].
    + rewrite decide_True by done. by destruct (conns s P !! k).
    + by rewrite decide_False by (by intros [??]).
  - by rewrite decide_False by (by intros [??]).
Qed.

(** The two transformations, without the monad. *)
Lemma connect_eq source target s :
  PortConnectedCmd_redo source target s = Ok (connect_state source target s).
Proof. done. Qed.

Lemma disconnect_eq source target s :
  PortConnectedCmd_undo source target s = Ok (disconnect_state source target s).
Proof.
  unfold PortConnectedCmd_undo, disconnect_state.
  rewrite remove_name_removed. simpl. by rewrite remove_name_removed.
Qed.

Lemma undo_disconnect_eq source target s :
  PortDisconnectedCmd_undo source target s = Ok (connect_state source target s).
Proof. done. Qed.

Lemma redo_disconnect_eq source target s :
  PortDisconnectedCmd_redo source target s = Ok (disconnect_state source target s).
Proof. apply disconnect_eq. Qed.

Lemma listed_connect source target s P k :
  listed (connect_state source target s) P k =
  (if decide (source = P ∧ port_node target = k)
   then listed s P k ++ [port_name target] else listed s P k)
  ++ (if decide (target = P ∧ port_node source = k)
      then [port_name source] else []).
Proof.
  unfold connect_state. rewrite listed_call, listed_append, listed_append.
  case_decide; [done|]. by rewrite app_nil_r.
Qed.

Lemma listed_disconnect source target s P k :
  listed (disconnect_state source target s) P k =
  let l := if decide (source = P ∧ port_node target = k)
           then remove_first (port_name target) (listed s P k)
           else listed s P k in
  if decide (target = P ∧ port_node source = k)
  then remove_first (port_name source) l else l.
Proof.
  unfold disconnect_state. by rewrite listed_call, listed_removed, listed_removed.
Qed.

Lemma port_model_set_conns_ne P d s P' :
  P ≠ P' → port_model (set_conns P d s) P' = port_model s P'.
Proof. intros Hne. unfold port_model, set_conns. simpl. by rewrite lookup_insert_ne. Qed.

Lemma conns_disconnect source target s P :
  conns (disconnect_state source target s) P =
  let d := if decide (source = P)
           then removed (port_node target) (port_name target) (conns s P)
           else conns s P in
  if decide (target = P)
  then removed (port_node source) (port_name source) d else d.
Proof.
  unfold disconnect_state. rewrite conns_call, conns_set_conns. cbv zeta.
  destruct (decide (target = P)) as [<-|Ht];
    rewrite conns_set_conns; case_decide; by subst.
Qed.

(** No key of a connection set goes away in a disconnect. *)
Lemma disconnect_keys source target s P k :
  is_Some (conns (disconnect_state source target s) P !! k) ↔
  is_Some (conns s P !! k).
Proof.
  rewrite conns_disconnect. simpl.
  destruct (decide (target = P)), (decide (source = P));
    by rewrite ?removed_keys.
Qed.

Lemma removed_absent k name (d : gmap string (list string)) :
  name ∉ default [] (d !! k) → removed k name d = d.
Proof.
  unfold removed. destruct (d !! k) as [l|] eqn:Hk; [|done]. simpl.
  intros Hnin. rewrite remove_first_absent by done. by apply insert_id.
Qed.

Lemma repeat_connect n source target s :
  source ≠ target →
  ∃ s', repeat_cmd n (PortConnectedCmd_redo source target) s = Ok s' ∧
    ∀ P k, listed s' P k =
      listed s P k ++
      (if decide (source = P ∧ port_node target = k)
       then replicate n (port_name target) else [])
      ++ (if decide (target = P ∧ port_node source = k)
          then replicate n (port_name source) else []).
Proof.
  intros Hne. revert s. induction n as [|n IH]; intros s.
  - exists s. split; [done|]. intros P k.
    repeat case_decide; by rewrite ?app_nil_r.
  - destruct (IH (connect_state source target s)) as (s' & Hs' & Hl).
    exists s'. split; [exact Hs'|].
    intros P k. rewrite Hl, listed_connect.
    destruct (decide (source = P ∧ port_node target = k)) as [[? ?]|];
      destruct (decide (target = P ∧ port_node source = k)) as [[? ?]|];
      simplify_eq; rewrite ?app_nil_r; try done; by rewrite <-app_assoc.
Qed.

Lemma port_model_set_conns_id P s P' :
  port_model (set_conns P (conns s P) s) P' = port_model s P'.
Proof.
  destruct (decide (P = P')) as [<-|Hne]; [|by apply port_model_set_conns_ne].
  unfold set_conns, conns, port_model. simpl. rewrite lookup_insert_eq. simpl.
  by destruct (default new_port (ports s !! P)).
Qed.

Lemma port_eq (P Q : Port) :
  port_node P = port_node Q → port_dir P = port_dir Q →
  port_name P = port_name Q → P = Q.
Proof. destruct P, Q. simpl. by intros -> -> ->. Qed.

(** A name under a node id is one port of the other direction. *)
Lemma peer_unique (P Q S T : Port) :
  port_dir P ≠ port_dir Q → port_dir S ≠ port_dir T →
  (S = P ∧ port_node T = port_node Q ∧ port_name T = port_name Q) ↔
  (S = P ∧ T = Q).
Proof.
  intros HPQ HST. split; [|by intros [-> ->]].
  intros (-> & Hn & Hm). split; [done|]. apply port_eq; [done| |done].
  destruct (port_dir P), (port_dir Q), (port_dir T); done.
Qed.

Lemma count_listed_connect source target s P k x :
  count x (listed (connect_state source target s) P k) =
  count x (listed s P k)
  + (if decide (source = P ∧ port_node target = k ∧ port_name target = x)
     then 1 else 0)
  + (if decide (target = P ∧ port_node source = k ∧ port_name source = x)
     then 1 else 0).
Proof.
  rewrite listed_connect, count_app.
  assert (∀ (A B C : Prop) `{Decision A, Decision B, Decision C} (a b : nat),
    (if decide (A ∧ B) then (if decide C then a else b) else b) =
    (if decide (A ∧ B ∧ C) then a else b)) as Hif.
  { intros. repeat case_decide; naive_solver. }
  f_equal.
  - rewrite <-Hif. case_decide; [|by rewrite Nat.add_0_r]. by rewrite count_snoc.
  - rewrite <-Hif. case_decide; [|done]. rewrite count_cons, count_nil. lia.
Qed.

Lemma count_listed_disconnect source target s P k x :
  count x (listed (disconnect_state source target s) P k) =
  count x (listed s P k)
  - (if decide (source = P ∧ port_node target = k ∧ port_name target = x)
     then 1 else 0)
  - (if decide (target = P ∧ port_node source = k ∧ port_name source = x)
     then 1 else 0).
Proof.
  rewrite listed_disconnect. cbv zeta.
  assert (∀ y l, count x (remove_first y l) =
            count x l - (if decide (y = x) then 1 else 0)) as Hc.
  { intros y l. rewrite count_remove_first. case_decide; lia. }
  destruct (decide (source = P ∧ port_node target = k)) as [[? ?]|H1];
    destruct (decide (target = P ∧ port_node source = k)) as [[? ?]|H2];
    rewrite ?Hc; repeat case_decide; naive_solver lia.
Qed.

Lemma balanced_INV1_opposite s : balanced s → INV1_opposite s.
Proof. intros Hb P Q Hd. rewrite !count_pos. by rewrite (Hb P Q Hd). Qed.

Lemma balanced_connect source target s :
  port_dir source ≠ port_dir target → balanced s →
  balanced (connect_state source target s).
Proof.
  intros Hst Hb P Q HPQ. rewrite !count_listed_connect, (Hb P Q HPQ).
  rewrite (decide_ext _ _ _ _ (peer_unique P Q source target HPQ Hst)).
  rewrite (decide_ext (target = P ∧ _) _ _ _
             (peer_unique P Q target source HPQ (not_eq_sym Hst))).
  rewrite (decide_ext (source = Q ∧ _) _ _ _
             (peer_unique Q P source target (not_eq_sym HPQ) Hst)).
  rewrite (decide_ext (target = Q ∧ _) _ _ _
             (peer_unique Q P target source (not_eq_sym HPQ) (not_eq_sym Hst))).
  repeat case_decide; naive_solver lia.
Qed.

Lemma balanced_disconnect source target s :
  port_dir source ≠ port_dir target → balanced s →
  balanced (disconnect_state source target s).
Proof.
  intros Hst Hb P Q HPQ. rewrite !count_listed_disconnect, (Hb P Q HPQ).
  rewrite (decide_ext _ _ _ _ (peer_unique P Q source target HPQ Hst)).
  rewrite (decide_ext (target = P ∧ _) _ _ _
             (peer_unique P Q target source HPQ (not_eq_sym Hst))).
  rewrite (decide_ext (source = Q ∧ _) _ _ _
             (peer_unique Q P source target (not_eq_sym HPQ) Hst)).
  rewrite (decide_ext (target = Q ∧ _) _ _ _
             (peer_unique Q P target source (not_eq_sym HPQ) (not_eq_sym Hst))).
  repeat case_decide; naive_solver lia.
Qed.

Lemma port_model_ext (a b : PortModel) :
  visible a = visible b → connected_ports a = connected_ports b → a = b.
Proof. destruct a, b. simpl. by intros -> ->. Qed.

Lemma visible_disconnect source target s P :
  visible (port_model (disconnect_state source target s) P) =
  visible (port_model s P).
Proof.
  unfold disconnect_state.
  change (port_model (call ?c ?s) P) with (port_model s P).
  by rewrite !visible_set_conns.
Qed.

Lemma visible_connect source target s P :
  visible (port_model (connect_state source target s) P) =
  visible (port_model s P).
Proof.
  unfold connect_state.
  change (port_model (call ?c ?s) P) with (port_model s P).
  by rewrite !visible_set_conns.
Qed.

End CommandFacts.

(** ** Connection lists under appends and removals *)

Module OpFacts.
Import Py Commands CommandSpecs CommandFacts.

Lemma filter_agree {A} (P Q : A → Prop) `{∀ x, Decision (P x)}
    `{∀ x, Decision (Q x)} (l : list A) :
  (∀ x, x ∈ l → (P x ↔ Q x)) → filter P l = filter Q l.
Proof.
  induction l as [|y l IH]; intros Hl; [done|].
  assert (filter P l = filter Q l) as Hrec
    by (apply IH; intros x Hx; apply Hl; by right).
  destruct (decide (P y)) as [Hy|Hy].
  - rewrite !filter_cons_True, Hrec; [done| |done]. apply Hl; [by left|done].
  - rewrite !filter_cons_False, Hrec; [done| |done].
    intros HQ. apply Hy, Hl; [by left|done].
Qed.

Lemma filter_all {A} (P : A → Prop) `{∀ x, Decision (P x)} (l : list A) :
  (∀ x, x ∈ l → P x) → filter P l = l.
Proof.
  induction l as [|y l IH]; intros Hl; [done|].
  rewrite filter_cons_True by (apply Hl; by left).
  f_equal. apply IH. intros x Hx. apply Hl. by right.
Qed.

Lemma filter_remove_first (P : string → Prop) `{∀ x, Decision (P x)} z l :
  ¬ P z → filter P (remove_first z l) = filter P l.
Proof.
  intros Hz. induction l as [|y l IH]; [done|]. simpl.
  destruct (decide (z = y)) as [<-|Hne]; [by rewrite filter_cons_False|].
  destruct (decide (P y)).
  - by rewrite !filter_cons_True, IH.
  - by rewrite !filter_cons_False, IH.
Qed.

Lemma remove_first_app_l z B E :
  z ∈ B → remove_first z (B ++ E) = remove_first z B ++ E.
Proof.
  induction B as [|y B IH]; [by intros ?%elem_of_nil|].
  intros Hin. simpl. destruct (decide (z = y)); [done|].
  apply elem_of_cons in Hin as [?|Hin]; [done|]. by rewrite IH.
Qed.

Lemma remove_first_app_r z B E :
  z ∉ B → remove_first z (B ++ E) = B ++ remove_first z E.
Proof.
  induction B as [|y B IH]; [done|]. rewrite not_elem_of_cons.
  intros [Hne Hnin]. simpl. destruct (decide (z = y)); [done|]. by rewrite IH.
Qed.

Lemma count_do_op x o l :
  count x (do_op o l) =
  match o with
  | App z => count x l + (if decide (z = x) then 1 else 0)
  | Rem z => if decide (z = x) then pred (count x l) else count x l
  | Skip => count x l
  end.
Proof.
  destruct o as [z|z|]; simpl; [apply count_snoc|apply count_remove_first|done].
Qed.

Lemma count_do_op_agree o a b :
  (∀ x, count x a = count x b) →
  ∀ x, count x (do_op o a) = count x (do_op o b).
Proof. intros Hab x. rewrite !count_do_op. rewrite !Hab. done. Qed.

Lemma op_valid_agree o a b :
  (∀ x, count x a = count x b) → op_valid o a → op_valid o b.
Proof. intros Hab. destruct o; simpl; by rewrite ?Hab. Qed.

Lemma ops_valid_agree ops a b :
  (∀ x, count x a = count x b) → ops_valid ops a → ops_valid ops b.
Proof.
  revert a b. induction ops as [|o ops IH]; intros a b Hab; [done|].
  simpl. intros [Ho Hops]. split; [by eapply op_valid_agree|].
  eapply IH; [|done]. by apply count_do_op_agree.
Qed.

Lemma exec_cons o ops l : exec (o :: ops) l = exec ops (do_op o l).
Proof. done. Qed.

Lemma exec_snoc o ops l : exec (ops ++ [o]) l = do_op o (exec ops l).
Proof. unfold exec. by rewrite foldl_app. Qed.

Lemma op_names_cons o ops : op_names (o :: ops) = op_name o ++ op_names ops.
Proof. done. Qed.

(** Valid operations leave, of the list they start on, the names they
    are not about, in their places; what comes after does not depend on
    that list. *)
Lemma exec_normal ops B E :
  ops_valid ops (B ++ E) →
  exec ops (B ++ E) = filter (λ x, x ∉ op_names ops) B ++ exec ops E.
Proof.
  revert B E. induction ops as [|o ops IH]; intros B E.
  { intros _. simpl. f_equal. symmetry. apply filter_all.
    intros x _. apply not_elem_of_nil. }
  rewrite !exec_cons, op_names_cons. intros [Ho Hops].
  destruct o as [z|z|]; simpl in *.
  - rewrite <-app_assoc in Hops |- *. rewrite (IH _ _ Hops). f_equal.
    apply filter_agree. intros x Hx. rewrite not_elem_of_cons.
    split; [|by intros [_ ?]]. intros Hn. split; [|done].
    intros ->. apply count_pos in Hx. rewrite count_app in Ho. lia.
  - rewrite count_app in Ho. destruct (decide (z ∈ B)) as [Hin|Hnin].
    + rewrite remove_first_app_l in Hops |- * by done.
      rewrite (IH _ _ Hops).
      pose proof (proj1 (count_pos _ _) Hin) as HB.
      assert (count z E = 0) as HE by lia.
      rewrite (remove_first_absent z E) by by apply count_zero.
      f_equal. rewrite <-(filter_remove_first (λ x, x ∉ z :: op_names ops) z B)
        by (intros Hn; apply Hn; by left).
      apply filter_agree. intros x Hx. rewrite not_elem_of_cons.
      split; [intros Hn; split; [|done]|by intros [_ ?]].
      intros ->. apply count_pos in Hx. rewrite count_remove_first in Hx.
      destruct (decide (z = z)); [|done]. lia.
    + rewrite remove_first_app_r in Hops |- * by done.
      rewrite (IH _ _ Hops). f_equal.
      apply filter_agree. intros x Hx. rewrite not_elem_of_cons.
      split; [intros Hn; split; [|done]|by intros [_ ?]].
      by intros ->.
  - by apply IH.
Qed.

(** Operations about names of [N] leave the other names in their
    places. *)
Lemma filter_do_op (N : list string) o l :
  (∀ z, z ∈ op_name o → z ∈ N) →
  filter (λ x, x ∉ N) (do_op o l) = filter (λ x, x ∉ N) l.
Proof.
  intros HN. destruct o as [z|z|]; simpl in *.
  - rewrite filter_app, filter_cons_False, filter_nil, app_nil_r; [done|].
    intros Hn. apply Hn, HN. by left.
  - apply filter_remove_first. intros Hn. apply Hn, HN. by left.
  - done.
Qed.

(** The law on one list: after valid operations and any operations that
    leave the other names in their places and every name as often as it
    was before, the same operations give the same list again. *)
Lemma exec_again ops L U :
  ops_valid ops L →
  (∀ x, count x U = count x L) →
  filter (λ x, x ∉ op_names ops) U = filter (λ x, x ∉ op_names ops) L →
  exec ops U = exec ops L.
Proof.
  intros Hvalid Hcount Hfilter.
  rewrite <-(app_nil_r U), <-(app_nil_r L).
  rewrite !exec_normal; [by rewrite Hfilter| |].
  - by rewrite app_nil_r.
  - rewrite app_nil_r. eapply ops_valid_agree; [|done]. by intros x.
Qed.

End OpFacts.

(** ** The commands on a state of the replay *)

Module LawFacts.
Import Py Commands CommandSpecs CommandFacts OpFacts.

Lemma sim_refl s : sim s s.
Proof. by repeat split. Qed.

Lemma sim_trans a b c : sim a b → sim b c → sim a c.
Proof.
  intros [(Hn1 & Hp1 & Hb1) (He1 & Hv1 & Hc1)] [(Hn2 & Hp2 & Hb2) (He2 & Hv2 & Hc2)].
  split; [split; [|split]; congruence|]. split; [|split].
  - intros P. by rewrite He1.
  - intros P. by rewrite Hv1.
  - intros P k x. by rewrite Hc1.
Qed.

(** *** What the building blocks do to the ports *)

Lemma ports_set_conns_is_Some P d s P' :
  is_Some (ports (set_conns P d s) !! P') ↔ P = P' ∨ is_Some (ports s !! P').
Proof.
  unfold set_conns. simpl. destruct (decide (P = P')) as [<-|Hne].
  - rewrite lookup_insert_eq. split; [by left|by eexists].
  - rewrite lookup_insert_ne by done. naive_solver.
Qed.

Lemma ports_connect_is_Some source target s P :
  is_Some (ports (connect_state source target s) !! P) ↔
  P = source ∨ P = target ∨ is_Some (ports s !! P).
Proof.
  unfold connect_state.
  change (ports (call ?c ?s)) with (ports s).
  rewrite !ports_set_conns_is_Some. naive_solver.
Qed.

Lemma ports_disconnect_is_Some source target s P :
  is_Some (ports (disconnect_state source target s) !! P) ↔
  P = source ∨ P = target ∨ is_Some (ports s !! P).
Proof.
  unfold disconnect_state.
  change (ports (call ?c ?s)) with (ports s).
  rewrite !ports_set_conns_is_Some. naive_solver.
Qed.

Lemma ports_sim_connect source target t s :
  ports_sim t s →
  ports_sim (connect_state source target t) (connect_state source target s).
Proof.
  intros (He & Hv & Hc). split; [|split].
  - intros P. rewrite !ports_connect_is_Some, He. done.
  - intros P. by rewrite !visible_connect.
  - intros P k x. by rewrite !count_listed_connect, Hc.
Qed.

Lemma ports_sim_disconnect source target t s :
  ports_sim t s →
  ports_sim (disconnect_state source target t) (disconnect_state source target s).
Proof.
  intros (He & Hv & Hc). split; [|split].
  - intros P. rewrite !ports_disconnect_is_Some, He. done.
  - intros P. by rewrite !visible_disconnect.
  - intros P k x. by rewrite !count_listed_disconnect, Hc.
Qed.

Lemma conns_set_port_visible P b s P' :
  conns (set_port_visible P b s) P' = conns s P'.
Proof.
  unfold conns, port_model, set_port_visible. simpl.
  destruct (decide (P = P')) as [<-|Hne].
  - by rewrite lookup_insert_eq.
  - by rewrite lookup_insert_ne.
Qed.

Lemma visible_set_port_visible P b s P' :
  visible (port_model (set_port_visible P b s) P') =
  if decide (P = P') then b else visible (port_model s P').
Proof.
  unfold port_model, set_port_visible. simpl.
  destruct (decide (P = P')) as [<-|Hne].
  - by rewrite lookup_insert_eq.
  - by rewrite lookup_insert_ne.
Qed.

Lemma ports_set_port_visible_is_Some P b s P' :
  is_Some (ports (set_port_visible P b s) !! P') ↔ P = P' ∨ is_Some (ports s !! P').
Proof.
  unfold set_port_visible. simpl. destruct (decide (P = P')) as [<-|Hne].
  - rewrite lookup_insert_eq. split; [by left|by eexists].
  - rewrite lookup_insert_ne by done. naive_solver.
Qed.

Lemma listed_set_visible P b s P' k :
  listed (set_visible P b s) P' k = listed s P' k.
Proof.
  unfold listed, set_visible.
  destruct (port_dir P); change (conns (call ?c ?s)) with (conns s);
    change (conns (call ?c ?s)) with (conns s);
    change (conns (call ?c ?s)) with (conns s);
    by rewrite conns_set_port_visible.
Qed.

Lemma conns_set_visible P b s P' : conns (set_visible P b s) P' = conns s P'.
Proof.
  unfold set_visible.
  destruct (port_dir P); change (conns (call ?c ?s)) with (conns s);
    change (conns (call ?c ?s)) with (conns s);
    change (conns (call ?c ?s)) with (conns s);
    by rewrite conns_set_port_visible.
Qed.

Lemma ports_set_visible P b s : ports (set_visible P b s) = ports (set_port_visible P b s).
Proof. unfold set_visible. by destruct (port_dir P). Qed.

Lemma ports_sim_set_visible P b t s :
  ports_sim t s → ports_sim (set_visible P b t) (set_visible P b s).
Proof.
  intros (He & Hv & Hc). split; [|split].
  - intros P'. rewrite !ports_set_visible, !ports_set_port_visible_is_Some, He. done.
  - intros P'. unfold port_model. rewrite !ports_set_visible.
    fold (port_model (set_port_visible P b t) P').
    fold (port_model (set_port_visible P b s) P').
    rewrite !visible_set_port_visible. case_decide; [done|apply Hv].
  - intros P' k x. by rewrite !listed_set_visible.
Qed.

Lemma rest_sim_set_visible P b t s :
  rest_sim t s → rest_sim (set_visible P b t) (set_visible P b s).
Proof. unfold rest_sim, bin_shape, set_visible. by destruct (port_dir P). Qed.

(** A state that differs from another in what is drawn only. *)
Lemma ports_sim_same t t' s s' :
  ports t' = ports t → ports s' = ports s → ports_sim t s → ports_sim t' s'.
Proof.
  intros Ht Hs (He & Hv & Hc). unfold ports_sim, listed, conns, port_model.
  rewrite Ht, Hs. done.
Qed.

(** *** The property bin *)

Lemma bin_shape_lookup t s n :
  bin_shape t = bin_shape s →
  dom <$> (prop_bin t !! n) = (dom <$> (prop_bin s !! n) : option (gset string)).
Proof. unfold bin_shape. intros H. by rewrite <-!lookup_fmap, H. Qed.

Lemma bin_shape_set s n name v w :
  prop_bin s !! n = Some w → is_Some (w !! name) →
  bin_shape (set_prop_bin (<[n := <[name := v]> w]> (prop_bin s)) s) = bin_shape s.
Proof.
  intros Hn Hw. unfold bin_shape. simpl. rewrite fmap_insert.
  rewrite dom_insert_lookup_L by done. apply insert_id.
  by rewrite lookup_fmap, Hn.
Qed.

(** Whether [update_prop_bin] returns depends on the shape of the bin
    only, and it leaves the shape and the model as they are. *)
Lemma update_prop_bin_shape n name v s s' :
  update_prop_bin n name v s = Ok s' →
  bin_shape s' = bin_shape s ∧ nodes s' = nodes s ∧
  properties s' = properties s ∧ ports s' = ports s.
Proof.
  unfold update_prop_bin. destruct (prop_bin s !! n) as [w|] eqn:Hn.
  - destruct (w !! name) as [cur|] eqn:Hw; [|done].
    destruct (py_ne cur v); intros [= <-]; [|done].
    split; [|done].
    change (bin_shape (call ?c ?s)) with (bin_shape s).
    by apply bin_shape_set.
  - by intros [= <-].
Qed.

Lemma update_prop_bin_returns n name v v' s s' t :
  update_prop_bin n name v s = Ok s' → bin_shape t = bin_shape s →
  ∃ t', update_prop_bin n name v' t = Ok t'.
Proof.
  intros Hs Hshape. pose proof (bin_shape_lookup t s n Hshape) as Hl.
  unfold update_prop_bin in *.
  destruct (prop_bin s !! n) as [w|] eqn:Hn; simpl in Hl.
  - destruct (prop_bin t !! n) as [w'|]; [|done]. simpl in Hl.
    injection Hl as Hdom.
    destruct (w !! name) as [cur|] eqn:Hw; [|done].
    assert (is_Some (w' !! name)) as [cur' ->].
    { apply elem_of_dom. rewrite Hdom. apply elem_of_dom. by eexists. }
    destruct (py_ne cur' v'); by eexists.
  - destruct (prop_bin t !! n); [by inversion Hl|]. by eexists.
Qed.

Lemma sim_update_prop_bin n name v v' t s t' s' :
  update_prop_bin n name v t = Ok t' → update_prop_bin n name v' s = Ok s' →
  sim t s → sim t' s'.
Proof.
  intros Ht Hs [(Hn & Hp & Hb) Hports].
  destruct (update_prop_bin_shape _ _ _ _ _ Ht) as (Hb1 & Hn1 & Hp1 & Hq1).
  destruct (update_prop_bin_shape _ _ _ _ _ Hs) as (Hb2 & Hn2 & Hp2 & Hq2).
  split; [split; [|split]; congruence|]. by eapply ports_sim_same.
Qed.

(** *** Redo and undo on a state of the replay *)

Lemma for_each_port_empty f caps s :
  (∀ pc : Port * list Port, pc ∈ caps → pc.2 = []) → for_each_port f caps s = Ok s.
Proof.
  induction caps as [|[port connected] caps IH]; intros Hcaps; [done|].
  simpl. assert (connected = []) as -> by (apply (Hcaps (port, connected)); by left).
  simpl. apply IH. intros pc Hpc. apply Hcaps. by right.
Qed.

Lemma node_removed_redo node inputs outputs s :
  wf_cmd (NodeRemovedCmd node inputs outputs) →
  NodeRemovedCmd_redo node inputs outputs s =
  s ← nodes_pop node s; Ok (call (view_delete node) s).
Proof.
  intros Hwf. unfold NodeRemovedCmd_redo.
  rewrite for_each_port_empty by (intros pc Hpc; apply Hwf, elem_of_app; by left).
  simpl.
  by rewrite for_each_port_empty by (intros pc Hpc; apply Hwf, elem_of_app; by right).
Qed.

Lemma node_removed_undo node inputs outputs s :
  wf_cmd (NodeRemovedCmd node inputs outputs) →
  NodeRemovedCmd_undo node inputs outputs s =
  Ok (call (scene_addItem node) (nodes_setitem node s)).
Proof.
  intros Hwf. unfold NodeRemovedCmd_undo.
  rewrite for_each_port_empty by (intros pc Hpc; apply Hwf, elem_of_app; by left).
  simpl.
  by rewrite for_each_port_empty by (intros pc Hpc; apply Hwf, elem_of_app; by right).
Qed.

Lemma sim_set_node_prop node name v t s :
  sim t s → sim (set_node_prop node name v t) (set_node_prop node name v s).
Proof.
  intros [(Hn & Hp & Hb) Hports]. split; [|by eapply ports_sim_same].
  split; [done|]. split; [|done]. simpl. by rewrite ?Hp.
Qed.

Lemma sim_set_pos node v t s :
  sim t s →
  sim (set_model_pos node v (set_xy_pos node v t))
      (set_model_pos node v (set_xy_pos node v s)).
Proof.
  intros [(Hn & Hp & Hb) Hports]. split; [|by eapply ports_sim_same].
  split; [done|]. split; [|done]. simpl. by rewrite ?Hp.
Qed.

Lemma cmd_sim_inv c c' :
  cmd_sim c c' →
  match c with
  | NodeAddedCmd node _ => ∃ pos, c' = NodeAddedCmd node pos
  | _ => c' = c
  end.
Proof. destruct c, c'; simpl; try done; try congruence. intros ->. by eexists. Qed.

Lemma cmd_sim_refl c : cmd_sim c c.
Proof. by destruct c. Qed.

Lemma redo_sim c c' t s s' :
  wf_cmd c → cmd_sim c c' → sim t s → redo c s = Ok s' →
  ∃ t', redo c' t = Ok t' ∧ sim t' s'.
Proof.
  intros Hwf Hcc%cmd_sim_inv Hsim Hredo.
  destruct c as [node name old_val new_val|node pos prev_pos|node pos
                |node inputs outputs|source target|source target|port vis];
    try subst c'; simpl in Hredo |- *.
  - unfold PropertyChangedCmd_redo in *. destruct (py_ne old_val new_val).
    + pose proof (sim_set_node_prop node name new_val _ _ Hsim) as Hsim'.
      destruct (update_prop_bin_returns _ _ _ new_val _ _
                  (set_node_prop node name new_val t) Hredo) as [t' Ht'].
      { by destruct Hsim' as [(_ & _ & ?) _]. }
      exists t'. split; [exact Ht'|]. by eapply sim_update_prop_bin.
    + injection Hredo as <-. by exists t.
  - unfold NodeMovedCmd_redo in *. case_bool_decide.
    + injection Hredo as <-. by exists t.
    + injection Hredo as <-. eexists. split; [done|]. by apply sim_set_pos.
  - destruct Hcc as [pos' ->].
    simpl. unfold NodeAddedCmd_redo in *. injection Hredo as <-.
    eexists. split; [done|].
    destruct Hsim as [(Hn & Hp & Hb) Hports].
    split; [|by eapply ports_sim_same]. split; [|done]. simpl. by rewrite ?Hn.
  - rewrite node_removed_redo in Hredo |- * by done.
    unfold nodes_pop in *. destruct Hsim as [(Hn & Hp & Hb) Hports].
    rewrite Hn. case_bool_decide; [|done]. simpl in *. injection Hredo as <-.
    eexists. split; [done|].
    split; [|by eapply ports_sim_same]. split; [|done]. simpl. by rewrite ?Hn.
  - rewrite connect_eq in Hredo |- *. injection Hredo as <-.
    eexists. split; [done|]. destruct Hsim as [Hrest Hports].
    split; [done|]. by apply ports_sim_connect.
  - rewrite redo_disconnect_eq in Hredo |- *. injection Hredo as <-.
    eexists. split; [done|]. destruct Hsim as [Hrest Hports].
    split; [done|]. by apply ports_sim_disconnect.
  - unfold PortVisibleCmd_redo in *. injection Hredo as <-.
    eexists. split; [done|]. destruct Hsim as [Hrest Hports].
    split; [by apply rest_sim_set_visible|]. by apply ports_sim_set_visible.
Qed.

Lemma undo_sim c t s c1 s1 :
  wf_cmd c → sim t s → undo c s = Ok (c1, s1) →
  ∃ c2 t1, undo c t = Ok (c2, t1) ∧ sim t1 s1 ∧ cmd_sim c c2 ∧ wf_cmd c2.
Proof.
  intros Hwf Hsim Hundo.
  destruct c as [node name old_val new_val|node pos prev_pos|node pos
                |node inputs outputs|source target|source target|port vis];
    cbn [undo] in Hundo |- *.
  - unfold PropertyChangedCmd_undo in *. destruct (py_ne old_val new_val).
    + pose proof (sim_set_node_prop node name old_val _ _ Hsim) as Hsim'.
      destruct (update_prop_bin _ _ _ (set_node_prop _ _ _ s)) as [s2|] eqn:Hs2;
        [|done]. simpl in Hundo. injection Hundo as <- <-.
      destruct (update_prop_bin_returns _ _ _ old_val _ _
                  (set_node_prop node name old_val t) Hs2) as [t' Ht'].
      { by destruct Hsim' as [(_ & _ & ?) _]. }
      rewrite Ht'. simpl. eexists _, t'. split; [done|].
      split; [by eapply sim_update_prop_bin|done].
    + simpl in *. injection Hundo as <- <-. by eexists _, t.
  - unfold NodeMovedCmd_undo in *. simpl in *. injection Hundo as <- <-.
    eexists _, _. split; [done|]. split; [by apply sim_set_pos|done].
  - unfold NodeAddedCmd_undo, nodes_pop in *.
    destruct Hsim as [(Hn & Hp & Hb) Hports].
    rewrite Hn. case_bool_decide; [|done]. simpl in *. injection Hundo as <- <-.
    eexists _, _. split; [done|]. split; [|done].
    split; [|by eapply ports_sim_same]. split; [|done]. simpl. by rewrite ?Hn.
  - rewrite node_removed_undo in Hundo |- * by done. simpl in *.
    injection Hundo as <- <-. eexists _, _. split; [done|]. split; [|done].
    destruct Hsim as [(Hn & Hp & Hb) Hports].
    split; [|by eapply ports_sim_same]. split; [|done]. simpl. by rewrite ?Hn.
  - rewrite disconnect_eq in Hundo |- *. simpl in *. injection Hundo as <- <-.
    eexists _, _. split; [done|]. split; [|done].
    destruct Hsim as [Hrest Hports]. split; [done|]. by apply ports_sim_disconnect.
  - rewrite undo_disconnect_eq in Hundo |- *. simpl in *. injection Hundo as <- <-.
    eexists _, _. split; [done|]. split; [|done].
    destruct Hsim as [Hrest Hports]. split; [done|]. by apply ports_sim_connect.
  - unfold PortVisibleCmd_undo in *. simpl in *. injection Hundo as <- <-.
    eexists _, _. split; [done|]. split; [|done].
    destruct Hsim as [Hrest Hports].
    split; [by apply rest_sim_set_visible|]. by apply ports_sim_set_visible.
Qed.

Lemma recorded_wf c s : recorded c s → wf_cmd c.
Proof. by intros [? _]. Qed.

Lemma dir_ne (P Q : Port) : port_dir P ≠ port_dir Q → P ≠ Q.
Proof. by intros Hd ->. Qed.

(** The undo of a recorded command, right after its redo, gives back a
    state that stands for the one before. *)
Lemma undo_after_redo c s s' :
  recorded c s → redo c s = Ok s' →
  ∃ c1 s1, undo c s' = Ok (c1, s1) ∧ sim s1 s.
Proof.
  intros [Hwf Hrec] Hredo.
  destruct c as [node name old_val new_val|node pos prev_pos|node pos
                |node inputs outputs|source target|source target|port vis];
    cbn [redo undo] in Hredo |- *.
  - unfold PropertyChangedCmd_redo, PropertyChangedCmd_undo in *.
    destruct (py_ne old_val new_val).
    + destruct (update_prop_bin_shape _ _ _ _ _ Hredo) as (Hb & Hn & Hp & Hq).
      destruct (update_prop_bin_returns _ _ _ old_val _ _
                  (set_node_prop node name old_val s') Hredo) as [s1 Hs1].
      { by rewrite <-Hb. }
      rewrite Hs1. simpl. eexists _, s1. split; [done|].
      destruct (update_prop_bin_shape _ _ _ _ _ Hs1) as (Hb1 & Hn1 & Hp1 & Hq1).
      split; [split; [|split]|].
      * rewrite Hn1. simpl. by rewrite Hn.
      * rewrite Hp1. simpl. rewrite Hp. simpl.
        rewrite insert_insert_eq. by apply insert_id.
      * rewrite Hb1. change (bin_shape s' = bin_shape s). by rewrite Hb.
      * eapply ports_sim_same; [|reflexivity|apply sim_refl].
        rewrite Hq1. simpl. by rewrite Hq.
    + injection Hredo as <-. simpl. eexists _, s. split; [done|apply sim_refl].
  - unfold NodeMovedCmd_redo, NodeMovedCmd_undo in *. simpl.
    case_bool_decide; injection Hredo as <-;
      (eexists _, _; split; [done|]);
      (split; [split; [done|split; [|done]]
              |by eapply ports_sim_same; [| |apply sim_refl]]); simpl.
    + by apply insert_id.
    + rewrite insert_insert_eq. by apply insert_id.
  - unfold NodeAddedCmd_redo, NodeAddedCmd_undo, nodes_pop in *.
    injection Hredo as <-. simpl.
    rewrite bool_decide_eq_true_2 by set_solver. simpl.
    eexists _, _. split; [done|].
    split; [|by eapply ports_sim_same; [| |apply sim_refl]].
    split; [|done]. simpl. set_solver.
  - rewrite node_removed_redo in Hredo by done.
    rewrite node_removed_undo by done. unfold nodes_pop in Hredo.
    case_bool_decide; [|done]. simpl in *. injection Hredo as <-.
    eexists _, _. split; [done|].
    split; [|by eapply ports_sim_same; [| |apply sim_refl]].
    split; [|done]. simpl. apply set_eq. intros x.
    rewrite elem_of_union, elem_of_difference, elem_of_singleton.
    destruct (decide (x = node)) as [->|]; naive_solver.
  - rewrite connect_eq in Hredo. injection Hredo as <-.
    rewrite disconnect_eq. simpl. eexists _, _. split; [done|].
    destruct Hrec as (Hs & Ht & _). split; [done|]. split; [|split].
    + intros P. rewrite ports_disconnect_is_Some, ports_connect_is_Some.
      naive_solver.
    + intros P. by rewrite visible_disconnect, visible_connect.
    + intros P k x. rewrite count_listed_disconnect, count_listed_connect.
      repeat case_decide; lia.
  - rewrite redo_disconnect_eq in Hredo. injection Hredo as <-.
    rewrite undo_disconnect_eq. simpl. eexists _, _. split; [done|].
    destruct Hrec as (Hs & Ht & Hcs & Hct). split; [done|]. split; [|split].
    + intros P. rewrite ports_connect_is_Some, ports_disconnect_is_Some.
      naive_solver.
    + intros P. by rewrite visible_connect, visible_disconnect.
    + intros P k x. rewrite count_listed_connect, count_listed_disconnect.
      pose proof (dir_ne _ _ Hwf) as Hne.
      repeat case_decide; try lia; destruct_and?; simplify_eq; lia.
  - unfold PortVisibleCmd_redo, PortVisibleCmd_undo in *. injection Hredo as <-.
    simpl. eexists _, _. split; [done|].
    destruct Hrec as (pm & Hpm & Hvis).
    split.
    + unfold rest_sim, bin_shape, set_visible. by destruct (port_dir port).
    + split; [|split].
      * intros P. rewrite !ports_set_visible, !ports_set_port_visible_is_Some.
        rewrite ports_set_visible, ports_set_port_visible_is_Some.
        split; [|by right; right]. intros [<-|[<-|?]]; by eauto.
      * intros P. unfold port_model at 1.
        rewrite ports_set_visible.
        fold (port_model (set_port_visible port vis (set_visible port (negb vis) s)) P).
        rewrite visible_set_port_visible. case_decide as HP; [|].
        -- subst P. unfold port_model. by rewrite Hpm.
        -- unfold port_model at 1. rewrite ports_set_visible.
           fold (port_model (set_port_visible port (negb vis) s) P).
           rewrite visible_set_port_visible. by rewrite decide_False.
      * intros P k x. by rewrite !listed_set_visible.
Qed.

(** *** What a command does to a connection set *)

Lemma redo_conns c s s' P :
  wf_cmd c → redo c s = Ok s' →
  conns s' P =
  match c with
  | PortConnectedCmd source target => conns (connect_state source target s) P
  | PortDisconnectedCmd source target => conns (disconnect_state source target s) P
  | _ => conns s P
  end.
Proof.
  intros Hwf Hredo.
  destruct c as [node name old_val new_val|node pos prev_pos|node pos
                |node inputs outputs|source target|source target|port vis];
    cbn [redo] in Hredo.
  - unfold PropertyChangedCmd_redo in Hredo. destruct (py_ne old_val new_val).
    + destruct (update_prop_bin_shape _ _ _ _ _ Hredo) as (_ & _ & _ & Hq).
      unfold conns, port_model. by rewrite Hq.
    + by injection Hredo as <-.
  - unfold NodeMovedCmd_redo in Hredo. case_bool_decide; by injection Hredo as <-.
  - by injection Hredo as <-.
  - rewrite node_removed_redo in Hredo by done. unfold nodes_pop in Hredo.
    case_bool_decide; [|done]. by injection Hredo as <-.
  - rewrite connect_eq in Hredo. by injection Hredo as <-.
  - rewrite redo_disconnect_eq in Hredo. by injection Hredo as <-.
  - injection Hredo as <-. apply conns_set_visible.
Qed.

Lemma undo_conns c s c' s' P :
  wf_cmd c → undo c s = Ok (c', s') →
  conns s' P =
  match c with
  | PortConnectedCmd source target => conns (disconnect_state source target s) P
  | PortDisconnectedCmd source target => conns (connect_state source target s) P
  | _ => conns s P
  end.
Proof.
  intros Hwf Hundo.
  destruct c as [node name old_val new_val|node pos prev_pos|node pos
                |node inputs outputs|source target|source target|port vis];
    cbn [undo] in Hundo.
  - unfold PropertyChangedCmd_undo in Hundo. destruct (py_ne old_val new_val).
    + destruct (update_prop_bin _ _ _ _) as [s2|] eqn:Hs2; [|done].
      simpl in Hundo. injection Hundo as <- <-.
      destruct (update_prop_bin_shape _ _ _ _ _ Hs2) as (_ & _ & _ & Hq).
      unfold conns, port_model. by rewrite Hq.
    + simpl in Hundo. by injection Hundo as <- <-.
  - simpl in Hundo. by injection Hundo as <- <-.
  - unfold NodeAddedCmd_undo, nodes_pop in Hundo.
    case_bool_decide; [|done]. simpl in Hundo. by injection Hundo as <- <-.
  - rewrite node_removed_undo in Hundo by done. simpl in Hundo.
    by injection Hundo as <- <-.
  - rewrite disconnect_eq in Hundo. simpl in Hundo. by injection Hundo as <- <-.
  - rewrite undo_disconnect_eq in Hundo. simpl in Hundo. by injection Hundo as <- <-.
  - simpl in Hundo. injection Hundo as <- <-. apply conns_set_visible.
Qed.

Lemma undo_cmd_sim c s c' s' : undo c s = Ok (c', s') → cmd_sim c c' ∧ (wf_cmd c → wf_cmd c').
Proof.
  destruct c as [node name old_val new_val|node pos prev_pos|node pos
                |node inputs outputs|source target|source target|port vis];
    cbn [undo]; intros Hundo.
  - destruct (PropertyChangedCmd_undo _ _ _ _ _); [|done].
    simpl in Hundo. by injection Hundo as <- <-.
  - simpl in Hundo. by injection Hundo as <- <-.
  - destruct (NodeAddedCmd_undo _ _ _) as [[pos' s1]|]; [|done].
    simpl in Hundo. by injection Hundo as <- <-.
  - destruct (NodeRemovedCmd_undo _ _ _ _); [|done].
    simpl in Hundo. by injection Hundo as <- <-.
  - destruct (PortConnectedCmd_undo _ _ _); [|done].
    simpl in Hundo. by injection Hundo as <- <-.
  - simpl in Hundo. by injection Hundo as <- <-.
  - simpl in Hundo. by injection Hundo as <- <-.
Qed.

Lemma cell_op_sim c c' P k : cmd_sim c c' → cell_op c' P k = cell_op c P k.
Proof.
  intros H%cmd_sim_inv. destruct c; try (by subst c'). by destruct H as [? ->].
Qed.

Lemma wf_cmd_sim c c' : cmd_sim c c' → wf_cmd c → wf_cmd c'.
Proof.
  intros H%cmd_sim_inv. destruct c; try (by subst c'). by destruct H as [? ->].
Qed.

Lemma conns_connect source target s P :
  conns (connect_state source target s) P =
  let d := if decide (source = P)
           then append_name (port_node target) (port_name target) (conns s P)
           else conns s P in
  if decide (target = P)
  then append_name (port_node source) (port_name source) d else d.
Proof.
  unfold connect_state. rewrite conns_call, conns_set_conns. cbv zeta.
  destruct (decide (target = P)) as [<-|Ht];
    rewrite conns_set_conns; case_decide; by subst.
Qed.

Lemma append_name_keys k name (d : gmap string (list string)) j :
  is_Some (append_name k name d !! j) ↔ is_Some (d !! j) ∨ k = j.
Proof.
  rewrite append_name_insert. destruct (decide (k = j)) as [<-|Hne].
  - rewrite lookup_insert_eq. split; [by right|by eexists].
  - rewrite lookup_insert_ne by done. naive_solver.
Qed.

Lemma connect_keys source target s P k :
  is_Some (conns (connect_state source target s) P !! k) ↔
  is_Some (conns s P !! k) ∨
  (source = P ∧ port_node target = k) ∨ (target = P ∧ port_node source = k).
Proof.
  rewrite conns_connect. cbv zeta.
  destruct (decide (target = P)), (decide (source = P));
    rewrite ?append_name_keys; naive_solver.
Qed.

Lemma listed_connect_op source target s P k :
  source ≠ target →
  listed (connect_state source target s) P k =
  do_op (cell_op (PortConnectedCmd source target) P k) (listed s P k).
Proof.
  intros Hne. rewrite listed_connect. simpl.
  repeat case_decide; simpl; rewrite ?app_nil_r; try done.
  destruct_and?; congruence.
Qed.

Lemma listed_disconnect_op source target s P k :
  source ≠ target →
  listed (disconnect_state source target s) P k =
  do_op (cell_op (PortDisconnectedCmd source target) P k) (listed s P k).
Proof.
  intros Hne. rewrite listed_disconnect. simpl.
  repeat case_decide; simpl; try done. destruct_and?; congruence.
Qed.

Lemma redo_listed c s s' P k :
  wf_cmd c → redo c s = Ok s' →
  listed s' P k = do_op (cell_op c P k) (listed s P k).
Proof.
  intros Hwf Hredo. unfold listed at 1. rewrite (redo_conns c s s' P Hwf Hredo).
  destruct c; try done.
  - by apply listed_connect_op, dir_ne.
  - by apply listed_disconnect_op, dir_ne.
Qed.

Lemma undo_listed c s c' s' P k :
  wf_cmd c → undo c s = Ok (c', s') →
  listed s' P k = do_op (inv_op (cell_op c P k)) (listed s P k).
Proof.
  intros Hwf Hundo. unfold listed at 1.
  rewrite (undo_conns c s c' s' P Hwf Hundo).
  destruct c as [| | | |source target|source target|]; try done.
  - fold (listed (disconnect_state source target s) P k).
    rewrite listed_disconnect_op by by apply dir_ne.
    simpl. by repeat case_decide.
  - fold (listed (connect_state source target s) P k).
    rewrite listed_connect_op by by apply dir_ne.
    simpl. by repeat case_decide.
Qed.

Lemma redo_keys c s s' P k :
  wf_cmd c → redo c s = Ok s' →
  is_Some (conns s' P !! k) ↔
  is_Some (conns s P !! k) ∨ ∃ z, cell_op c P k = App z.
Proof.
  intros Hwf Hredo. rewrite (redo_conns c s s' P Hwf Hredo).
  destruct c as [| | | |source target|source target|]; simpl;
    try (split; [by left|by intros [?|[? ?]]]).
  - rewrite connect_keys. repeat case_decide; naive_solver.
  - rewrite disconnect_keys. repeat case_decide; naive_solver.
Qed.

Lemma undo_keys c s c' s' P k :
  wf_cmd c → undo c s = Ok (c', s') →
  is_Some (conns s' P !! k) ↔
  is_Some (conns s P !! k) ∨ ∃ z, cell_op c P k = Rem z.
Proof.
  intros Hwf Hundo. rewrite (undo_conns c s c' s' P Hwf Hundo).
  destruct c as [| | | |source target|source target|]; simpl;
    try (split; [by left|by intros [?|[? ?]]]).
  - rewrite disconnect_keys. repeat case_decide; naive_solver.
  - rewrite connect_keys. repeat case_decide; naive_solver.
Qed.

Lemma listed_key s P k : listed s P k ≠ [] → is_Some (conns s P !! k).
Proof. unfold listed. by destruct (conns s P !! k). Qed.

Lemma recorded_valid c s P k :
  recorded c s → op_valid (cell_op c P k) (listed s P k).
Proof.
  intros [Hwf Hrec].
  destruct c as [| | | |source target|source target|]; simpl; try done.
  - destruct Hrec as (_ & _ & Hs & Ht).
    repeat case_decide; simpl; try done; destruct_and?; by subst.
  - destruct Hrec as (_ & _ & Hs & Ht).
    repeat case_decide; simpl; try done; destruct_and?; by subst.
Qed.

(** *** Runs of commands *)

Lemma recorded_run_cons c cs s :
  recorded_run (c :: cs) s →
  recorded c s ∧ ∃ s', redo c s = Ok s' ∧ recorded_run cs s'.
Proof.
  simpl. intros [Hrec Hrun]. split; [done|].
  destruct (redo c s) as [s'|]; [by exists s'|done].
Qed.

Lemma redo_all_cons c cs s s' :
  redo_all (c :: cs) s = Ok s' → ∃ s1, redo c s = Ok s1 ∧ redo_all cs s1 = Ok s'.
Proof. simpl. destruct (redo c s) as [s1|]; [by exists s1|done]. Qed.

Lemma undo_all_cons c cs s r :
  undo_all (c :: cs) s = Ok r →
  ∃ cs1 s1 c1 s2,
    undo_all cs s = Ok (cs1, s1) ∧ undo c s1 = Ok (c1, s2) ∧ r = (c1 :: cs1, s2).
Proof.
  simpl. destruct (undo_all cs s) as [[cs1 s1]|]; [|done]. simpl.
  destruct (undo c s1) as [[c1 s2]|] eqn:Hc; [|done]. simpl.
  intros [= <-]. by exists cs1, s1, c1, s2.
Qed.

Lemma recorded_run_wf cs s : recorded_run cs s → Forall wf_cmd cs.
Proof.
  revert s. induction cs as [|c cs IH]; intros s Hrun; [constructor|].
  apply recorded_run_cons in Hrun as (Hrec & s' & _ & Hrun).
  constructor; [by eapply recorded_wf|by eapply IH].
Qed.

Lemma undo_phase cs sm s t :
  recorded_run cs sm → redo_all cs sm = Ok s → sim t s →
  ∃ cs' t', undo_all cs t = Ok (cs', t') ∧ sim t' sm ∧ Forall2 cmd_sim cs cs'.
Proof.
  revert sm t. induction cs as [|c cs IH]; intros sm t Hrun Hredo Hsim.
  { injection Hredo as <-. by exists [], t. }
  apply recorded_run_cons in Hrun as (Hrec & s1 & Hs1 & Hrun).
  apply redo_all_cons in Hredo as (s1' & Hs1' & Hredo).
  rewrite Hs1 in Hs1'. injection Hs1' as <-.
  destruct (IH s1 t Hrun Hredo Hsim) as (cs' & t1 & Hundo & Hsim1 & Hcs).
  destruct (undo_after_redo c sm s1 Hrec Hs1) as (c1 & s2 & Hc1 & Hsim2).
  destruct (undo_sim c t1 s1 c1 s2 (recorded_wf _ _ Hrec) Hsim1 Hc1)
    as (c2 & t2 & Hc2 & Hsim3 & Hcc & _).
  exists (c2 :: cs'), t2. split; [|split].
  - simpl. rewrite Hundo. simpl. by rewrite Hc2.
  - by eapply sim_trans.
  - by constructor.
Qed.

Lemma redo_phase cs cs' sm s t :
  recorded_run cs sm → redo_all cs sm = Ok s → Forall2 cmd_sim cs cs' →
  sim t sm →
  ∃ t', redo_all cs' t = Ok t' ∧ sim t' s.
Proof.
  intros Hrun Hredo Hcs. revert sm t Hrun Hredo.
  induction Hcs as [|c c' cs cs' Hcc Hcs IH]; intros sm t Hrun Hredo Hsim.
  { injection Hredo as <-. by exists t. }
  apply recorded_run_cons in Hrun as (Hrec & s1 & Hs1 & Hrun).
  apply redo_all_cons in Hredo as (s1' & Hs1' & Hredo).
  rewrite Hs1 in Hs1'. injection Hs1' as <-.
  destruct (redo_sim c c' t sm s1 (recorded_wf _ _ Hrec) Hcc Hsim Hs1)
    as (t1 & Ht1 & Hsim1).
  destruct (IH s1 t1 Hrun Hredo Hsim1) as (t' & Ht' & Hsim').
  exists t'. split; [|done]. simpl. by rewrite Ht1.
Qed.

Lemma redo_all_listed cs s s' P k :
  Forall wf_cmd cs → redo_all cs s = Ok s' →
  listed s' P k = exec (cell_ops cs P k) (listed s P k).
Proof.
  intros Hwf. revert s. induction Hwf as [|c cs Hc Hcs IH]; intros s Hredo.
  { by injection Hredo as <-. }
  apply redo_all_cons in Hredo as (s1 & Hs1 & Hredo).
  rewrite (IH s1 Hredo). unfold cell_ops. rewrite fmap_cons, exec_cons.
  by rewrite (redo_listed c s s1 P k Hc Hs1).
Qed.

Lemma cell_ops_sim cs cs' P k :
  Forall2 cmd_sim cs cs' → cell_ops cs' P k = cell_ops cs P k.
Proof.
  unfold cell_ops. induction 1 as [|c c' cs cs' Hc Hcs IH]; [done|].
  rewrite !fmap_cons, IH. f_equal. by apply cell_op_sim.
Qed.

Lemma Forall_wf_sim cs cs' :
  Forall2 cmd_sim cs cs' → Forall wf_cmd cs → Forall wf_cmd cs'.
Proof.
  induction 1 as [|c c' cs cs' Hc Hcs IH]; [done|].
  intros [Hwf Hwfs]%Forall_cons. constructor; [by eapply wf_cmd_sim|by apply IH].
Qed.

Lemma op_name_inv o : op_name (inv_op o) = op_name o.
Proof. by destruct o. Qed.

Lemma undo_all_filter (N : list string) cs s cs' s' P k :
  Forall wf_cmd cs → (∀ z, z ∈ op_names (cell_ops cs P k) → z ∈ N) →
  undo_all cs s = Ok (cs', s') →
  filter (λ x, x ∉ N) (listed s' P k) = filter (λ x, x ∉ N) (listed s P k).
Proof.
  intros Hwf. revert s cs' s'. induction Hwf as [|c cs Hc Hcs IH];
    intros s cs' s' HN Hundo.
  { by injection Hundo as <- <-. }
  apply undo_all_cons in Hundo as (cs1 & s1 & c1 & s2 & Hcs1 & Hc1 & [= -> ->]).
  unfold cell_ops in HN. rewrite fmap_cons, op_names_cons in HN.
  rewrite (undo_listed c s1 c1 s2 P k Hc Hc1).
  rewrite filter_do_op.
  - eapply IH; [|done]. intros z Hz. apply HN, elem_of_app. by right.
  - intros z Hz. rewrite op_name_inv in Hz. apply HN, elem_of_app. by left.
Qed.

Lemma redo_all_filter (N : list string) cs s s' P k :
  Forall wf_cmd cs → (∀ z, z ∈ op_names (cell_ops cs P k) → z ∈ N) →
  redo_all cs s = Ok s' →
  filter (λ x, x ∉ N) (listed s' P k) = filter (λ x, x ∉ N) (listed s P k).
Proof.
  intros Hwf. revert s. induction Hwf as [|c cs Hc Hcs IH]; intros s HN Hredo.
  { by injection Hredo as <-. }
  apply redo_all_cons in Hredo as (s1 & Hs1 & Hredo).
  unfold cell_ops in HN. rewrite fmap_cons, op_names_cons in HN.
  rewrite (IH s1); [|intros z Hz; apply HN, elem_of_app; by right|done].
  rewrite (redo_listed c s s1 P k Hc Hs1). apply filter_do_op.
  intros z Hz. apply HN, elem_of_app. by left.
Qed.

Lemma recorded_run_valid cs s P k :
  recorded_run cs s → ops_valid (cell_ops cs P k) (listed s P k).
Proof.
  revert s. induction cs as [|c cs IH]; intros s Hrun; [done|].
  apply recorded_run_cons in Hrun as (Hrec & s1 & Hs1 & Hrun).
  unfold cell_ops. rewrite fmap_cons. simpl. split; [by apply recorded_valid|].
  rewrite <-(redo_listed c s s1 P k (recorded_wf _ _ Hrec) Hs1). by apply IH.
Qed.

(** Keys only come. *)
Lemma redo_all_keys_mono cs s s' :
  Forall wf_cmd cs → redo_all cs s = Ok s' → keys_le s s'.
Proof.
  intros Hwf. revert s. induction Hwf as [|c cs Hc Hcs IH]; intros s Hredo.
  { injection Hredo as <-. by intros P k. }
  apply redo_all_cons in Hredo as (s1 & Hs1 & Hredo).
  intros P k Hk. apply (IH s1 Hredo).
  apply (redo_keys c s s1 P k Hc Hs1). by left.
Qed.

Lemma undo_all_keys_mono cs s cs' s' :
  Forall wf_cmd cs → undo_all cs s = Ok (cs', s') → keys_le s s'.
Proof.
  intros Hwf. revert s cs' s'. induction Hwf as [|c cs Hc Hcs IH];
    intros s cs' s' Hundo.
  { injection Hundo as <- <-. by intros P k. }
  apply undo_all_cons in Hundo as (cs1 & s1 & c1 & s2 & Hcs1 & Hc1 & [= -> ->]).
  intros P k Hk. apply (undo_keys c s1 c1 s2 P k Hc Hc1). left.
  by apply (IH s cs1 s1 Hcs1).
Qed.

(** The replay makes no key that the history has not made. *)
Lemma undo_all_keys_bound cs sm s t cs' t' :
  recorded_run cs sm → redo_all cs sm = Ok s →
  undo_all cs t = Ok (cs', t') → keys_le t s → keys_le t' s.
Proof.
  revert sm t cs' t'. induction cs as [|c cs IH];
    intros sm t cs' t' Hrun Hredo Hundo Hle.
  { by injection Hundo as <- <-. }
  pose proof (recorded_run_wf _ _ Hrun) as Hwf.
  apply Forall_cons in Hwf as [Hc Hcs].
  apply recorded_run_cons in Hrun as (Hrec & s1 & Hs1 & Hrun).
  apply redo_all_cons in Hredo as (s1' & Hs1' & Hredo).
  rewrite Hs1 in Hs1'. injection Hs1' as <-.
  apply undo_all_cons in Hundo as (cs1 & t1 & c1 & t2 & Hcs1 & Hc1 & [= -> ->]).
  intros P k Hk.
  apply (undo_keys c t1 c1 t2 P k Hc Hc1) in Hk as [Hk|[z Hz]].
  - by apply (IH s1 t cs1 t1 Hrun Hredo Hcs1 Hle).
  - apply (redo_all_keys_mono cs s1 s Hcs Hredo).
    apply (redo_keys c sm s1 P k Hc Hs1). left. apply listed_key.
    pose proof (recorded_valid c sm P k Hrec) as Hv. rewrite Hz in Hv.
    simpl in Hv. intros Hnil. by rewrite Hnil in Hv.
Qed.

Lemma redo_all_keys_bound cs cs' sm s t t' :
  recorded_run cs sm → redo_all cs sm = Ok s → Forall2 cmd_sim cs cs' →
  redo_all cs' t = Ok t' → keys_le t s → keys_le t' s.
Proof.
  intros Hrun Hredo Hcs. revert sm t Hrun Hredo.
  induction Hcs as [|c c' cs cs' Hcc Hcs IH]; intros sm t Hrun Hredo Ht Hle.
  { by injection Ht as <-. }
  pose proof (recorded_run_wf _ _ Hrun) as Hwf.
  apply Forall_cons in Hwf as [Hc Hwf].
  apply recorded_run_cons in Hrun as (Hrec & s1 & Hs1 & Hrun).
  apply redo_all_cons in Hredo as (s1' & Hs1' & Hredo).
  rewrite Hs1 in Hs1'. injection Hs1' as <-.
  apply redo_all_cons in Ht as (t1 & Ht1 & Ht).
  apply (IH s1 t1 Hrun Hredo Ht).
  intros P k Hk.
  apply (redo_keys c' t t1 P k (wf_cmd_sim _ _ Hcc Hc) Ht1) in Hk as [Hk|[z Hz]].
  - by apply Hle.
  - apply (redo_all_keys_mono cs s1 s Hwf Hredo).
    apply (redo_keys c sm s1 P k Hc Hs1). right. exists z.
    by rewrite <-(cell_op_sim c c').
Qed.

End LawFacts.

(** ** What the commands do to each part of the model *)

Module HistoryFacts.
Import Py Commands CommandSpecs CommandFacts OpFacts LawFacts Histories.

(** *** The loops of NodeRemovedCmd *)

Lemma same_frame_refl s : same_frame s s.
Proof. by repeat split. Qed.

Lemma same_frame_trans a b c : same_frame a b → same_frame b c → same_frame a c.
Proof.
  intros (H1 & H2 & H3 & H4) (G1 & G2 & G3 & G4).
  split; [congruence|]. split; [congruence|]. split; [congruence|].
  intros P. by rewrite G4, H4.
Qed.

Lemma same_frame_connect source target s :
  same_frame s (connect_state source target s).
Proof. split; [done|]. split; [done|]. split; [done|apply visible_connect]. Qed.

Lemma same_frame_disconnect source target s :
  same_frame s (disconnect_state source target s).
Proof. split; [done|]. split; [done|]. split; [done|apply visible_disconnect]. Qed.

Lemma count_connect_weight source target s P k x :
  count x (listed (connect_state source target s) P k) =
  count x (listed s P k) + link_weight source target P k x.
Proof. rewrite count_listed_connect. unfold link_weight. lia. Qed.

Lemma count_disconnect_weight source target s P k x :
  count x (listed (disconnect_state source target s) P k) =
  count x (listed s P k) - link_weight source target P k x.
Proof. rewrite count_listed_disconnect. unfold link_weight. lia. Qed.

Lemma for_each_peer_connect port peers s :
  ∃ s', for_each_peer connect_to port peers s = Ok s' ∧ same_frame s s' ∧
    (∀ P, is_Some (ports s' !! P) ↔
          is_Some (ports s !! P) ∨ (peers ≠ [] ∧ P ∈ port :: peers)) ∧
    (∀ P k x, count x (listed s' P k) =
              count x (listed s P k) + peers_weight port peers P k x).
Proof.
  revert s. induction peers as [|p peers IH]; intros s.
  - exists s. split; [done|]. split; [apply same_frame_refl|].
    split; [intros P; split; [by left|by intros [?|[? _]]]|].
    intros P k x. unfold peers_weight. simpl. lia.
  - cbn [for_each_peer].
    change (connect_to port p s) with (PortConnectedCmd_redo port p s).
    rewrite connect_eq. simpl.
    destruct (IH (connect_state port p s)) as (s' & Hs' & Hf & Hp & Hc).
    exists s'. split; [done|].
    split; [eapply same_frame_trans; [apply same_frame_connect|done]|].
    split.
    + intros P. rewrite Hp, ports_connect_is_Some, !elem_of_cons.
      assert (p :: peers ≠ []) as Hcons by done.
      assert (P ∈ peers → peers ≠ []) as Hin
        by (intros Hin ->; by apply elem_of_nil in Hin).
      tauto.
    + intros P k x. rewrite Hc, count_connect_weight.
      unfold peers_weight. simpl. lia.
Qed.

Lemma for_each_peer_disconnect port peers s :
  ∃ s', for_each_peer disconnect_from port peers s = Ok s' ∧ same_frame s s' ∧
    (∀ P, is_Some (ports s' !! P) ↔
          is_Some (ports s !! P) ∨ (peers ≠ [] ∧ P ∈ port :: peers)) ∧
    (∀ P k x, count x (listed s' P k) =
              count x (listed s P k) - peers_weight port peers P k x).
Proof.
  revert s. induction peers as [|p peers IH]; intros s.
  - exists s. split; [done|]. split; [apply same_frame_refl|].
    split; [intros P; split; [by left|by intros [?|[? _]]]|].
    intros P k x. unfold peers_weight. simpl. lia.
  - cbn [for_each_peer].
    change (disconnect_from port p s) with (PortDisconnectedCmd_redo port p s).
    rewrite redo_disconnect_eq. simpl.
    destruct (IH (disconnect_state port p s)) as (s' & Hs' & Hf & Hp & Hc).
    exists s'. split; [done|].
    split; [eapply same_frame_trans; [apply same_frame_disconnect|done]|].
    split.
    + intros P. rewrite Hp, ports_disconnect_is_Some, !elem_of_cons.
      assert (p :: peers ≠ []) as Hcons by done.
      assert (P ∈ peers → peers ≠ []) as Hin
        by (intros Hin ->; by apply elem_of_nil in Hin).
      tauto.
    + intros P k x. rewrite Hc, count_disconnect_weight.
      unfold peers_weight. simpl. lia.
Qed.

Lemma elem_of_cap_ports caps P :
  P ∈ cap_ports caps ↔
  ∃ pc, pc ∈ caps ∧ pc.2 ≠ [] ∧ P ∈ pc.1 :: pc.2.
Proof.
  unfold cap_ports. rewrite list_elem_of_bind. split.
  - intros (pc & HP & Hpc). exists pc. split; [done|].
    destruct pc as [port [|p peers]]; simpl in *; [by apply elem_of_nil in HP|].
    done.
  - intros (pc & Hpc & Hne & HP). exists pc. split; [|done].
    destruct pc as [port [|p peers]]; simpl in *; done.
Qed.

Lemma for_each_port_connect caps s :
  ∃ s', for_each_port connect_to caps s = Ok s' ∧ same_frame s s' ∧
    (∀ P, is_Some (ports s' !! P) ↔ is_Some (ports s !! P) ∨ P ∈ cap_ports caps) ∧
    (∀ P k x, count x (listed s' P k) =
              count x (listed s P k) + caps_weight caps P k x).
Proof.
  revert s. induction caps as [|[port peers] caps IH]; intros s.
  - exists s. split; [done|]. split; [apply same_frame_refl|].
    split.
    { intros P. rewrite elem_of_cap_ports. split; [by left|].
      intros [?|(pc & Hpc & _)]; [done|by apply elem_of_nil in Hpc]. }
    intros P k x. unfold caps_weight. simpl. lia.
  - cbn [for_each_port]. destruct (for_each_peer_connect port peers s)
      as (s1 & Hs1 & Hf1 & Hp1 & Hc1).
    rewrite Hs1. cbn [mbind result_bind bind].
    destruct (IH s1) as (s' & Hs' & Hf & Hp & Hc).
    exists s'. split; [done|]. split; [by eapply same_frame_trans|]. split.
    + intros P. rewrite Hp, Hp1, !elem_of_cap_ports. split.
      * intros [[?|[Hne HP]]|(pc & Hpc & Hne & HP)]; [by left| |].
        -- right. exists (port, peers). split; [by left|done].
        -- right. exists pc. split; [by right|done].
      * intros [?|(pc & Hpc & Hne & HP)]; [by left; left|].
        apply elem_of_cons in Hpc as [->|Hpc]; [by left; right|].
        right. by exists pc.
    + intros P k x. rewrite Hc, Hc1. unfold caps_weight. simpl. lia.
Qed.

Lemma for_each_port_disconnect caps s :
  ∃ s', for_each_port disconnect_from caps s = Ok s' ∧ same_frame s s' ∧
    (∀ P, is_Some (ports s' !! P) ↔ is_Some (ports s !! P) ∨ P ∈ cap_ports caps) ∧
    (∀ P k x, count x (listed s' P k) =
              count x (listed s P k) - caps_weight caps P k x).
Proof.
  revert s. induction caps as [|[port peers] caps IH]; intros s.
  - exists s. split; [done|]. split; [apply same_frame_refl|].
    split.
    { intros P. rewrite elem_of_cap_ports. split; [by left|].
      intros [?|(pc & Hpc & _)]; [done|by apply elem_of_nil in Hpc]. }
    intros P k x. unfold caps_weight. simpl. lia.
  - cbn [for_each_port]. destruct (for_each_peer_disconnect port peers s)
      as (s1 & Hs1 & Hf1 & Hp1 & Hc1).
    rewrite Hs1. cbn [mbind result_bind bind].
    destruct (IH s1) as (s' & Hs' & Hf & Hp & Hc).
    exists s'. split; [done|]. split; [by eapply same_frame_trans|]. split.
    + intros P. rewrite Hp, Hp1, !elem_of_cap_ports. split.
      * intros [[?|[Hne HP]]|(pc & Hpc & Hne & HP)]; [by left| |].
        -- right. exists (port, peers). split; [by left|done].
        -- right. exists pc. split; [by right|done].
      * intros [?|(pc & Hpc & Hne & HP)]; [by left; left|].
        apply elem_of_cons in Hpc as [->|Hpc]; [by left; right|].
        right. by exists pc.
    + intros P k x. rewrite Hc, Hc1. unfold caps_weight. simpl. lia.
Qed.

(** *** One command *)

Lemma py_ne_spec a b : py_ne a b = true ↔ a ≠ b.
Proof. unfold py_ne. by rewrite bool_decide_eq_true. Qed.

Lemma py_ne_false a b : py_ne a b = false ↔ a = b.
Proof.
  unfold py_ne. rewrite bool_decide_eq_false. split; [|by intros -> H].
  intros H. by destruct (decide (a = b)).
Qed.

Lemma bin_has_shape node name t s :
  bin_shape t = bin_shape s → bin_has node name s → bin_has node name t.
Proof.
  intros Hshape Hs w Hw. pose proof (bin_shape_lookup _ _ node Hshape) as Hl.
  rewrite Hw in Hl. simpl in Hl.
  destruct (prop_bin s !! node) as [v|] eqn:Hv; [|done].
  simpl in Hl. apply elem_of_dom. injection Hl as ->.
  apply elem_of_dom. by apply Hs.
Qed.

Lemma update_prop_bin_has node name v s s' :
  update_prop_bin node name v s = Ok s' → bin_has node name s.
Proof.
  unfold update_prop_bin. intros Hrun w Hw. rewrite Hw in Hrun.
  by destruct (w !! name).
Qed.

Lemma update_prop_bin_ready node name v s :
  bin_has node name s → ∃ s', update_prop_bin node name v s = Ok s'.
Proof.
  intros Hhas. unfold update_prop_bin.
  destruct (prop_bin s !! node) as [w|] eqn:Hw; [|by eexists].
  destruct (Hhas w Hw) as [cur ->]. destruct (py_ne cur v); by eexists.
Qed.

(** A state and one with the same ports show the same ports, flags and
    lists. *)
Lemma same_ports_effect (c : Cmd) s s' :
  ports s' = ports s → cmd_ports c = [] →
  (∀ P, flags c P = None) → (∀ P, unflags c P = None) →
  (∀ P k x, gain c P k x = 0) → (∀ P k x, loss c P k x = 0) →
  (∀ P, is_Some (ports s' !! P) ↔ is_Some (ports s !! P) ∨ P ∈ cmd_ports c) ∧
  (∀ P, visible (port_model s' P) =
        default (visible (port_model s P)) (flags c P)) ∧
  (∀ P, visible (port_model s' P) =
        default (visible (port_model s P)) (unflags c P)) ∧
  (∀ P k x, count x (listed s' P k) =
            count x (listed s P k) + gain c P k x - loss c P k x) ∧
  (∀ P k x, count x (listed s' P k) =
            count x (listed s P k) + loss c P k x - gain c P k x).
Proof.
  intros Hp Hcp Hf Hu Hg Hl.
  assert (∀ P, port_model s' P = port_model s P) as Hpm
    by (intros P; unfold port_model; by rewrite Hp).
  split; [|split; [|split; [|split]]].
  - intros P. rewrite Hp, Hcp. split; [by left|].
    by intros [?|?%elem_of_nil].
  - intros P. by rewrite Hf, Hpm.
  - intros P. by rewrite Hu, Hpm.
  - intros P k x. rewrite Hg, Hl. unfold listed, conns. rewrite Hpm. lia.
  - intros P k x. rewrite Hg, Hl. unfold listed, conns. rewrite Hpm. lia.
Qed.

Lemma set_visible_frame port flag s :
  nodes (set_visible port flag s) = nodes s ∧
  properties (set_visible port flag s) = properties s ∧
  prop_bin (set_visible port flag s) = prop_bin s.
Proof. unfold set_visible. by destruct (port_dir port). Qed.

Lemma visible_set_visible port flag s P :
  visible (port_model (set_visible port flag s) P) =
  if decide (port = P) then flag else visible (port_model s P).
Proof.
  unfold port_model at 1. rewrite ports_set_visible.
  apply visible_set_port_visible.
Qed.

Lemma set_visible_ports port flag s P :
  is_Some (ports (set_visible port flag s) !! P) ↔
  is_Some (ports s !! P) ∨ P ∈ [port].
Proof.
  rewrite ports_set_visible, ports_set_port_visible_is_Some,
    list_elem_of_singleton. naive_solver.
Qed.

Lemma link_ports_connect source target s P :
  is_Some (ports (connect_state source target s) !! P) ↔
  is_Some (ports s !! P) ∨ P ∈ [source; target].
Proof.
  rewrite ports_connect_is_Some, !elem_of_cons, elem_of_nil. tauto.
Qed.

Lemma link_ports_disconnect source target s P :
  is_Some (ports (disconnect_state source target s) !! P) ↔
  is_Some (ports s !! P) ∨ P ∈ [source; target].
Proof.
  rewrite ports_disconnect_is_Some, !elem_of_cons, elem_of_nil. tauto.
Qed.

Lemma bin_shape_frame s s' : prop_bin s' = prop_bin s → bin_shape s' = bin_shape s.
Proof. unfold bin_shape. by intros ->. Qed.

Lemma redo_spec c s s' :
  redo c s = Ok s' → redo_ready c s ∧ redo_effect c s s'.
Proof.
  destruct c as [node name old new|node pos prev|node pos|node ins outs
                |source target|source target|port flag];
    cbn [redo]; intros Hrun.
  - unfold PropertyChangedCmd_redo in Hrun. unfold redo_ready, redo_effect.
    cbn [writes touch redo_value].
    destruct (py_ne old new) eqn:Hne.
    + destruct (update_prop_bin_shape _ _ _ _ _ Hrun) as (Hshape & Hn & Hp & Hpo).
      split; [intros _; exact (update_prop_bin_has _ _ _ _ _ Hrun)|].
      split; [done|]. split; [done|]. split; [done|].
      destruct (same_ports_effect (PropertyChangedCmd node name old new) s s')
        as (H1 & H2 & _ & H4 & _); done.
    + injection Hrun as <-.
      split; [intros Hneq; by apply py_ne_false in Hne|].
      split; [done|]. split; [done|]. split; [done|].
      destruct (same_ports_effect (PropertyChangedCmd node name old new) s s)
        as (H1 & H2 & _ & H4 & _); done.
  - unfold NodeMovedCmd_redo in Hrun. unfold redo_ready, redo_effect.
    cbn [writes touch redo_value]. split; [done|].
    case_bool_decide; injection Hrun as <-.
    + split; [done|]. split; [done|]. split; [done|].
      destruct (same_ports_effect (NodeMovedCmd node pos prev) s s)
        as (H1 & H2 & _ & H4 & _); done.
    + split; [done|]. split; [done|]. split; [done|].
      destruct (same_ports_effect (NodeMovedCmd node pos prev) s
                  (set_model_pos node pos (set_xy_pos node pos s)))
        as (H1 & H2 & _ & H4 & _); done.
  - unfold NodeAddedCmd_redo in Hrun. injection Hrun as <-.
    split; [done|]. split; [done|]. split; [done|]. split; [done|].
    destruct (same_ports_effect (NodeAddedCmd node pos) s
                (call (viewer_add_node node pos) (nodes_setitem node s)))
      as (H1 & H2 & _ & H4 & _); done.
  - unfold NodeRemovedCmd_redo in Hrun.
    destruct (for_each_port_disconnect ins s) as (s1 & Hs1 & Hf1 & Hp1 & Hc1).
    rewrite Hs1 in Hrun. cbn [mbind result_bind bind] in Hrun.
    destruct (for_each_port_disconnect outs s1) as (s2 & Hs2 & Hf2 & Hp2 & Hc2).
    rewrite Hs2 in Hrun. cbn [mbind result_bind bind] in Hrun.
    destruct (same_frame_trans _ _ _ Hf1 Hf2) as (Hn & Hpr & Hb & Hv).
    unfold nodes_pop in Hrun. case_bool_decide as Hin; [|done].
    cbn [mbind result_bind bind] in Hrun. injection Hrun as <-.
    split; [unfold redo_ready; by rewrite <-Hn|].
    split; [by apply bin_shape_frame|]. split; [done|].
    split; [simpl; by rewrite Hn|]. split; [|split].
    + intros P. simpl. rewrite Hp2, Hp1, elem_of_app. tauto.
    + intros P. apply Hv.
    + intros P k x.
      change (listed (call _ (set_nodes _ s2)) P k) with (listed s2 P k).
      rewrite Hc2, Hc1. cbn [gain loss]. lia.
  - rewrite connect_eq in Hrun. injection Hrun as <-.
    split; [done|]. split; [done|]. split; [done|]. split; [done|].
    split; [apply link_ports_connect|]. split; [apply visible_connect|].
    intros P k x. rewrite count_connect_weight. cbn [gain loss]. lia.
  - rewrite redo_disconnect_eq in Hrun. injection Hrun as <-.
    split; [done|]. split; [done|]. split; [done|]. split; [done|].
    split; [apply link_ports_disconnect|]. split; [apply visible_disconnect|].
    intros P k x. rewrite count_disconnect_weight. cbn [gain loss]. lia.
  - unfold PortVisibleCmd_redo in Hrun. injection Hrun as <-.
    destruct (set_visible_frame port (negb flag) s) as (Hn & Hp & Hb).
    split; [done|]. split; [by apply bin_shape_frame|].
    split; [done|]. split; [done|]. split; [apply set_visible_ports|].
    split.
    + intros P. rewrite visible_set_visible. simpl. by case_decide.
    + intros P k x. rewrite listed_set_visible. cbn [gain loss]. lia.
Qed.

Lemma redo_returns c s : redo_ready c s → ∃ s', redo c s = Ok s'.
Proof.
  destruct c as [node name old new|node pos prev|node pos|node ins outs
                |source target|source target|port flag];
    cbn [redo]; intros Hready.
  - unfold PropertyChangedCmd_redo. destruct (py_ne old new) eqn:Hne;
      [|by eexists].
    apply update_prop_bin_ready. apply Hready. by apply py_ne_spec.
  - unfold NodeMovedCmd_redo. case_bool_decide; by eexists.
  - by eexists.
  - unfold NodeRemovedCmd_redo.
    destruct (for_each_port_disconnect ins s) as (s1 & Hs1 & Hf1 & _).
    rewrite Hs1. cbn [mbind result_bind bind].
    destruct (for_each_port_disconnect outs s1) as (s2 & Hs2 & Hf2 & _).
    rewrite Hs2. cbn [mbind result_bind bind].
    destruct (same_frame_trans _ _ _ Hf1 Hf2) as (Hn & _).
    unfold nodes_pop. rewrite bool_decide_eq_true_2 by by rewrite Hn.
    by eexists.
  - rewrite connect_eq. by eexists.
  - rewrite redo_disconnect_eq. by eexists.
  - by eexists.
Qed.

Lemma undo_spec c s c' s' :
  undo c s = Ok (c', s') → undo_ready c s ∧ undo_effect c s s' ∧ cmd_sim c c'.
Proof.
  destruct c as [node name old new|node pos prev|node pos|node ins outs
                |source target|source target|port flag];
    cbn [undo]; intros Hrun.
  - unfold PropertyChangedCmd_undo in Hrun. unfold undo_ready, undo_effect.
    cbn [unwrites touch undo_value].
    destruct (py_ne old new) eqn:Hne.
    + destruct (update_prop_bin node name old (set_node_prop node name old s))
        as [s1|] eqn:Hbin; [|done].
      cbn [mbind result_bind bind] in Hrun. injection Hrun as <- <-.
      destruct (update_prop_bin_shape _ _ _ _ _ Hbin) as (Hshape & Hn & Hp & Hpo).
      split; [intros _; exact (update_prop_bin_has _ _ _ _ _ Hbin)|].
      split; [|done].
      split; [done|]. split; [done|]. split; [done|].
      destruct (same_ports_effect (PropertyChangedCmd node name old new) s s1)
        as (H1 & _ & H3 & _ & H5); done.
    + cbn [mbind result_bind bind] in Hrun. injection Hrun as <- <-.
      split; [intros Hneq; by apply py_ne_false in Hne|].
      split; [|done].
      split; [done|]. split; [done|]. split; [done|].
      destruct (same_ports_effect (PropertyChangedCmd node name old new) s s)
        as (H1 & _ & H3 & _ & H5); done.
  - unfold NodeMovedCmd_undo in Hrun.
    cbn [mbind result_bind bind] in Hrun. injection Hrun as <- <-.
    split; [done|]. split; [|done].
    split; [done|]. split; [done|]. split; [done|].
    destruct (same_ports_effect (NodeMovedCmd node pos prev) s
                (set_model_pos node prev (set_xy_pos node prev s)))
      as (H1 & _ & H3 & _ & H5); done.
  - unfold NodeAddedCmd_undo, nodes_pop in Hrun.
    case_bool_decide as Hin; [|done].
    cbn [mbind result_bind bind] in Hrun. injection Hrun as <- <-.
    split; [done|]. split; [|done].
    split; [done|]. split; [done|]. split; [done|].
    destruct (same_ports_effect (NodeAddedCmd node pos) s
                (call (view_delete node) (set_nodes (nodes s ∖ {[node]}) s)))
      as (H1 & _ & H3 & _ & H5); done.
  - unfold NodeRemovedCmd_undo in Hrun.
    set (s0 := call (scene_addItem node) (nodes_setitem node s)) in *.
    destruct (for_each_port_connect ins s0) as (s1 & Hs1 & Hf1 & Hp1 & Hc1).
    rewrite Hs1 in Hrun. cbn [mbind result_bind bind] in Hrun.
    destruct (for_each_port_connect outs s1) as (s2 & Hs2 & Hf2 & Hp2 & Hc2).
    rewrite Hs2 in Hrun. cbn [mbind result_bind bind] in Hrun.
    injection Hrun as <- <-.
    destruct (same_frame_trans _ _ _ Hf1 Hf2) as (Hn & Hpr & Hb & Hv).
    split; [done|]. split; [|done].
    split; [by apply bin_shape_frame|]. split; [done|].
    split; [done|]. split; [|split].
    + intros P. simpl. rewrite Hp2, Hp1, elem_of_app. subst s0. simpl. tauto.
    + intros P. apply Hv.
    + intros P k x. rewrite Hc2, Hc1. cbn [gain loss].
      change (listed s0 P k) with (listed s P k). lia.
  - destruct (PortConnectedCmd_undo source target s) as [s1|] eqn:Hs1; [|done].
    cbn [mbind result_bind bind] in Hrun. injection Hrun as <- <-.
    rewrite disconnect_eq in Hs1. injection Hs1 as <-.
    split; [done|]. split; [|done].
    split; [done|]. split; [done|]. split; [done|].
    split; [apply link_ports_disconnect|]. split; [apply visible_disconnect|].
    intros P k x. rewrite count_disconnect_weight. cbn [gain loss]. lia.
  - destruct (PortDisconnectedCmd_undo source target s) as [s1|] eqn:Hs1; [|done].
    cbn [mbind result_bind bind] in Hrun. injection Hrun as <- <-.
    rewrite undo_disconnect_eq in Hs1. injection Hs1 as <-.
    split; [done|]. split; [|done].
    split; [done|]. split; [done|]. split; [done|].
    split; [apply link_ports_connect|]. split; [apply visible_connect|].
    intros P k x. rewrite count_connect_weight. cbn [gain loss]. lia.
  - unfold PortVisibleCmd_undo in Hrun.
    cbn [mbind result_bind bind] in Hrun. injection Hrun as <- <-.
    destruct (set_visible_frame port flag s) as (Hn & Hp & Hb).
    split; [done|]. split; [|done]. split; [by apply bin_shape_frame|].
    split; [done|]. split; [done|]. split; [apply set_visible_ports|].
    split.
    + intros P. rewrite visible_set_visible. simpl. by case_decide.
    + intros P k x. rewrite listed_set_visible. cbn [gain loss]. lia.
Qed.

Lemma undo_returns c s : undo_ready c s → ∃ c' s', undo c s = Ok (c', s').
Proof.
  destruct c as [node name old new|node pos prev|node pos|node ins outs
                |source target|source target|port flag];
    cbn [undo]; intros Hready.
  - unfold PropertyChangedCmd_undo. destruct (py_ne old new) eqn:Hne;
      [|by eexists _, _].
    destruct (update_prop_bin_ready node name old (set_node_prop node name old s))
      as [s1 Hs1]; [apply Hready; by apply py_ne_spec|].
    rewrite Hs1. by eexists _, _.
  - by eexists _, _.
  - unfold NodeAddedCmd_undo, nodes_pop.
    rewrite bool_decide_eq_true_2 by done. by eexists _, _.
  - unfold NodeRemovedCmd_undo.
    set (s0 := call (scene_addItem node) (nodes_setitem node s)).
    destruct (for_each_port_connect ins s0) as (s1 & Hs1 & _).
    rewrite Hs1. cbn [mbind result_bind bind].
    destruct (for_each_port_connect outs s1) as (s2 & Hs2 & _).
    rewrite Hs2. by eexists _, _.
  - rewrite disconnect_eq. by eexists _, _.
  - rewrite undo_disconnect_eq. by eexists _, _.
  - by eexists _, _.
Qed.

(** *** What a list of commands writes *)

Lemma cmd_sim_effects c c' :
  cmd_sim c c' →
  writes c' = writes c ∧ redo_value c' = redo_value c ∧ touch c' = touch c ∧
  cmd_ports c' = cmd_ports c ∧ (∀ P, flags c' P = flags c P) ∧
  (∀ P k x, gain c' P k x = gain c P k x) ∧
  (∀ P k x, loss c' P k x = loss c P k x) ∧
  (∀ s, redo_ready c' s ↔ redo_ready c s).
Proof.
  intros Hsim%cmd_sim_inv. destruct c; try (subst c'; by repeat split).
  destruct Hsim as [pos' ->]. by repeat split.
Qed.

Lemma written_cons c cs key :
  written (c :: cs) key ↔ writes c = Some key ∨ written cs key.
Proof. apply Exists_cons. Qed.

Lemma touched_cons c cs P : touched (c :: cs) P ↔ P ∈ cmd_ports c ∨ touched cs P.
Proof. apply Exists_cons. Qed.

Lemma flagged_cons c cs P : flagged (c :: cs) P ↔ is_Some (flags c P) ∨ flagged cs P.
Proof. apply Exists_cons. Qed.

Lemma first_touch_cons c cs n :
  first_touch (c :: cs) n =
  match touch c with
  | Some (m, b) => if decide (m = n) then Some b else first_touch cs n
  | None => first_touch cs n
  end.
Proof. done. Qed.

Lemma written_nil key : ¬ written [] key.
Proof. by intros H%Exists_nil. Qed.

Lemma touched_nil P : ¬ touched [] P.
Proof. by intros H%Exists_nil. Qed.

Lemma flagged_nil P : ¬ flagged [] P.
Proof. by intros H%Exists_nil. Qed.

Lemma look_ahead_sim cs cs' :
  Forall2 cmd_sim cs cs' →
  (∀ key, written cs' key ↔ written cs key) ∧
  (∀ n, first_touch cs' n = first_touch cs n) ∧
  (∀ P, touched cs' P ↔ touched cs P) ∧
  (∀ P, flagged cs' P ↔ flagged cs P).
Proof.
  induction 1 as [|c c' cs cs' Hc Hcs (IH1 & IH2 & IH3 & IH4)].
  { by repeat split. }
  destruct (cmd_sim_effects c c' Hc) as (Hw & _ & Ht & Hp & Hf & _).
  split; [|split; [|split]].
  - intros key. by rewrite !written_cons, Hw, IH1.
  - intros n. by rewrite !first_touch_cons, Ht, IH2.
  - intros P. by rewrite !touched_cons, Hp, IH3.
  - intros P. by rewrite !flagged_cons, Hf, IH4.
Qed.

Lemma agree_sim cs cs' z y :
  Forall2 cmd_sim cs cs' → agree cs z y → agree cs' z y.
Proof.
  intros (Hw & Ht & Hp & Hf)%look_ahead_sim (A1 & A3 & A4 & A5 & A6).
  split; [done|]. split; [|split; [|split; [|done]]].
  - intros n Hn. apply A3. by rewrite <-Ht.
  - intros P HP. apply A4. by rewrite <-Hp.
  - intros P HP. apply A5. by rewrite <-Hf.
Qed.

Lemma flags_unflags c P : flags c P = None ↔ unflags c P = None.
Proof. destruct c; simpl; try done. by case_decide. Qed.

Lemma gain_or_loss c P k x : gain c P k x = 0 ∨ loss c P k x = 0.
Proof. destruct c; simpl; auto. Qed.

Lemma writes_unwrites c key : writes c = Some key → unwrites c = Some key.
Proof.
  destruct c as [| node pos prev | | | | |]; simpl; try done.
  case_bool_decide; [done|]. by intros [= <-].
Qed.

(** *** Redos from two states that agree *)

Lemma agree_step c rest z y y1 :
  agree (c :: rest) z y → redo c y = Ok y1 →
  ∃ z1, redo c z = Ok z1 ∧ agree rest z1 y1.
Proof.
  intros (A1 & A3 & A4 & A5 & A6) Hy.
  destruct (redo_spec c y y1 Hy) as (Hready & E1 & E2 & E3 & E4 & E5 & E6).
  assert (redo_ready c z) as Hz.
  { destruct c as [node name old new| | |node ins outs| | |]; try done.
    - intros Hne. eapply bin_has_shape; [exact A1|by apply Hready].
    - cbn [redo_ready] in *. apply A3; [|done]. rewrite first_touch_cons.
      cbn [touch]. by rewrite decide_True. }
  destruct (redo_returns c z Hz) as [z1 Hz1]. exists z1. split; [done|].
  destruct (redo_spec c z z1 Hz1) as (_ & F1 & F2 & F3 & F4 & F5 & F6).
  split; [congruence|]. split; [|split; [|split]].
  - intros n Hn. rewrite F3, E3.
    pose proof (first_touch_cons c rest n) as Hft.
    destruct (touch c) as [[m b]|] eqn:Ht.
    + destruct (decide (m = n)) as [->|Hne].
      * destruct b; set_solver.
      * assert (n ∈ nodes z ↔ n ∈ nodes y) as Hzy
          by (apply A3; by rewrite Hft).
        destruct b; set_solver.
    + apply A3. by rewrite Hft.
  - intros P HP. rewrite F4, E4.
    destruct (decide (P ∈ cmd_ports c)) as [Hin|Hnin]; [tauto|].
    assert (is_Some (ports z !! P) ↔ is_Some (ports y !! P)) as Hzy
      by (apply A4; rewrite touched_cons; tauto).
    tauto.
  - intros P HP. rewrite F5, E5.
    destruct (flags c P) as [b|] eqn:Hf; [done|]. simpl. apply A5.
    rewrite flagged_cons, Hf. intros [[? ?]|?]; done.
  - intros P k x. by rewrite F6, E6, A6.
Qed.

Lemma frame_sim_trans a b c : frame_sim a b → frame_sim b c → frame_sim a c.
Proof.
  intros (Hn1 & Hb1 & He1 & Hv1 & Hc1) (Hn2 & Hb2 & He2 & Hv2 & Hc2).
  split; [congruence|]. split; [congruence|]. split; [|split].
  - intros P. by rewrite He1.
  - intros P. by rewrite Hv1.
  - intros P k x. by rewrite Hc1.
Qed.

Lemma agree_nil z y : agree [] z y → frame_sim z y.
Proof.
  intros (A1 & A3 & A4 & A5 & A6). split; [|split; [done|split; [|split]]].
  - apply set_eq. intros n. by apply A3.
  - intros P. apply A4, touched_nil.
  - intros P. apply A5, flagged_nil.
  - done.
Qed.

Lemma redo_all_agree rest z y r :
  agree rest z y → redo_all rest y = Ok r →
  ∃ r', redo_all rest z = Ok r' ∧ frame_sim r' r.
Proof.
  revert z y. induction rest as [|c rest IH]; intros z y Hzy Hr.
  - injection Hr as <-. exists z. split; [done|]. by apply agree_nil.
  - apply redo_all_cons in Hr as (y1 & Hy1 & Hr).
    destruct (agree_step c rest z y y1 Hzy Hy1) as (z1 & Hz1 & Hagree).
    destruct (IH z1 y1 Hagree Hr) as (r' & Hr' & Hsim).
    exists r'. split; [|done]. simpl. by rewrite Hz1.
Qed.

(** A node the history takes out first was in the mapping. *)
Lemma removed_first_present rest x S n :
  redo_all rest x = Ok S → first_touch rest n = Some false → n ∈ nodes x.
Proof.
  revert x. induction rest as [|c rest IH]; intros x Hrun Hft; [done|].
  apply redo_all_cons in Hrun as (x1 & Hx1 & Hrun).
  destruct (redo_spec c x x1 Hx1) as (Hready & _ & _ & E3 & _).
  rewrite first_touch_cons in Hft.
  destruct c as [| | node pos|node ins outs| | |]; cbn [touch redo_ready] in *;
    try (rewrite <-E3; by apply IH).
  - destruct (decide (node = n)) as [->|Hne]; [done|].
    specialize (IH x1 Hrun Hft). rewrite E3 in IH. set_solver.
  - destruct (decide (node = n)) as [->|Hne]; [done|].
    specialize (IH x1 Hrun Hft). rewrite E3 in IH. set_solver.
Qed.

(** *** Undoing a history, last command first *)

Lemma unwrites_cases c key :
  unwrites c = Some key →
  writes c = Some key ∨
  ∃ node pos, c = NodeMovedCmd node pos pos ∧ key = (node, "pos").
Proof.
  destruct c as [| node pos prev | | | | |]; cbn [unwrites writes]; try done.
  - auto.
  - intros [= <-]. case_bool_decide as Heq; [|by left].
    right. exists node, pos. by rewrite Heq.
Qed.

Lemma undone_nil s : undone [] s s.
Proof.
  split; [done|]. split; [done|]. split; [|split; [done|done]].
  intros P. split; [by left|]. intros [?|[]%touched_nil]. done.
Qed.

Lemma undone_ready c rest x0 x1 y1 :
  redo_ready c x0 → redo_effect c x0 x1 → adds_fair (c :: rest) →
  undone rest y1 x1 → undo_ready c y1.
Proof.
  intros Hready (E1 & E2 & E3 & _) [Hfair _] (I1 & I3 & _).
  destruct c as [node name old new| |node pos| | | |]; try done.
  - intros Hne. eapply bin_has_shape; [|by apply Hready]. congruence.
  - cbn [undo_ready touch] in *. apply I3.
    destruct (first_touch rest node) as [[]|]; [done|done|].
    rewrite E3. set_solver.
Qed.

Lemma undone_step c rest x0 x1 y1 y :
  redo_effect c x0 x1 → undone rest y1 x1 →
  undo_effect c y1 y → undone (c :: rest) y x0.
Proof.
  intros (E1 & E2 & E3 & E4 & E5 & E6) (I1 & I3 & I4 & I5 & I6)
    (U1 & U2 & U3 & U4 & U5 & U6).
  split; [congruence|]. split; [|split; [|split]].
  - intros n. rewrite U3, first_touch_cons. specialize (I3 n).
    destruct (touch c) as [[m b]|] eqn:Ht.
    + destruct (decide (m = n)) as [->|Hne].
      * destruct b; set_solver.
      * assert (n ∈ nodes x1 ↔ n ∈ nodes x0) as Hx
          by (rewrite E3; destruct b; set_solver).
        assert (n ∈ nodes y ↔ n ∈ nodes y1) as Hy
          by (rewrite U3; destruct b; set_solver).
        rewrite <-U3, Hy, I3. by destruct (first_touch rest n) as [[]|].
    + rewrite I3, E3. done.
  - intros P. rewrite U4, I4, E4, touched_cons. tauto.
  - intros P HP. rewrite flagged_cons in HP.
    assert (flags c P = None) as Hf.
    { destruct (flags c P); [|done]. exfalso. apply HP. left. by eexists. }
    rewrite U5, (proj1 (flags_unflags c P) Hf). simpl.
    rewrite I5 by tauto. by rewrite E5, Hf.
  - intros P k z. specialize (I6 P k z). specialize (E6 P k z).
    specialize (U6 P k z). destruct (gain_or_loss c P k z); lia.
Qed.

Lemma undone_redo_ready c rest x0 x1 y1 y :
  redo_ready c x0 → redo_effect c x0 x1 → undone rest y1 x1 →
  undo_effect c y1 y → redo_ready c y.
Proof.
  intros Hready (E1 & _) (I1 & _) (U1 & _ & U3 & _).
  destruct c as [node name old new| | |node ins outs| | |]; try done.
  - intros Hne. eapply bin_has_shape; [|by apply Hready]. congruence.
  - cbn [redo_ready touch] in *. rewrite U3. set_solver.
Qed.

Lemma undone_agree c rest x0 x1 S y1 y z :
  redo_effect c x0 x1 → redo_all rest x1 = Ok S →
  undone rest y1 x1 → undo_ready c y1 → undo_effect c y1 y →
  redo_effect c y z → agree rest z y1.
Proof.
  intros (E1 & E2 & E3 & E4 & E5 & E6) Hrun
    (I1 & I3 & I4 & I5 & I6) Hready
    (U1 & U2 & U3 & U4 & U5 & U6) (R1 & R2 & R3 & R4 & R5 & R6).
  split; [congruence|]. split; [|split; [|split]].
  - intros n Hn. rewrite R3, U3.
    destruct (touch c) as [[m b]|] eqn:Ht; [|done].
    destruct (decide (m = n)) as [->|Hne]; [|destruct b; set_solver].
    destruct b.
    + destruct c; try done. cbn [touch undo_ready] in *.
      injection Ht as ->. set_solver.
    + assert (n ∉ nodes y1); [|set_solver].
      rewrite (I3 n). destruct (first_touch rest n) as [[]|] eqn:Hft.
      * done.
      * pose proof (removed_first_present rest x1 S n Hrun Hft) as Hin.
        rewrite E3 in Hin. set_solver.
      * rewrite E3. set_solver.
  - intros P HP. rewrite R4, U4.
    destruct (decide (P ∈ cmd_ports c)) as [Hin|Hnin]; [|tauto].
    assert (is_Some (ports y1 !! P)); [|tauto]. rewrite I4, E4. tauto.
  - intros P HP. rewrite R5, U5.
    destruct (flags c P) as [b|] eqn:Hf.
    + simpl. rewrite I5, E5, Hf by done. done.
    + by rewrite (proj1 (flags_unflags c P) Hf).
  - intros P k x. specialize (I6 P k x). specialize (E6 P k x).
    rewrite R6, U6. destruct (gain_or_loss c P k x); lia.
Qed.

(** The undos of a history with fair adds return, and the redos of what
    they leave return and give a state like the one the undos started
    from, the properties aside. *)
Lemma inverse_of_frame late x0 S :
  adds_fair late → redo_all late x0 = Ok S →
  ∃ late' y r,
    undo_all late S = Ok (late', y) ∧ Forall2 cmd_sim late late' ∧
    undone late y x0 ∧ redo_all late' y = Ok r ∧ frame_sim r S.
Proof.
  revert x0. induction late as [|c rest IH]; intros x0 Hfair Hrun.
  { injection Hrun as <-. exists [], x0, x0.
    split; [done|]. split; [done|]. split; [apply undone_nil|].
    split; [done|]. by repeat split. }
  destruct (redo_all_cons _ _ _ _ Hrun) as (x1 & Hx1 & Hrest).
  destruct (IH x1 (proj2 Hfair) Hrest)
    as (rest' & y1 & r1 & Hundo & Hsims & Hinv & Hredo & Hsim).
  destruct (redo_spec c x0 x1 Hx1) as [Hready Heff].
  pose proof (undone_ready c rest x0 x1 y1 Hready Heff Hfair Hinv) as Hready1.
  destruct (undo_returns c y1 Hready1) as (c' & y & Hy).
  destruct (undo_spec c y1 c' y Hy) as (_ & Hueff & Hcc).
  pose proof (undone_redo_ready c rest x0 x1 y1 y Hready Heff Hinv Hueff)
    as Hready2.
  destruct (cmd_sim_effects c c' Hcc)
    as (Hw & Hv & Ht & Hp & Hf & Hg & Hl & Hr).
  destruct (redo_returns c' y (proj2 (Hr y) Hready2)) as [z Hz].
  destruct (redo_spec c' y z Hz) as [_ (R1 & R2 & R3 & R4 & R5 & R6)].
  assert (redo_effect c y z) as Hzeff.
  { split; [done|]. split; [by rewrite R2, Hw, Hv|].
    split; [by rewrite R3, Ht|]. split; [intros P; by rewrite R4, Hp|].
    split; [intros P; by rewrite R5, Hf|].
    intros P k x. by rewrite R6, Hg, Hl. }
  pose proof (undone_agree c rest x0 x1 S y1 y z Heff Hrest Hinv Hready1
                Hueff Hzeff) as Hagree.
  apply (agree_sim rest rest' z y1 Hsims) in Hagree.
  destruct (redo_all_agree rest' z y1 r1 Hagree Hredo) as (r & Hr' & Hsim').
  exists (c' :: rest'), y, r.
  split; [cbn [undo_all]; rewrite Hundo; cbn [mbind result_bind bind fst snd];
          by rewrite Hy|].
  split; [by constructor|].
  split; [by apply (undone_step c rest x0 x1 y1 y)|].
  split; [cbn [redo_all]; by rewrite Hz|].
  by apply (frame_sim_trans r r1 S).
Qed.

(** *** The properties along a history *)

Lemma redo_all_properties cs s s' key :
  redo_all cs s = Ok s' →
  properties s' !! key =
  match last_write cs key with
  | Some v => Some v
  | None => properties s !! key
  end.
Proof.
  revert s. induction cs as [|c cs IH]; intros s Hrun.
  { by injection Hrun as <-. }
  destruct (redo_all_cons _ _ _ _ Hrun) as (s1 & Hs1 & Hrest).
  destruct (redo_spec c s s1 Hs1) as (_ & _ & E2 & _).
  rewrite (IH s1 Hrest). cbn [last_write].
  destruct (last_write cs key) as [v|]; [done|]. rewrite E2.
  case_decide as Hw.
  - rewrite Hw. by rewrite lookup_insert_eq.
  - destruct (writes c) as [w|]; [|done].
    rewrite lookup_insert_ne; [done|]. by intros ->.
Qed.

Lemma undo_all_properties cs s cs' s' key :
  undo_all cs s = Ok (cs', s') →
  properties s' !! key =
  match first_unwrite cs key with
  | Some v => Some v
  | None => properties s !! key
  end.
Proof.
  revert cs' s'. induction cs as [|c cs IH]; intros cs' s' Hrun.
  { by injection Hrun as <- <-. }
  destruct (undo_all_cons _ _ _ _ Hrun) as (cs1 & s1 & c1 & s2 & Hrest & Hc & [= -> ->]).
  destruct (undo_spec c s1 c1 s2 Hc) as (_ & (_ & U2 & _) & _).
  cbn [first_unwrite]. rewrite U2. case_decide as Hu.
  - rewrite Hu. by rewrite lookup_insert_eq.
  - rewrite <-(IH cs1 s1 Hrest).
    destruct (unwrites c) as [w|]; [|done].
    rewrite lookup_insert_ne; [done|]. by intros ->.
Qed.

Lemma last_write_sim cs cs' key :
  Forall2 cmd_sim cs cs' → last_write cs' key = last_write cs key.
Proof.
  induction 1 as [|c c' cs cs' Hc Hcs IH]; [done|].
  destruct (cmd_sim_effects c c' Hc) as (Hw & Hv & _).
  cbn [last_write]. by rewrite IH, Hw, Hv.
Qed.

(** The moves of a history are fair exactly when its undos and the
    redos after them give the properties back. *)
Lemma inverse_of_properties late late' x0 S y r :
  redo_all late x0 = Ok S → undo_all late S = Ok (late', y) →
  Forall2 cmd_sim late late' → redo_all late' y = Ok r →
  properties r = properties S ↔ moves_fair late x0.
Proof.
  intros Hrun Hundo Hsims Hredo.
  assert (∀ key, properties r !! key =
            match last_write late key with
            | Some v => Some v
            | None => match first_unwrite late key with
                      | Some v => Some v
                      | None => properties S !! key
                      end
            end) as Hr.
  { intros key. rewrite (redo_all_properties late' y r key Hredo).
    rewrite (last_write_sim late late' key Hsims).
    by rewrite (undo_all_properties late S late' y key Hundo). }
  pose proof (λ key, redo_all_properties late x0 S key Hrun) as HS.
  split.
  - intros Heq key v Hlast Hfirst.
    specialize (Hr key). specialize (HS key).
    rewrite Hlast, Hfirst in Hr. rewrite Hlast in HS. congruence.
  - intros Hfair. apply map_eq. intros key.
    specialize (Hr key). specialize (HS key). specialize (Hfair key).
    destruct (last_write late key) as [v|]; [congruence|].
    destruct (first_unwrite late key) as [v|]; [|done].
    rewrite Hr, HS. symmetry. by apply Hfair.
Qed.

(** The inverse law on lists of commands: the undos of a fair history,
    last to first, and the redos of what they leave return and give the
    model back, up to the order of the names in a connection list and
    the keys with an empty one. *)
Lemma inverse_up_to_order late x0 S :
  fair_history late x0 → redo_all late x0 = Ok S →
  ∃ late' y r,
    undo_all late S = Ok (late', y) ∧ Forall2 cmd_sim late late' ∧
    redo_all late' y = Ok r ∧ sim r S.
Proof.
  intros [Hmoves Hadds] Hrun.
  destruct (inverse_of_frame late x0 S Hadds Hrun)
    as (late' & y & r & Hundo & Hsims & _ & Hredo & Hn & Hb & Hports).
  exists late', y, r. split; [done|]. split; [done|]. split; [done|].
  split; [|done]. split; [done|]. split; [|done].
  by apply (inverse_of_properties late late' x0 S y r).
Qed.

(** The two conditions are needed: where the undos and the redos return
    and give the properties back, the history was fair. *)
Lemma fair_adds_needed late x0 S late' y :
  redo_all late x0 = Ok S → undo_all late S = Ok (late', y) → adds_fair late.
Proof.
  revert x0 late' y. induction late as [|c rest IH]; intros x0 late' y Hrun Hundo;
    [done|].
  destruct (redo_all_cons _ _ _ _ Hrun) as (x1 & Hx1 & Hrest).
  destruct (undo_all_cons _ _ _ _ Hundo) as (rest' & y1 & c' & y' & Hundo1 & Hc & _).
  pose proof (IH x1 rest' y1 Hrest Hundo1) as Hfair.
  split; [|done].
  destruct c as [| |node pos| | | |]; try done.
  destruct (inverse_of_frame rest x1 S Hfair Hrest)
    as (rest2 & y2 & r & Hundo2 & _ & (_ & I3 & _) & _).
  rewrite Hundo1 in Hundo2. injection Hundo2 as <- <-.
  destruct (undo_spec _ _ _ _ Hc) as (Hready & _).
  cbn [undo_ready] in Hready. apply I3 in Hready.
  intros Hft. by rewrite Hft in Hready.
Qed.

Lemma fair_history_needed late late' x0 S y r :
  redo_all late x0 = Ok S → undo_all late S = Ok (late', y) →
  redo_all late' y = Ok r → properties r = properties S →
  fair_history late x0.
Proof.
  intros Hrun Hundo Hredo Heq.
  pose proof (fair_adds_needed late x0 S late' y Hrun Hundo) as Hadds.
  split; [|done].
  destruct (inverse_of_frame late x0 S Hadds Hrun)
    as (late2 & y2 & r2 & Hundo2 & Hsims & _).
  rewrite Hundo in Hundo2. injection Hundo2 as <- <-.
  by apply (inverse_of_properties late late' x0 S y r).
Qed.

End HistoryFacts.

(** ** The port commands: what the specification claims *)

Module PortClaims.
Import Py Commands CommandSpecs CommandFacts.

(** C3: in the disconnect transformations, [PortConnectedCmd.undo] and
    [PortDisconnectedCmd.redo], the test [port_names is []] that guards
    the deletion of a key is false whatever [get] returned. The deletion
    is never run: after the disconnect a port's connection mapping has
    the keys it had before, and a key whose only name is removed stays
    in it, mapped to the empty list. *)
Theorem disconnect_keeps_emptied_key (source target : Port) (s : State) :
  (∀ owner k o, py_is (ref_of owner k o) RefFresh = false) ∧
  ∃ s', PortConnectedCmd_undo source target s = Ok s' ∧
        PortDisconnectedCmd_redo source target s = Ok s' ∧
        (∀ P k, is_Some (conns s' P !! k) ↔ is_Some (conns s P !! k)) ∧
        (source ≠ target →
         conns s source !! port_node target = Some [port_name target] →
         conns s' source !! port_node target = Some []) ∧
        (source ≠ target →
         conns s target !! port_node source = Some [port_name source] →
         conns s' target !! port_node source = Some []).
Proof.
  split; [intros; apply py_is_fresh|].
  exists (disconnect_state source target s).
  split; [apply disconnect_eq|]. split; [apply disconnect_eq|].
  split; [intros; apply disconnect_keys|].
  split; intros Hne Hl; rewrite conns_disconnect; cbv zeta.
  - destruct (decide (target = source)); [congruence|].
    destruct (decide (source = source)); [|done].
    rewrite removed_lookup, decide_True, Hl by done. simpl.
    by rewrite decide_True.
  - destruct (decide (source = target)); [congruence|].
    destruct (decide (target = target)); [|done].
    rewrite removed_lookup, decide_True, Hl by done. simpl.
    by rewrite decide_True.
Qed.

Lemma disconnect_keeps_emptied_key_witness :
  out_A ≠ in_B ∧
  conns linked out_A !! "B" = Some ["in"] ∧
  ∃ s', PortDisconnectedCmd_redo out_A in_B linked = Ok s' ∧
        conns s' out_A !! "B" = Some [].
Proof.
  assert (out_A ≠ in_B) as Hne by done.
  assert (conns linked out_A !! "B" = Some ["in"]) as Hl by reflexivity.
  split; [exact Hne|]. split; [exact Hl|].
  destruct (disconnect_keeps_emptied_key out_A in_B linked)
    as (_ & s' & _ & Hr & _ & Hsrc & _).
  exists s'. split; [exact Hr|]. exact (Hsrc Hne Hl).
Defined.

(** C5: [PortConnectedCmd.redo] and [PortDisconnectedCmd.undo] are one
    transformation, the append of the specification; and
    [PortConnectedCmd.undo] and [PortDisconnectedCmd.redo] are one
    transformation. That one removes the names but does not prune an
    emptied key: where [out_A] and [in_B] list each other once, the code
    leaves the key ["B"] of [out_A] mapped to the empty list, and the
    inverse operation of the specification removes it. *)
Theorem port_commands_share_transformations :
  (∀ source target s,
     PortConnectedCmd_redo source target s = PortDisconnectedCmd_undo source target s ∧
     PortConnectedCmd_undo source target s = PortDisconnectedCmd_redo source target s ∧
     PortConnectedCmd_redo source target s = Ok (spec_connect source target s)) ∧
  ∃ s', PortConnectedCmd_undo out_A in_B linked = Ok s' ∧
        PortDisconnectedCmd_redo out_A in_B linked = Ok s' ∧
        conns s' out_A !! "B" = Some [] ∧
        conns (spec_disconnect out_A in_B linked) out_A !! "B" = None.
Proof.
  split.
  - intros source target s. split; [done|]. split; [done|].
    rewrite connect_eq. f_equal. unfold connect_state, spec_connect.
    by rewrite !append_name_insert.
  - eexists. split; [reflexivity|]. split; [reflexivity|]. split; reflexivity.
Qed.

(** C6: the disconnect transformation, [PortDisconnectedCmd.redo] and
    equally [PortConnectedCmd.undo], returns on every state and for every
    pair of ports; an endpoint that does not list the peer's name under
    the peer's node id (the key may be missing) keeps its port model as
    it is. *)
Theorem disconnect_never_raises (source target : Port) (s : State) :
  ∃ s', PortDisconnectedCmd_redo source target s = Ok s' ∧
        PortConnectedCmd_undo source target s = Ok s' ∧
        (port_name target ∉ listed s source (port_node target) →
         port_model s' source = port_model s source) ∧
        (port_name source ∉ listed s target (port_node source) →
         port_model s' target = port_model s target).
Proof.
  exists (disconnect_state source target s).
  split; [apply disconnect_eq|]. split; [apply disconnect_eq|].
  split; intros Hnin; apply port_model_ext.
  - apply visible_disconnect.
  - fold (conns (disconnect_state source target s) source) (conns s source).
    rewrite conns_disconnect. cbv zeta.
    destruct (decide (source = source)); [|done].
    rewrite (removed_absent _ _ (conns s source)) by exact Hnin.
    case_decide; [subst; by apply removed_absent|done].
  - apply visible_disconnect.
  - fold (conns (disconnect_state source target s) target) (conns s target).
    rewrite conns_disconnect. cbv zeta.
    destruct (decide (target = target)); [|done].
    case_decide.
    + subst. rewrite (removed_absent _ _ (conns s target)) by exact Hnin.
      by apply removed_absent.
    + by apply removed_absent.
Qed.

Lemma disconnect_never_raises_witness :
  ("in" ∉ listed unlinked out_A "B") ∧
  ("out" ∉ listed unlinked in_B "A") ∧
  ∃ s', PortDisconnectedCmd_redo out_A in_B unlinked = Ok s' ∧
        port_model s' out_A = port_model unlinked out_A ∧
        port_model s' in_B = port_model unlinked in_B.
Proof.
  assert ("in" ∉ listed unlinked out_A "B") as H1 by apply not_elem_of_nil.
  assert ("out" ∉ listed unlinked in_B "A") as H2 by apply not_elem_of_nil.
  split; [exact H1|]. split; [exact H2|].
  destruct (disconnect_never_raises out_A in_B unlinked)
    as (s' & Hr & _ & Hsrc & Htrg).
  exists s'. split; [exact Hr|]. split; [exact (Hsrc H1)|exact (Htrg H2)].
Defined.

(** C10: connecting is not idempotent. For two distinct ports, [n]
    executions of [PortConnectedCmd.redo] append the peer's name [n]
    times to each endpoint's list; one [PortConnectedCmd.undo] takes at
    most one occurrence away on each side; so after two redos and one
    undo each endpoint lists the peer once more than before the three
    calls: once, when it did not list it. *)
Theorem connect_is_not_idempotent (source target : Port) (s : State) (n : nat) :
  source ≠ target →
  (∃ s', repeat_cmd n (PortConnectedCmd_redo source target) s = Ok s' ∧
     listed s' source (port_node target) =
       listed s source (port_node target) ++ replicate n (port_name target) ∧
     listed s' target (port_node source) =
       listed s target (port_node source) ++ replicate n (port_name source)) ∧
  (∃ s', PortConnectedCmd_undo source target s = Ok s' ∧
     (count (port_name target) (listed s source (port_node target)) - 1
        ≤ count (port_name target) (listed s' source (port_node target))) ∧
     (count (port_name source) (listed s target (port_node source)) - 1
        ≤ count (port_name source) (listed s' target (port_node source)))) ∧
  (∃ s1 s2 s3,
     PortConnectedCmd_redo source target s = Ok s1 ∧
     PortConnectedCmd_redo source target s1 = Ok s2 ∧
     PortConnectedCmd_undo source target s2 = Ok s3 ∧
     count (port_name target) (listed s3 source (port_node target)) =
       count (port_name target) (listed s source (port_node target)) + 1 ∧
     count (port_name source) (listed s3 target (port_node source)) =
       count (port_name source) (listed s target (port_node source)) + 1).
Proof.
  intros Hne. split; [|split].
  - destruct (repeat_connect n source target s Hne) as (s' & Hs' & Hl).
    exists s'. split; [done|]. rewrite !Hl.
    split; repeat case_decide; rewrite ?app_nil_r; naive_solver.
  - exists (disconnect_state source target s). split; [apply disconnect_eq|].
    rewrite !count_listed_disconnect. split; repeat case_decide; naive_solver lia.
  - exists (connect_state source target s),
      (connect_state source target (connect_state source target s)),
      (disconnect_state source target
         (connect_state source target (connect_state source target s))).
    split; [done|]. split; [done|]. split; [apply disconnect_eq|].
    rewrite !count_listed_disconnect, !count_listed_connect.
    split; repeat case_decide; naive_solver lia.
Qed.

Lemma connect_is_not_idempotent_witness :
  out_A ≠ in_B ∧
  ∃ s1 s2 s3,
    PortConnectedCmd_redo out_A in_B unlinked = Ok s1 ∧
    PortConnectedCmd_redo out_A in_B s1 = Ok s2 ∧
    PortConnectedCmd_undo out_A in_B s2 = Ok s3 ∧
    count "in" (listed s3 out_A "B") = 1 ∧
    count "out" (listed s3 in_B "A") = 1.
Proof.
  assert (out_A ≠ in_B) as Hne by done.
  split; [exact Hne|].
  destruct (connect_is_not_idempotent out_A in_B unlinked 2 Hne)
    as (_ & _ & s1 & s2 & s3 & H1 & H2 & H3 & Hs & Ht).
  exists s1, s2, s3. repeat split; [exact H1|exact H2|exact H3|exact Hs|exact Ht].
Defined.

(** C2, as the specification states it, fails: where [out_A] lists
    [in_B] twice and is listed once, INV-1 holds, and after
    [PortDisconnectedCmd.redo] [out_A] still lists [in_B], which no
    longer lists it. *)
Lemma disconnect_breaks_INV1 : ¬ keeps_INV1 PortDisconnectedCmd_redo.
Proof.
  intros Hkeep.
  assert (INV1 lopsided) as Hinv.
  { intros P Q HP HQ.
    assert (∀ X, X ∈ dom (ports lopsided) → X = out_A ∨ X = in_B) as Hdom.
    { intros X. unfold lopsided. simpl. rewrite !dom_insert_L. set_solver. }
    destruct (Hdom P HP) as [->| ->], (Hdom Q HQ) as [->| ->];
      vm_compute; split; intros H; try (by inversion H);
      repeat constructor. }
  pose proof (Hkeep out_A in_B lopsided (disconnect_state out_A in_B lopsided)
                Hinv (redo_disconnect_eq _ _ _)) as Hafter.
  assert (out_A ∈ dom (ports (disconnect_state out_A in_B lopsided))) as HA.
  { apply elem_of_dom. by eexists. }
  assert (in_B ∈ dom (ports (disconnect_state out_A in_B lopsided))) as HB.
  { apply elem_of_dom. by eexists. }
  destruct (Hafter out_A in_B) as [Himp _].
  - exact HA.
  - exact HB.
  - assert ("out" ∈ @nil string) as Hbad; [|by apply not_elem_of_nil in Hbad].
    apply Himp. vm_compute. constructor.
Qed.

(** C2, amended: for a source and a target of opposite directions, each
    of [PortConnectedCmd.redo], [PortConnectedCmd.undo],
    [PortDisconnectedCmd.redo] and [PortDisconnectedCmd.undo] takes a
    state where every two ports of opposite directions list each other
    equally often to such a state, in which INV-1 holds of every two ports
    of opposite directions. *)
Theorem port_commands_keep_balance (source target : Port) (s : State) :
  port_dir source ≠ port_dir target → balanced s →
  (∃ s', PortConnectedCmd_redo source target s = Ok s' ∧
         balanced s' ∧ INV1_opposite s') ∧
  (∃ s', PortConnectedCmd_undo source target s = Ok s' ∧
         balanced s' ∧ INV1_opposite s') ∧
  (∃ s', PortDisconnectedCmd_redo source target s = Ok s' ∧
         balanced s' ∧ INV1_opposite s') ∧
  (∃ s', PortDisconnectedCmd_undo source target s = Ok s' ∧
         balanced s' ∧ INV1_opposite s').
Proof.
  intros Hd Hb.
  pose proof (balanced_connect source target s Hd Hb) as Hc.
  pose proof (balanced_disconnect source target s Hd Hb) as Hx.
  repeat split.
  - exists (connect_state source target s).
    split; [done|]. split; [done|]. by apply balanced_INV1_opposite.
  - exists (disconnect_state source target s).
    split; [apply disconnect_eq|]. split; [done|]. by apply balanced_INV1_opposite.
  - exists (disconnect_state source target s).
    split; [apply disconnect_eq|]. split; [done|]. by apply balanced_INV1_opposite.
  - exists (connect_state source target s).
    split; [done|]. split; [done|]. by apply balanced_INV1_opposite.
Qed.

Lemma balanced_empty : balanced empty_state.
Proof. intros P Q _. reflexivity. Qed.

Lemma port_commands_keep_balance_witness :
  port_dir out_A ≠ port_dir in_B ∧ balanced empty_state ∧
  ∃ s', PortConnectedCmd_redo out_A in_B empty_state = Ok s' ∧ INV1_opposite s'.
Proof.
  assert (port_dir out_A ≠ port_dir in_B) as Hd by done.
  split; [exact Hd|]. split; [exact balanced_empty|].
  destruct (port_commands_keep_balance out_A in_B empty_state Hd balanced_empty)
    as ((s' & Hr & _ & Hi) & _).
  exists s'. split; [exact Hr|exact Hi].
Defined.

End PortClaims.

(** ** The commands and the undo stack: what the specification claims *)

Module LawClaims.
Import Py Commands CommandSpecs CommandFacts OpFacts LawFacts.

(** *** The law on lists of commands *)

Lemma option_list_eq (a b : option (list string)) :
  (is_Some a ↔ is_Some b) → default [] a = default [] b → a = b.
Proof.
  destruct a as [la|], b as [lb|]; simpl; intros Hs Hd.
  - by rewrite Hd.
  - destruct (proj1 Hs) as [? ?]; [by eexists|done].
  - destruct (proj2 Hs) as [? ?]; [by eexists|done].
  - done.
Qed.

Lemma inverse_on_lists cs sm s :
  recorded_run cs sm → redo_all cs sm = Ok s →
  ∃ cs' s1 s2,
    undo_all cs s = Ok (cs', s1) ∧ redo_all cs' s1 = Ok s2 ∧
    model s2 = model s ∧ Forall2 cmd_sim cs cs'.
Proof.
  intros Hrun Hredo.
  pose proof (recorded_run_wf _ _ Hrun) as Hwf.
  destruct (undo_phase cs sm s s Hrun Hredo (sim_refl s))
    as (cs' & s1 & Hundo & Hsim1 & Hcs).
  destruct (redo_phase cs cs' sm s s1 Hrun Hredo Hcs Hsim1)
    as (s2 & Hredo2 & Hsim2).
  pose proof (Forall_wf_sim _ _ Hcs Hwf) as Hwf'.
  exists cs', s1, s2. split; [done|]. split; [done|]. split; [|done].
  assert (∀ P k, conns s2 P !! k = conns s P !! k) as Hconns.
  { intros P k. apply option_list_eq.
    - split.
      + apply (redo_all_keys_bound cs cs' sm s s1 s2 Hrun Hredo Hcs Hredo2).
        apply (undo_all_keys_bound cs sm s s cs' s1 Hrun Hredo Hundo).
        by intros Q j.
      + intros Hk. apply (redo_all_keys_mono cs' s1 s2 Hwf' Hredo2).
        by apply (undo_all_keys_mono cs s cs' s1 Hwf Hundo).
    - fold (listed s2 P k) (listed s P k).
      rewrite (redo_all_listed cs' s1 s2 P k Hwf' Hredo2).
      rewrite (redo_all_listed cs sm s P k Hwf Hredo).
      rewrite (cell_ops_sim cs cs' P k Hcs).
      apply exec_again.
      + by apply recorded_run_valid.
      + intros x. by destruct Hsim1 as [_ (_ & _ & Hc)].
      + rewrite (undo_all_filter _ cs s cs' s1 P k Hwf (λ z Hz, Hz) Hundo).
        by rewrite (redo_all_filter _ cs sm s P k Hwf (λ z Hz, Hz) Hredo). }
  destruct Hsim2 as [(Hn & Hp & _) (He & Hv & _)].
  unfold model. f_equal; [done|done|].
  apply map_eq. intros P. specialize (He P). specialize (Hv P).
  assert (connected_ports (port_model s2 P) = connected_ports (port_model s P))
    as Hc by (apply map_eq; intros k; apply Hconns).
  unfold port_model in Hv, Hc.
  destruct (ports s2 !! P) as [pm2|], (ports s !! P) as [pm|]; simpl in *.
  - f_equal. by apply port_model_ext.
  - destruct (proj1 He) as [? ?]; [by eexists|done].
  - destruct (proj2 He) as [? ?]; [by eexists|done].
  - done.
Qed.

(** *** The undo stack *)

Lemma push_all_app a b st :
  push_all (a ++ b) st = st' ← push_all a st; push_all b st'.
Proof.
  revert st. induction a as [|c a IH]; intros st; [done|].
  simpl. destruct (stack_push c st) as [st1|]; [|done]. simpl. apply IH.
Qed.

Lemma push_all_redo_all cs pre s :
  push_all cs (mkStack pre (length pre), s) =
  s' ← redo_all cs s; Ok (mkStack (pre ++ cs) (length pre + length cs), s').
Proof.
  revert pre s. induction cs as [|c cs IH]; intros pre s; simpl.
  { by rewrite app_nil_r, Nat.add_0_r. }
  destruct (redo c s) as [s1|]; [|done]. simpl.
  rewrite take_ge by done.
  replace (S (length pre)) with (length (pre ++ [c]))
    by (rewrite length_app; simpl; lia).
  rewrite IH. destruct (redo_all cs s1); [|done]. simpl.
  rewrite <-app_assoc, length_app. simpl. do 3 f_equal. lia.
Qed.

Lemma times_S n f st : times (S n) f st = st' ← f st; times n f st'.
Proof. done. Qed.

Lemma times_succ n f st :
  times (S n) f st = st' ← times n f st; f st'.
Proof.
  revert st. induction n as [|n IH]; intros st.
  { rewrite times_S. simpl. by destruct (f st). }
  rewrite times_S, (times_S n f st).
  destruct (f st) as [st1|]; [|done].
  change (times (S n) f st1 = st' ← times n f st1; f st').
  apply IH.
Qed.

Lemma times_undo late pre s :
  times (length late) stack_undo
    (mkStack (pre ++ late) (length pre + length late), s) =
  r ← undo_all late s; Ok (mkStack (pre ++ r.1) (length pre), r.2).
Proof.
  revert pre. induction late as [|c cs IH]; intros pre.
  { simpl. by rewrite Nat.add_0_r. }
  cbn [length]. rewrite times_succ.
  replace (pre ++ c :: cs) with ((pre ++ [c]) ++ cs) by by rewrite <-app_assoc.
  replace (length pre + S (length cs)) with (length (pre ++ [c]) + length cs)
    by (rewrite length_app; simpl; lia).
  rewrite IH. simpl. destruct (undo_all cs s) as [[cs1 s1]|]; [|done]. simpl.
  rewrite length_app. simpl. rewrite Nat.add_1_r.
  rewrite <-app_assoc. simpl.
  rewrite list_lookup_middle by done.
  destruct (undo c s1) as [[c1 s2]|]; [|done]. simpl.
  rewrite insert_app_r_alt by done. by rewrite Nat.sub_diag.
Qed.

Lemma times_redo late pre s :
  times (length late) stack_redo (mkStack (pre ++ late) (length pre), s) =
  s' ← redo_all late s;
  Ok (mkStack (pre ++ late) (length pre + length late), s').
Proof.
  revert pre s. induction late as [|c cs IH]; intros pre s.
  { simpl. by rewrite Nat.add_0_r. }
  simpl. rewrite list_lookup_middle by done.
  destruct (redo c s) as [s1|]; [|done]. simpl.
  replace (pre ++ c :: cs) with ((pre ++ [c]) ++ cs) by by rewrite <-app_assoc.
  replace (S (length pre)) with (length (pre ++ [c]))
    by (rewrite length_app; simpl; lia).
  rewrite IH. destruct (redo_all cs s1); [|done]. simpl.
  rewrite length_app. simpl. do 3 f_equal. lia.
Qed.

(** *** The claims *)



Lemma small_history_recorded : recorded_run small_history small_graph.
Proof.
  split; [by split|]. cbn [redo NodeMovedCmd_redo]. simpl.
  split.
  { split; [done|]. split; [by eexists|]. split; [by eexists|]. by split. }
  split; [|done]. split; [done|]. by eexists.
Qed.


(** C7: a [PropertyChangedCmd] whose old value equals its new value
    changes nothing when it is redone or undone: the state, with the
    node views, the property bin and the log of the calls on them, is
    the same after as before. *)
Theorem property_change_noop (node name : string) (old_val new_val : Value)
    (s : State) :
  old_val = new_val →
  PropertyChangedCmd_redo node name old_val new_val s = Ok s ∧
  PropertyChangedCmd_undo node name old_val new_val s = Ok s ∧
  redo (PropertyChangedCmd node name old_val new_val) s = Ok s ∧
  undo (PropertyChangedCmd node name old_val new_val) s =
    Ok (PropertyChangedCmd node name old_val new_val, s).
Proof.
  intros ->. unfold redo, undo, PropertyChangedCmd_redo, PropertyChangedCmd_undo.
  unfold py_ne. rewrite bool_decide_eq_false_2 by (by intros H; apply H).
  done.
Qed.

Lemma property_change_noop_witness :
  VInt 1 = VInt 1 ∧
  redo (PropertyChangedCmd "n" "size" (VInt 1) (VInt 1)) small_graph
    = Ok small_graph ∧
  redo (PropertyChangedCmd_init "n" "pos" (VPos 0 0) small_graph) small_graph
    = Ok small_graph.
Proof.
  split; [reflexivity|]. split.
  - exact (proj1 (proj2 (proj2
             (property_change_noop "n" "size" (VInt 1) (VInt 1) small_graph eq_refl)))).
  - exact (proj1 (proj2 (proj2
             (property_change_noop "n" "pos" (VPos 0 0) (VPos 0 0) small_graph eq_refl)))).
Defined.

End LawClaims.

(** ** Properties of the topological sort *)

Module TopoFacts.
Import Py TopologicalSort.

(** *** Output nodes *)

Lemma elem_of_nodes_setitem (x n : node) (nodes : list node) :
  x ∈ nodes_setitem n nodes ↔ x ∈ nodes ∨ x = n.
Proof.
  unfold nodes_setitem. case_bool_decide as Hin.
  - split; [by left|]. by intros [?| ->].
  - rewrite elem_of_app, list_elem_of_singleton. done.
Qed.

Lemma elem_of_setitems (x : node) (l acc : list node) :
  x ∈ foldl (λ nodes n, nodes_setitem n nodes) acc l ↔ x ∈ acc ∨ x ∈ l.
Proof.
  revert acc. induction l as [|n l IH]; intros acc; simpl.
  - rewrite elem_of_nil. naive_solver.
  - rewrite IH, elem_of_nodes_setitem, elem_of_cons. naive_solver.
Qed.

Lemma elem_of_collect_acc (x : node) (ps : list PortObj) (acc : list node) :
  x ∈ foldl (λ nodes p, foldl (λ nodes n, nodes_setitem n nodes) nodes (port_peers p))
        acc ps ↔
  x ∈ acc ∨ ∃ p, p ∈ ps ∧ x ∈ port_peers p.
Proof.
  revert acc. induction ps as [|p ps IH]; intros acc; simpl.
  - split; [by left|]. intros [?|(p & Hp & _)]; [done|]. by apply elem_of_nil in Hp.
  - rewrite IH, elem_of_setitems. split.
    + intros [[?|?]|(q & Hq & Hx)]; [by left| |].
      * right. exists p. split; [by left|done].
      * right. exists q. split; [by right|done].
    + intros [?|(q & Hq & Hx)]; [by left; left|].
      apply elem_of_cons in Hq as [->|Hq]; [by left; right|].
      right. by exists q.
Qed.

Lemma elem_of_collect (x : node) (ps : list PortObj) :
  x ∈ collect ps ↔ ∃ p, p ∈ ps ∧ x ∈ port_peers p.
Proof.
  unfold collect. rewrite elem_of_collect_acc, elem_of_nil. naive_solver.
Qed.

Lemma get_output_nodes_peers (env : Env) (n e : node) :
  e ∈ get_output_nodes env n → e ∈ all_peers env.
Proof.
  unfold get_output_nodes, obj. destruct (env !! n) as [o|] eqn:Hn; simpl.
  - rewrite elem_of_collect. intros (p & Hp & He).
    unfold all_peers. apply list_elem_of_bind. exists (n, o). split.
    + simpl. apply list_elem_of_bind. by exists p.
    + by apply elem_of_map_to_list.
  - unfold collect. simpl. by rewrite elem_of_nil.
Qed.

Lemma get_output_nodes_universe (env : Env) (starts : list node) (n e : node) :
  e ∈ get_output_nodes env n → e ∈ universe env starts.
Proof.
  intros He. unfold universe. rewrite elem_of_list_to_set, elem_of_app.
  right. by eapply get_output_nodes_peers.
Qed.

(** *** Building the graph *)

Lemma expand_step_spec env outs g acc g' o :
  foldl (expand_step env) (g, acc) outs = (g', o) →
  g ⊆ g' ∧
  (∀ n, n ∈ outs → is_Some (g' !! n)) ∧
  (∀ k l, g' !! k = Some l →
     g !! k = Some l ∨
     (k ∈ outs ∧ g !! k = None ∧ l = get_output_nodes env k ∧ ∀ e, e ∈ l → e ∈ o)) ∧
  (∀ e, e ∈ o → e ∈ acc ∨ ∃ k, k ∈ outs ∧ e ∈ get_output_nodes env k) ∧
  (∀ e, e ∈ acc → e ∈ o) ∧
  (dom g' = dom g → o = acc).
Proof.
  revert g acc. induction outs as [|n outs IH]; intros g acc; simpl.
  - intros [= <- <-]. split; [done|]. split; [by intros n ?%elem_of_nil|].
    split; [by left|]. split; [by left|]. done.
  - destruct (g !! n) as [ln|] eqn:Hn.
    + intros Hf. destruct (IH _ _ Hf) as (Hsub & Hkeys & Hval & Ho & Hacc & Hsame).
      split; [done|]. split.
      { intros m [->|Hm]%elem_of_cons; [|by apply Hkeys].
        exists ln. by eapply lookup_weaken. }
      split; [|split; [|done]].
      * intros k l Hk. destruct (Hval k l Hk) as [?|(? & ? & ? & ?)]; [by left|].
        right. split; [by right|done].
      * intros e He. destruct (Ho e He) as [?|(k & ? & ?)]; [by left|].
        right. exists k. split; [by right|done].
    + intros Hf. destruct (IH _ _ Hf) as (Hsub & Hkeys & Hval & Ho & Hacc & Hsame).
      assert (g ⊆ <[n := get_output_nodes env n]> g) as Hins
        by by apply insert_subseteq.
      assert (g' !! n = Some (get_output_nodes env n)) as Hgn.
      { eapply lookup_weaken; [|done]. apply lookup_insert_eq. }
      split; [by etrans|]. split.
      { intros m [->|Hm]%elem_of_cons; [by eexists|by apply Hkeys]. }
      split; [|split; [|split]].
      * intros k l Hk. destruct (Hval k l Hk) as [Hk'|(? & Hk' & ? & Hin)].
        -- destruct (decide (n = k)) as [->|Hne].
           ++ rewrite lookup_insert_eq in Hk'. injection Hk' as <-.
              right. split; [by left|]. split; [done|]. split; [done|].
              intros e He. apply Hacc. rewrite elem_of_app. by right.
           ++ rewrite lookup_insert_ne in Hk' by done. by left.
        -- destruct (decide (n = k)) as [->|Hne];
             [by rewrite lookup_insert_eq in Hk'|].
           rewrite lookup_insert_ne in Hk' by done.
           right. split; [by right|done].
      * intros e He. destruct (Ho e He) as [[?|?]%elem_of_app|(k & ? & ?)].
        -- by left.
        -- right. exists n. split; [by left|done].
        -- right. exists k. split; [by right|done].
      * intros e He. apply Hacc. rewrite elem_of_app. by left.
      * intros Hdom. exfalso.
        assert (n ∈ dom g') as Hin by (apply elem_of_dom; by eexists).
        rewrite Hdom in Hin. by apply not_elem_of_dom in Hn.
Qed.

Section build.
Context (env : Env) (U : gset node) (R : node → Prop).
Context (R_universe : ∀ k, R k → k ∈ U).
Context (R_step : ∀ k e, R k → e ∈ get_output_nodes env k → R e).

Lemma sound_dom g : sound env R g → dom g ⊆ U.
Proof using R_universe.
  intros [Hk _] k Hin. apply R_universe, Hk. by apply elem_of_dom.
Qed.

Lemma expand_sound outs g g' o :
  sound env R g → (∀ e, e ∈ outs → R e) → covered g outs →
  expand env outs g = (g', o) →
  sound env R g' ∧ (∀ e, e ∈ o → R e) ∧ covered g' o ∧ g ⊆ g' ∧
  (o = [] ∨ size (U ∖ dom g') < size (U ∖ dom g)).
Proof using R_universe R_step.
  intros [HgR Hgv] Houts Hcov Hex.
  destruct (expand_step_spec _ _ _ _ _ _ Hex)
    as (Hsub & Hkeys & Hval & Ho & _ & Hsame).
  assert (sound env R g') as Hsound.
  { split.
    - intros k [l Hk]. destruct (Hval k l Hk) as [Hk'|(Hin & _)];
        [apply HgR; by eexists|by apply Houts].
    - intros k l Hk. destruct (Hval k l Hk) as [Hk'|(_ & _ & ? & _)];
        [by eapply Hgv|done]. }
  split; [done|]. split; [|split; [|split; [done|]]].
  - intros e He. destruct (Ho e He) as [?%elem_of_nil|(k & Hk & Hek)]; [done|].
    eapply R_step; [by apply Houts|done].
  - intros k l e Hk He. destruct (Hval k l Hk) as [Hk'|(_ & _ & _ & Hin)].
    + left. destruct (Hcov k l e Hk' He) as [[le Hle]|Hin].
      * exists le. by eapply lookup_weaken.
      * by apply Hkeys.
    + right. by apply Hin.
  - destruct (decide (dom g' = dom g)) as [Hd|Hd].
    + left. by rewrite (Hsame Hd).
    + right. apply subset_size. pose proof (sound_dom _ Hsound) as HU.
      assert (dom g ⊆ dom g') as Hdd by by apply subseteq_dom.
      split.
      * intros k [HkU Hk]%elem_of_difference. apply elem_of_difference.
        split; [done|]. intros Hin. by apply Hk, Hdd.
      * intros Hsup. apply Hd. apply (anti_symm (⊆)); [|done].
        intros k Hk. destruct (decide (k ∈ dom g)) as [|Hnin]; [done|].
        assert (k ∈ U ∖ dom g') as [_ Hbad]%elem_of_difference; [|done].
        apply Hsup, elem_of_difference. split; [by apply HU|done].
Qed.

Lemma while_output_nodes_spec fuel outs g :
  sound env R g → (∀ e, e ∈ outs → R e) → covered g outs →
  size (U ∖ dom g) < fuel →
  ∃ g', while_output_nodes fuel env outs g = Done g' ∧
        sound env R g' ∧ closed g' ∧ g ⊆ g'.
Proof using R_universe R_step.
  revert outs g. induction fuel as [|fuel IH]; intros outs g Hs Houts Hcov Hsize;
    [lia|].
  destruct outs as [|n outs].
  { exists g. split; [done|]. split; [done|]. split; [|done].
    intros k l e Hk He. destruct (Hcov k l e Hk He) as [?|?%elem_of_nil]; done. }
  simpl. destruct (expand env (n :: outs) g) as [g1 o] eqn:Hex.
  destruct (expand_sound _ _ _ _ Hs Houts Hcov Hex)
    as (Hs1 & Ho & Hcov1 & Hsub & Hmeasure).
  destruct Hmeasure as [->|Hlt].
  - exists g1. split; [by destruct fuel|]. split; [done|]. split; [|done].
    intros k l e Hk He. destruct (Hcov1 k l e Hk He) as [?|?%elem_of_nil]; done.
  - destruct (IH o g1 Hs1 Ho Hcov1) as (g' & Hw & Hs' & Hcl & Hsub'); [lia|].
    exists g'. split; [done|]. split; [done|]. split; [done|]. by etrans.
Qed.

Lemma for_start_nodes_spec fuel starts g :
  sound env R g → closed g → (∀ n, n ∈ starts → R n) → size U < fuel →
  ∃ g', for_start_nodes fuel env starts g = Done g' ∧
        sound env R g' ∧ closed g' ∧ g ⊆ g' ∧
        ∀ n, n ∈ starts → is_Some (g' !! n).
Proof using R_universe R_step.
  revert g. induction starts as [|n starts IH]; intros g Hs Hcl Hstarts Hfuel.
  { exists g. split; [done|]. split; [done|]. split; [done|]. split; [done|].
    by intros n ?%elem_of_nil. }
  simpl. set (outs := get_output_nodes env n).
  assert (R n) as Hn by (apply Hstarts; by left).
  assert (g ⊆ <[n := outs]> g) as Hsub.
  { destruct (g !! n) as [l|] eqn:Hgn; [|by apply insert_subseteq].
    destruct Hs as [_ Hv]. pose proof (Hv n l Hgn) as Hl. fold outs in Hl.
    subst l. by rewrite insert_id. }
  assert (sound env R (<[n := outs]> g)) as Hs1.
  { destruct Hs as [Hk Hv]. split.
    - intros k [l Hl]. destruct (decide (n = k)) as [<-|Hne]; [done|].
      rewrite lookup_insert_ne in Hl by done. apply Hk. by eexists.
    - intros k l Hl. destruct (decide (n = k)) as [<-|Hne].
      + rewrite lookup_insert_eq in Hl. by injection Hl as <-.
      + rewrite lookup_insert_ne in Hl by done. by eapply Hv. }
  assert (covered (<[n := outs]> g) outs) as Hcov.
  { intros k l e Hl He. destruct (decide (n = k)) as [<-|Hne].
    - rewrite lookup_insert_eq in Hl. injection Hl as <-. by right.
    - rewrite lookup_insert_ne in Hl by done. left.
      destruct (Hcl k l e Hl He) as [le Hle]. exists le.
      by eapply lookup_weaken. }
  destruct (while_output_nodes_spec fuel outs (<[n := outs]> g) Hs1)
    as (g1 & Hw & Hs2 & Hcl2 & Hsub2); [|done| |].
  { intros e He. by eapply R_step. }
  { eapply Nat.le_lt_trans; [|exact Hfuel]. apply subseteq_size. set_solver. }
  rewrite Hw. simpl.
  destruct (IH g1 Hs2 Hcl2) as (g' & Hf & Hs' & Hcl' & Hsub' & Hkeys); [|done|].
  { intros m Hm. apply Hstarts. by right. }
  exists g'. split; [done|]. split; [done|]. split; [done|].
  split; [by do 2 (etrans; [eassumption|])|].
  intros m [->|Hm]%elem_of_cons; [|by apply Hkeys].
  eapply lookup_weaken_is_Some; [|exact Hsub'].
  eapply lookup_weaken_is_Some; [|exact Hsub2].
  rewrite lookup_insert_eq. by eexists.
Qed.

End build.

Lemma reach_sound_universe env starts k :
  k ∈ universe env starts ∧ reach env starts k → k ∈ universe env starts.
Proof. by intros [? _]. Qed.

Lemma build_graph_spec env starts fuel :
  size (universe env starts) < fuel →
  ∃ g, _build_graph fuel env starts = Done g ∧
       sound env (λ k, k ∈ universe env starts ∧ reach env starts k) g ∧
       closed g ∧ ∀ n, n ∈ starts → is_Some (g !! n).
Proof.
  intros Hfuel.
  destruct (for_start_nodes_spec env (universe env starts)
              (λ k, k ∈ universe env starts ∧ reach env starts k)
              (reach_sound_universe env starts)) with (fuel := fuel)
              (starts := starts) (g := (∅ : gmap node (list node)))
    as (g & Hg & Hs & Hcl & _ & Hkeys).
  - intros k e [HU Hr] He. split; [by eapply get_output_nodes_universe|].
    by eapply reach_step.
  - split; [intros k [l Hl]|intros k l Hl]; by rewrite lookup_empty in Hl.
  - intros k l e Hl. by rewrite lookup_empty in Hl.
  - intros n Hn. split; [|by apply reach_start].
    unfold universe. rewrite elem_of_list_to_set, elem_of_app. by left.
  - done.
  - by exists g.
Qed.

(** *** The walk: termination *)

Lemma unvisited_mark (v : gmap node bool) (k : node) :
  v !! k = Some false → S (unvisited (<[k := true]> v)) = unvisited v.
Proof.
  intros Hk. unfold unvisited.
  rewrite map_filter_insert_False by done.
  rewrite map_filter_delete, map_size_delete_Some.
  - assert (size (filter (λ kv : node * bool, kv.2 = false) v) ≠ 0); [|lia].
    apply map_size_non_empty_iff. intros Hempty.
    assert (filter (λ kv : node * bool, kv.2 = false) v !! k = Some false) as Hf
      by by apply map_lookup_filter_Some.
    by rewrite Hempty, lookup_empty in Hf.
  - exists false. by apply map_lookup_filter_Some.
Qed.

Lemma unvisited_mono (v v' : gmap node bool) :
  (∀ k, v' !! k = Some false → v !! k = Some false) →
  unvisited v' ≤ unvisited v.
Proof.
  intros Hm. apply map_subseteq_size, map_filter_strong_subseteq_ext.
  intros k b [Hb Hk]. simpl in Hb. subst b. split; [done|]. by apply Hm.
Qed.

Lemma unvisited_size (v : gmap node bool) : unvisited v ≤ size v.
Proof. apply map_subseteq_size, map_filter_subseteq. Qed.

Section walk.
Context (g : gmap node (list node)) (g_closed : closed g).

Lemma for_end_nodes_returns f ends w :
  returns g f →
  (∀ e, e ∈ ends → is_Some (g !! e)) → dom (visit w) = dom g →
  unvisited (visit w) ≤ f →
  ∃ w', for_end_nodes (dfs f g) ends w = Done w' ∧ dom (visit w') = dom g ∧
        ∀ k, visit w' !! k = Some false → visit w !! k = Some false.
Proof.
  intros Hrec. revert w. induction ends as [|e ends IH]; intros w Hends Hdom Hfuel.
  { by exists w. }
  assert (is_Some (visit w !! e)) as [b Hb].
  { apply elem_of_dom. rewrite Hdom. apply elem_of_dom, Hends. by left. }
  simpl. unfold dict_getitem. rewrite Hb. simpl.
  assert (∀ e', e' ∈ ends → is_Some (g !! e')) as Hends'
    by (intros e' He'; apply Hends; by right).
  destruct b; simpl.
  { by apply IH. }
  pose proof (unvisited_mark _ _ Hb) as Hmark.
  destruct (Hrec e (mark e w)) as (w1 & Hw1 & Hdom1 & Hmono1).
  - apply Hends. by left.
  - simpl. rewrite dom_insert_lookup_L by by eexists. done.
  - simpl. lia.
  - rewrite Hw1. simpl.
    assert (∀ k, visit w1 !! k = Some false → visit w !! k = Some false) as Hm.
    { intros k Hk. apply Hmono1 in Hk. simpl in Hk.
      destruct (decide (e = k)) as [->|Hne];
        [by rewrite lookup_insert_eq in Hk|by rewrite lookup_insert_ne in Hk]. }
    destruct (IH w1 Hends' Hdom1) as (w' & Hw' & Hdom' & Hmono').
    { pose proof (unvisited_mono _ _ Hm). lia. }
    exists w'. split; [done|]. split; [done|]. intros k Hk. by apply Hm, Hmono'.
Qed.

Lemma dfs_returns f : returns g f.
Proof using g_closed.
  induction f as [|f IH]; intros start w [ends Hends] Hdom Hfuel; [lia|].
  simpl. unfold dict_getitem. rewrite Hends. simpl.
  destruct (for_end_nodes_returns f ends w IH) as (w' & Hw' & Hdom' & Hmono).
  - intros e He. by eapply g_closed.
  - done.
  - lia.
  - rewrite Hw'. simpl. by exists (append start w').
Qed.

Lemma for_roots_returns f starts w :
  (∀ n, n ∈ starts → is_Some (g !! n)) → dom (visit w) = dom g →
  unvisited (visit w) < f →
  ∃ w', for_roots f g starts w = Done w' ∧ dom (visit w') = dom g.
Proof using g_closed.
  revert w. induction starts as [|n starts IH]; intros w Hstarts Hdom Hfuel.
  { by exists w. }
  assert (is_Some (visit w !! n)) as [b Hb].
  { apply elem_of_dom. rewrite Hdom. apply elem_of_dom, Hstarts. by left. }
  simpl. unfold dict_getitem. rewrite Hb. simpl.
  assert (∀ n', n' ∈ starts → is_Some (g !! n')) as Hstarts'
    by (intros n' Hn'; apply Hstarts; by right).
  destruct b; simpl.
  { by apply IH. }
  pose proof (unvisited_mark _ _ Hb) as Hmark.
  destruct (dfs_returns f n (mark n w)) as (w1 & Hw1 & Hdom1 & Hmono1).
  - apply Hstarts. by left.
  - simpl. rewrite dom_insert_lookup_L by by eexists. done.
  - simpl. lia.
  - rewrite Hw1. simpl. apply IH; [done|done|].
    assert (unvisited (visit w1) ≤ unvisited (visit (mark n w))) as Hle
      by by apply unvisited_mono.
    simpl in Hle. lia.
Qed.

End walk.

(** *** The walk: every node once, cycles or not *)

Lemma marked_once_mark e w :
  marked_once w → marked_once (mark e w).
Proof.
  intros [Hnodup Hfin]. split; [done|]. intros k Hk. simpl.
  destruct (decide (e = k)) as [->|Hne]; [by rewrite lookup_insert_eq|].
  rewrite lookup_insert_ne by done. by apply Hfin.
Qed.

Lemma mark_keeps e w k :
  visit w !! k = Some true → visit (mark e w) !! k = Some true.
Proof.
  intros Hk. simpl. destruct (decide (e = k)) as [->|Hne];
    [by rewrite lookup_insert_eq|by rewrite lookup_insert_ne].
Qed.

Section once.
Context (g : gmap node (list node)).

Lemma for_end_nodes_once f ends w w' :
  dfs_once g f →
  for_end_nodes (dfs f g) ends w = Done w' →
  marked_once w →
  marked_once w' ∧ fresh_step (λ _, False) w w'.
Proof.
  intros Hrec. revert w. induction ends as [|e ends IH]; intros w Hloop Hw.
  { injection Hloop as <-. split; [done|]. split; [done|]. by intros; left. }
  simpl in Hloop. unfold dict_getitem in Hloop.
  destruct (visit w !! e) as [b|] eqn:Hb; [|done]. simpl in Hloop.
  destruct b; simpl in Hloop; [by apply (IH w)|].
  destruct (dfs f g e (mark e w)) as [w2| |] eqn:Hdfs; [|done|done].
  simpl in Hloop.
  destruct (Hrec e (mark e w) w2 Hdfs) as (Hw2 & Hm2 & Hn2).
  { by apply marked_once_mark. }
  { simpl. apply lookup_insert_eq. }
  { simpl. intros Hin. apply Hw in Hin. congruence. }
  destruct (IH w2 Hloop Hw2) as (Hw' & Hm' & Hn').
  split; [done|]. split.
  - intros k Hk. by apply Hm', Hm2, mark_keeps.
  - intros k Hk. destruct (Hn' k Hk) as [Hk2|[[]|Hnot]].
    + destruct (Hn2 k Hk2) as [Hin|[->|Hnot]]; [by left| |].
      * right; right. congruence.
      * right; right. intros Hkw. by apply Hnot, mark_keeps.
    + right; right. intros Hkw. by apply Hnot, Hm2, mark_keeps.
Qed.

Lemma dfs_never_twice f : dfs_once g f.
Proof.
  induction f as [|f IH]; intros start w w' Hdfs Hw Hstart Hnin; [done|].
  simpl in Hdfs. unfold dict_getitem in Hdfs.
  destruct (g !! start) as [ends|] eqn:Hends; [|done]. simpl in Hdfs.
  destruct (for_end_nodes (dfs f g) ends w) as [w1| |] eqn:Hloop; [|done|done].
  simpl in Hdfs. injection Hdfs as <-.
  destruct (for_end_nodes_once f ends w w1 IH Hloop Hw)
    as ((Hnodup & Hfin) & Hm & Hn).
  assert (start ∉ sorted_nodes w1) as Hnin1.
  { intros Hin. by destruct (Hn start Hin) as [?|[[]|?]]. }
  split; [split|split]; simpl.
  - apply NoDup_app. split; [done|]. split; [|apply NoDup_singleton].
    by intros k Hin ->%list_elem_of_singleton.
  - intros k [Hin| ->%list_elem_of_singleton]%elem_of_app;
      [by apply Hfin|by apply Hm].
  - done.
  - intros k [Hin| ->%list_elem_of_singleton]%elem_of_app; [|by right; left].
    destruct (Hn k Hin) as [?|[[]|?]]; [by left|by right; right].
Qed.

Lemma for_roots_once f starts w w' :
  for_roots f g starts w = Done w' → marked_once w → marked_once w'.
Proof.
  revert w. induction starts as [|n starts IH]; intros w Hloop Hw.
  { by injection Hloop as <-. }
  simpl in Hloop. unfold dict_getitem in Hloop.
  destruct (visit w !! n) as [b|] eqn:Hb; [|done]. simpl in Hloop.
  destruct b; simpl in Hloop; [by apply (IH w)|].
  destruct (dfs f g n (mark n w)) as [w1| |] eqn:Hdfs; [|done|done].
  simpl in Hloop. apply (IH w1 Hloop).
  apply (dfs_never_twice f n (mark n w) w1 Hdfs).
  - by apply marked_once_mark.
  - simpl. apply lookup_insert_eq.
  - simpl. intros Hin. apply Hw in Hin. congruence.
Qed.

End once.

(** *** The walk: order *)

Lemma path_snoc g k u e : path g k u → edge g u e → path g k e.
Proof.
  induction 1 as [a b Hab|a b c Hab Hbc IH]; intros He.
  - eapply path_step; [done|]. by apply path_edge.
  - eapply path_step; [done|]. by apply IH.
Qed.

Lemma snoc_split {A} (S S1 S2 : list A) (u x : A) :
  S ++ [u] = S1 ++ x :: S2 →
  (S2 = [] ∧ S1 = S ∧ x = u) ∨ ∃ S2', S2 = S2' ++ [u] ∧ S = S1 ++ x :: S2'.
Proof.
  destruct S2 as [|y S2 _] using rev_ind.
  - intros [-> ->]%app_inj_tail. by left.
  - rewrite app_comm_cons, app_assoc. intros [-> ->]%app_inj_tail.
    right. by exists S2.
Qed.

Lemma postorder_snoc g S u :
  postorder g S → (∀ l v, g !! u = Some l → v ∈ l → v ∈ S) →
  postorder g (S ++ [u]).
Proof.
  intros HS Hu S1 x S2 l v Heq Hl Hv.
  destruct (snoc_split _ _ _ _ _ Heq) as [(_ & -> & ->)|(S2' & _ & ->)].
  - by eapply Hu.
  - by eapply HS.
Qed.

Section order.
Context (g : gmap node (list node)) (g_acyclic : acyclic g).

Lemma for_end_nodes_order f u ends w w' :
  dfs_orders g f →
  for_end_nodes (dfs f g) ends w = Done w' →
  (∀ e, e ∈ ends → edge g u e) →
  walk_inv g (λ k, k = u ∨ path g k u) w →
  visit w !! u = Some true → u ∉ sorted_nodes w →
  walk_inv g (λ k, k = u ∨ path g k u) w' ∧
  visit w' !! u = Some true ∧ (u ∉ sorted_nodes w') ∧
  walk_step (λ _, False) (λ _, True) w w' ∧
  ∀ e, e ∈ ends → e ∈ sorted_nodes w'.
Proof using g_acyclic.
  intros Hrec. revert w. induction ends as [|e ends IH];
    intros w Hloop Hedges Hinv Hu Hnin.
  { injection Hloop as <-. split; [done|]. split; [done|]. split; [done|].
    split; [|by intros e ?%elem_of_nil].
    split; [done|]. split; [done|]. split; [by intros; right|by intros; left]. }
  simpl in Hloop. unfold dict_getitem in Hloop.
  destruct (visit w !! e) as [b|] eqn:Hb; [|done]. simpl in Hloop.
  assert (edge g u e) as Hue by (apply Hedges; by left).
  assert (∀ e', e' ∈ ends → edge g u e') as Hedges'
    by (intros e' He'; apply Hedges; by right).
  destruct Hinv as (Hpost & Hnodup & Hfin & Hpend).
  destruct b; simpl in Hloop.
  - (* the end node is marked: on a DAG it is appended already *)
    assert (e ∈ sorted_nodes w) as He.
    { destruct (Hpend e Hb) as [?|[->|Hpath]]; [done| |].
      - exfalso. apply (g_acyclic u). by apply path_edge.
      - exfalso. apply (g_acyclic e). by eapply path_snoc. }
    destruct (IH w Hloop Hedges') as (Hinv' & Hu' & Hnin' & Hstep & Hends);
      [done|done|done|].
    split; [done|]. split; [done|]. split; [done|]. split; [done|].
    intros e' [->|He']%elem_of_cons; [|by apply Hends].
    destruct Hstep as (_ & Hsub & _). by apply Hsub.
  - (* the end node is new: mark it and walk from it *)
    destruct (dfs f g e (mark e w)) as [w2| |] eqn:Hdfs; [|done|done].
    simpl in Hloop.
    assert (e ≠ u) as Hne by (intros ->; congruence).
    destruct (Hrec e (mark e w) w2 Hdfs)
      as (Hpost2 & Hnodup2 & Hfin2 & He2 & Hm2 & Hs2 & Hk2 & Hn2).
    { split; [done|]. split; [done|]. split.
      - intros k Hk. simpl. destruct (decide (e = k)) as [->|?];
          [by rewrite lookup_insert_eq|].
        rewrite lookup_insert_ne by done. by apply Hfin.
      - intros k. simpl. destruct (decide (e = k)) as [->|?]; [by right; left|].
        rewrite lookup_insert_ne by done. intros Hk.
        destruct (Hpend k Hk) as [?|[->|Hpath]]; [by left| |].
        + right; right. by apply path_edge.
        + right; right. by eapply path_snoc. }
    { simpl. apply lookup_insert_eq. }
    { simpl. intros Hin. apply Hfin in Hin. congruence. }
    simpl in Hm2, Hs2, Hk2, Hn2.
    assert (visit w2 !! u = Some true) as Hu2.
    { apply Hm2. by rewrite lookup_insert_ne. }
    assert (u ∉ sorted_nodes w2) as Hnin2.
    { intros Hin. destruct (Hn2 u Hin) as [?|[?|Hnot]]; [done|done|].
      apply Hnot. by rewrite lookup_insert_ne. }
    destruct (IH w2 Hloop Hedges') as (Hinv' & Hu' & Hnin' & Hstep & Hends);
      [|done|done|].
    { split; [done|]. split; [done|]. split; [done|].
      intros k Hk. destruct (Hk2 k Hk) as [?|[Hke Hk1]]; [by left|].
      rewrite lookup_insert_ne in Hk1 by done.
      destruct (Hpend k Hk1) as [?|?]; [left; by apply Hs2|by right]. }
    destruct Hstep as (Hm' & Hs' & Hk' & Hn').
    split; [done|]. split; [done|]. split; [done|]. split.
    + split; [|split; [|split]].
      * intros k Hk. apply Hm', Hm2.
        destruct (decide (e = k)) as [->|?];
          [by rewrite lookup_insert_eq|by rewrite lookup_insert_ne].
      * intros k Hk. by apply Hs', Hs2.
      * intros k Hk. destruct (Hk' k Hk) as [?|[_ Hk2']]; [by left|].
        destruct (Hk2 k Hk2') as [?|[Hke Hk1]]; [left; by apply Hs'|].
        right. split; [done|]. by rewrite lookup_insert_ne in Hk1.
      * intros k Hk. destruct (Hn' k Hk) as [Hk2'|[[]|Hnot]].
        -- destruct (Hn2 k Hk2') as [?|[->|Hnot]]; [by left| |].
           ++ right; right. congruence.
           ++ right; right. intros Hkw. apply Hnot.
              destruct (decide (e = k)) as [->|?];
                [by rewrite lookup_insert_eq|by rewrite lookup_insert_ne].
        -- right; right. intros Hkw. apply Hnot, Hm2.
           destruct (decide (e = k)) as [->|?];
             [by rewrite lookup_insert_eq|by rewrite lookup_insert_ne].
    + intros e' [->|He']%elem_of_cons; [by apply Hs'|by apply Hends].
Qed.

Lemma dfs_order f : dfs_orders g f.
Proof using g_acyclic.
  induction f as [|f IH]; intros start w w' Hdfs Hinv Hstart Hnin; [done|].
  simpl in Hdfs. unfold dict_getitem in Hdfs.
  destruct (g !! start) as [ends|] eqn:Hends; [|done]. simpl in Hdfs.
  destruct (for_end_nodes (dfs f g) ends w) as [w1| |] eqn:Hloop; [|done|done].
  simpl in Hdfs. injection Hdfs as <-.
  destruct (for_end_nodes_order f start ends w w1 IH Hloop)
    as ((Hpost & Hnodup & Hfin & Hpend) & Hs1 & Hn1 & (Hm & Hs & Hk & Hn) & Hall);
    [|done|done|done|].
  { intros e He. by exists ends. }
  simpl. split; [|split; [|split; [|split]]].
  - apply postorder_snoc; [done|]. intros l v Hl Hv.
    rewrite Hends in Hl. injection Hl as <-. by apply Hall.
  - apply NoDup_app. split; [done|]. split; [|apply NoDup_singleton].
    by intros k Hin ->%list_elem_of_singleton.
  - intros k [Hin| ->%list_elem_of_singleton]%elem_of_app; [by apply Hfin|done].
  - rewrite elem_of_app, list_elem_of_singleton. by right.
  - split; [done|]. split; [|split]; simpl.
    + intros k Hk0. rewrite elem_of_app. left. by apply Hs.
    + intros k Hk1. rewrite elem_of_app, list_elem_of_singleton.
      destruct (decide (k = start)) as [->|Hne]; [by left; right|].
      destruct (Hk k Hk1) as [?|[_ ?]]; [by left; left|by right].
    + intros k [Hk1| ->%list_elem_of_singleton]%elem_of_app; [|by right; left].
      destruct (Hn k Hk1) as [?|[[]|?]]; [by left|by right; right].
Qed.

Lemma for_roots_order f starts w w' :
  for_roots f g starts w = Done w' →
  walk_inv g (λ _, False) w →
  walk_inv g (λ _, False) w' ∧
  (∀ k, k ∈ sorted_nodes w → k ∈ sorted_nodes w') ∧
  ∀ n, n ∈ starts → n ∈ sorted_nodes w'.
Proof using g_acyclic.
  revert w. induction starts as [|n starts IH]; intros w Hloop Hinv.
  { injection Hloop as <-. split; [done|]. split; [done|]. by intros n ?%elem_of_nil. }
  simpl in Hloop. unfold dict_getitem in Hloop.
  destruct (visit w !! n) as [b|] eqn:Hb; [|done]. simpl in Hloop.
  destruct b; simpl in Hloop.
  - destruct (IH w Hloop Hinv) as (Hinv' & Hsub & Hstarts).
    split; [done|]. split; [done|].
    intros m [->|Hm]%elem_of_cons; [|by apply Hstarts].
    destruct Hinv as (_ & _ & _ & Hpend). apply Hsub.
    by destruct (Hpend n Hb).
  - destruct (dfs f g n (mark n w)) as [w1| |] eqn:Hdfs; [|done|done].
    simpl in Hloop. destruct Hinv as (Hpost & Hnodup & Hfin & Hpend).
    destruct (dfs_order f n (mark n w) w1 Hdfs)
      as (Hpost1 & Hnodup1 & Hfin1 & Hn1 & Hm1 & Hs1 & Hk1 & _).
    { split; [done|]. split; [done|]. split.
      - intros k Hk. simpl. destruct (decide (n = k)) as [->|?];
          [by rewrite lookup_insert_eq|].
        rewrite lookup_insert_ne by done. by apply Hfin.
      - intros k. simpl. destruct (decide (n = k)) as [->|?]; [by right; left|].
        rewrite lookup_insert_ne by done. intros Hk.
        by destruct (Hpend k Hk); [left|]. }
    { simpl. apply lookup_insert_eq. }
    { simpl. intros Hin. apply Hfin in Hin. congruence. }
    simpl in Hm1, Hs1, Hk1.
    destruct (IH w1 Hloop) as (Hinv' & Hsub & Hstarts).
    { split; [done|]. split; [done|]. split; [done|].
      intros k Hk. destruct (Hk1 k Hk) as [?|[Hne Hkw]]; [by left|].
      rewrite lookup_insert_ne in Hkw by done.
      destruct (Hpend k Hkw); [left; by apply Hs1|done]. }
    split; [done|]. split; [intros k Hk; by apply Hsub, Hs1|].
    intros m [->|Hm]%elem_of_cons; [by apply Hsub|by apply Hstarts].
Qed.

End order.

Lemma acyclic_rank g (rk : node → nat) :
  (∀ u v, edge g u v → rk v < rk u) → acyclic g.
Proof.
  intros Hrk.
  assert (∀ u v, path g u v → rk v < rk u) as Hpath.
  { induction 1 as [a b Hab|a b c Hab Hbc IH]; [by apply Hrk|].
    apply Hrk in Hab. lia. }
  intros v Hv. apply Hpath in Hv. lia.
Qed.

Lemma reach_no_outputs env starts k :
  (∀ n, n ∈ starts → get_output_nodes env n = []) →
  reach env starts k → k ∈ starts.
Proof.
  intros Hnone. induction 1 as [n Hn|n e Hn IH He]; [done|].
  rewrite (Hnone n IH) in He. by apply elem_of_nil in He.
Qed.

Lemma postorder_precedes g S u v l :
  postorder g S → u ∈ S → g !! u = Some l → v ∈ l → precedes u v (reverse S).
Proof.
  intros Hpost Hu Hl Hv.
  apply list_elem_of_split in Hu as (S1 & S2 & ->).
  pose proof (Hpost S1 u S2 l v eq_refl Hl Hv) as Hv1.
  apply list_elem_of_split in Hv1 as (A & B & ->).
  exists (reverse S2), (reverse B), (reverse A).
  rewrite reverse_app, reverse_cons, reverse_app, reverse_cons.
  by rewrite <-!app_assoc.
Qed.

Lemma filter_none {A} (P : A → Prop) `{∀ x, Decision (P x)} (l : list A) :
  (∀ x, x ∈ l → ¬ P x) → filter P l = [].
Proof.
  induction l as [|x l IH]; intros Hl; [done|].
  rewrite filter_cons_False by (apply Hl; by left).
  apply IH. intros y Hy. apply Hl. by right.
Qed.

Lemma truthy_false {A} (l : list A) : truthy l = false ↔ l = [].
Proof. by destruct l. Qed.

End TopoFacts.

(** ** The topological sort: what the specification claims *)

Module TopoClaims.
Import Py TopologicalSort TopoFacts SortFrames.

(** C8, as the specification states it, fails: the early returns test
    the pipes the views hold, not the connections of the ports. Where A
    is connected to B and no pipe is drawn, B has a connected input
    port, and the sort with no start node and the candidate [B] returns
    [B], not the empty sequence. *)
Lemma unpiped_candidate_is_returned : ¬ degenerate_claim.
Proof.
  intros Hclaim. destruct (Hclaim 5 nopipe) as [Hnone _].
  specialize (Hnone ["B"]).
  assert (topological_sort 5 nopipe [] ["B"] = Done []) as Hbad.
  { apply Hnone. intros n Hn. apply list_elem_of_singleton in Hn as ->.
    reflexivity. }
  vm_compute in Hbad. discriminate Hbad.
Qed.

Lemma has_pipes_connected (ps : list PortObj) :
  (∀ p, p ∈ ps → has_pipes p = truthy (port_peers p)) →
  existsb has_pipes ps = existsb (λ p, truthy (port_peers p)) ps.
Proof.
  induction ps as [|p ps IH]; intros Hps; [done|]. simpl.
  rewrite (Hps p) by by left. f_equal. apply IH. intros q Hq. apply Hps. by right.
Qed.

Lemma pipes_match_input env n :
  pipes_match env n → _has_input_node env n = has_connected_input env n.
Proof.
  intros Hm. apply has_pipes_connected. intros p Hp. apply Hm.
  rewrite elem_of_app. by left.
Qed.

Lemma pipes_match_output env n :
  pipes_match env n → _has_output_node env n = has_connected_output env n.
Proof.
  intros Hm. apply has_pipes_connected. intros p Hp. apply Hm.
  rewrite elem_of_app. by right.
Qed.

(** C8, amended: the degenerate inputs of [topological_sort], with "has
    a connected port" read as the code tests it, "the view holds a pipe
    on a port". With no start node and no candidate, or candidates that
    all have a pipe on an input port, it returns the empty sequence;
    with start nodes none of which has a pipe on an output port it
    returns the start nodes as they were given; so a single node without
    a pipe, given as its own start node, comes back alone. No fuel is
    needed. For nodes whose views hold a pipe on exactly their connected
    ports, this is the statement of the specification on connected
    ports. *)
Theorem degenerate_inputs (fuel : nat) (env : Env) :
  topological_sort fuel env [] [] = Done [] ∧
  (∀ all_nodes,
     (∀ n, n ∈ all_nodes → _has_input_node env n = true) →
     topological_sort fuel env [] all_nodes = Done []) ∧
  (∀ start_nodes all_nodes,
     start_nodes ≠ [] →
     (∀ n, n ∈ start_nodes → _has_output_node env n = false) →
     topological_sort fuel env start_nodes all_nodes = Done start_nodes) ∧
  (∀ n all_nodes,
     _has_input_node env n = false → _has_output_node env n = false →
     topological_sort fuel env [n] all_nodes = Done [n]) ∧
  (∀ all_nodes,
     (∀ n, n ∈ all_nodes → pipes_match env n) →
     (∀ n, n ∈ all_nodes → has_connected_input env n = true) →
     topological_sort fuel env [] all_nodes = Done []) ∧
  (∀ start_nodes all_nodes,
     start_nodes ≠ [] →
     (∀ n, n ∈ start_nodes → pipes_match env n) →
     (∀ n, n ∈ start_nodes → has_connected_output env n = false) →
     topological_sort fuel env start_nodes all_nodes = Done start_nodes).
Proof.
  assert (∀ start_nodes all_nodes,
     start_nodes ≠ [] →
     (∀ n, n ∈ start_nodes → _has_output_node env n = false) →
     topological_sort fuel env start_nodes all_nodes = Done start_nodes) as Hverbatim.
  { intros start_nodes all_nodes Hne Hout. unfold topological_sort, roots.
    destruct start_nodes as [|n rest]; [done|]. simpl truthy. cbv iota. simpl negb.
    cbv iota. rewrite filter_none; [done|].
    intros x Hx. rewrite (Hout x Hx). done. }
  assert (∀ all_nodes,
     (∀ n, n ∈ all_nodes → _has_input_node env n = true) →
     topological_sort fuel env [] all_nodes = Done []) as Hnone.
  { intros all_nodes Hin. unfold topological_sort, roots. simpl.
    rewrite filter_none; [done|]. intros x Hx. by rewrite (Hin x Hx). }
  split; [done|]. split; [done|]. split; [done|]. split; [|split].
  - intros n all_nodes _ Hout. apply Hverbatim; [done|].
    by intros m ->%list_elem_of_singleton.
  - intros all_nodes Hm Hin. apply Hnone. intros n Hn.
    rewrite pipes_match_input by by apply Hm. by apply Hin.
  - intros start_nodes all_nodes Hne Hm Hout. apply Hverbatim; [done|].
    intros n Hn. rewrite pipes_match_output by by apply Hm. by apply Hout.
Qed.

Lemma degenerate_inputs_witness :
  topological_sort 0 isolated ["N"] [] = Done ["N"] ∧
  topological_sort 0 diamond [] ["B"; "C"; "D"] = Done [] ∧
  (∀ n, n ∈ ["B"; "C"; "D"] → pipes_match diamond n) ∧
  (∀ n, n ∈ ["B"; "C"; "D"] → has_connected_input diamond n = true).
Proof.
  destruct (degenerate_inputs 0 isolated) as (_ & _ & _ & Hone & _).
  destruct (degenerate_inputs 0 diamond) as (_ & _ & _ & _ & Hnone & _).
  assert (∀ n, n ∈ ["B"; "C"; "D"] → pipes_match diamond n) as Hm.
  { intros n Hn p Hp.
    repeat (apply elem_of_cons in Hn as [->|Hn];
      [vm_compute in Hp;
       repeat (apply elem_of_cons in Hp as [->|Hp]; [reflexivity|]);
       by apply elem_of_nil in Hp|]).
    by apply elem_of_nil in Hn. }
  assert (∀ n, n ∈ ["B"; "C"; "D"] → has_connected_input diamond n = true) as Hin.
  { intros n Hn.
    repeat (apply elem_of_cons in Hn as [->|Hn]; [reflexivity|]).
    by apply elem_of_nil in Hn. }
  split; [apply Hone; reflexivity|]. split; [by apply Hnone|].
  split; [exact Hm|exact Hin].
Defined.

(** C9: [topological_sort] terminates on every finite graph, with or
    without cycles: given fuel for one more step than there are nodes,
    every loop of it returns, and no dictionary is read at a missing
    key. Where the walk is run (a start node has a pipe on an output
    port), [dfs] is called on no node twice: the sequence holds no node
    twice. *)
Theorem topological_sort_terminates (env : Env)
    (start_nodes all_nodes : list node) (fuel : nat) :
  enough_fuel env start_nodes all_nodes ≤ fuel →
  ∃ l, topological_sort fuel env start_nodes all_nodes = Done l ∧
       ((∃ n, n ∈ roots env start_nodes all_nodes ∧
              _has_output_node env n = true) → NoDup l).
Proof.
  unfold enough_fuel, topological_sort. intros Hfuel.
  set (starts := roots env start_nodes all_nodes) in *.
  destruct (truthy starts) eqn:Hstarts; simpl.
  2:{ exists []. split; [done|]. intros _. constructor. }
  destruct (truthy (filter _ starts)) eqn:Hout; simpl.
  2:{ exists starts. split; [done|]. intros (n & Hn & Hb).
      apply truthy_false in Hout.
      assert (n ∈ filter (λ n, _has_output_node env n = true) starts) as Hin
        by by apply list_elem_of_filter.
      rewrite Hout in Hin. by apply elem_of_nil in Hin. }
  destruct (build_graph_spec env starts fuel) as (g & Hg & Hs & Hcl & Hkeys); [lia|].
  rewrite Hg. simpl. case_bool_decide.
  { exists []. split; [done|]. intros _. constructor. }
  destruct (for_roots_returns g Hcl fuel starts (mkWalk ((λ _, false) <$> g) []))
    as (w & Hw & _).
  - done.
  - simpl. apply dom_fmap_L.
  - simpl. eapply Nat.le_lt_trans; [apply unvisited_size|].
    rewrite map_size_fmap, <-size_dom.
    eapply Nat.le_lt_trans; [|exact Hfuel].
    apply subseteq_size.
    eapply (sound_dom env (universe env starts)); [|exact Hs]. by intros k [? _].
  - rewrite Hw. simpl. eexists. split; [done|]. intros _.
    rewrite reverse_Permutation.
    apply (for_roots_once g fuel starts _ w Hw).
    split; [constructor|]. by intros k ?%elem_of_nil.
Qed.

Lemma topological_sort_terminates_witness :
  enough_fuel cycle ["A"] [] ≤ 3 ∧
  topological_sort 3 cycle ["A"] [] = Done ["A"; "B"].
Proof.
  assert (enough_fuel cycle ["A"] [] ≤ 3) as Hfuel by (vm_compute; lia).
  split; [exact Hfuel|].
  destruct (topological_sort_terminates cycle ["A"] [] 3 Hfuel) as (l & Hl & _).
  rewrite Hl. vm_compute in Hl. by injection Hl as ->.
Defined.



Lemma diamond_graph_ranked u v :
  edge diamond_graph u v → diamond_rank v < diamond_rank u.
Proof.
  intros (l & Hl & Hv). unfold diamond_graph in Hl.
  destruct (decide (u = "A")) as [->|HA].
  { rewrite lookup_insert_eq in Hl. injection Hl as <-.
    repeat (apply elem_of_cons in Hv as [->|Hv]; [vm_compute; lia|]).
    by apply elem_of_nil in Hv. }
  rewrite lookup_insert_ne in Hl by done.
  destruct (decide (u = "B")) as [->|HB].
  { rewrite lookup_insert_eq in Hl. injection Hl as <-.
    repeat (apply elem_of_cons in Hv as [->|Hv]; [vm_compute; lia|]).
    by apply elem_of_nil in Hv. }
  rewrite lookup_insert_ne in Hl by done.
  destruct (decide (u = "C")) as [->|HC].
  { rewrite lookup_insert_eq in Hl. injection Hl as <-.
    repeat (apply elem_of_cons in Hv as [->|Hv]; [vm_compute; lia|]).
    by apply elem_of_nil in Hv. }
  rewrite lookup_insert_ne in Hl by done.
  destruct (decide (u = "D")) as [->|HD].
  { rewrite lookup_insert_eq in Hl. injection Hl as <-.
    by apply elem_of_nil in Hv. }
  rewrite lookup_insert_ne in Hl by done. by rewrite lookup_empty in Hl.
Qed.


End TopoClaims.

(** ** The commands one by one: frames, round trips, errors *)

Module CommandLaws.
Import Py Commands CommandSpecs CommandFacts OpFacts LawFacts CommandFrames.

(** *** The port commands *)

Lemma append_name_lookup_ne k name (d : gmap string (list string)) j :
  k ≠ j → append_name k name d !! j = d !! j.
Proof. intros Hne. by rewrite append_name_insert, lookup_insert_ne. Qed.

Lemma removed_lookup_ne k name (d : gmap string (list string)) j :
  k ≠ j → removed k name d !! j = d !! j.
Proof. intros Hne. rewrite removed_lookup. by destruct (decide (k = j)). Qed.

Lemma only_the_link_connect source target s :
  only_the_link source target s (connect_state source target s).
Proof.
  split; [done|]. split; [done|]. split; [done|]. split; [done|].
  split; [apply visible_connect|]. split.
  - intros P Hs Ht. unfold connect_state, call, set_conns. simpl.
    by rewrite !lookup_insert_ne.
  - intros P k Hs Ht. rewrite conns_connect. cbv zeta.
    destruct (decide (target = P)) as [->|HtP], (decide (source = P)) as [->|HsP].
    + rewrite !append_name_lookup_ne; [done| |]; intros <-; naive_solver.
    + rewrite append_name_lookup_ne; [done|]. intros <-; naive_solver.
    + rewrite append_name_lookup_ne; [done|]. intros <-; naive_solver.
    + done.
Qed.

Lemma only_the_link_disconnect source target s :
  only_the_link source target s (disconnect_state source target s).
Proof.
  split; [done|]. split; [done|]. split; [done|]. split; [done|].
  split; [apply visible_disconnect|]. split.
  - intros P Hs Ht. unfold disconnect_state, call, set_conns. simpl.
    by rewrite !lookup_insert_ne.
  - intros P k Hs Ht. rewrite conns_disconnect. cbv zeta.
    destruct (decide (target = P)) as [->|HtP], (decide (source = P)) as [->|HsP].
    + rewrite !removed_lookup_ne; [done| |]; intros <-; naive_solver.
    + rewrite removed_lookup_ne; [done|]. intros <-; naive_solver.
    + rewrite removed_lookup_ne; [done|]. intros <-; naive_solver.
    + done.
Qed.

(** X1: a port command changes the two connection lists of its link and
    nothing else. [PortConnectedCmd.redo] and [PortDisconnectedCmd.undo]
    return on every state and leave the nodes, the properties, the
    views, the visibility flags, the other ports and the other lists of
    the two ports as they were, and call [connect_to] on the view once;
    [PortConnectedCmd.undo] and [PortDisconnectedCmd.redo] do the same
    with one call of [disconnect_from], made whether or not a name was
    removed. *)
Theorem port_commands_frame (source target : Port) (s : State) :
  (∃ s', PortConnectedCmd_redo source target s = Ok s' ∧
         PortDisconnectedCmd_undo source target s = Ok s' ∧
         calls s' = calls s ++ [pipe_connect source target] ∧
         only_the_link source target s s') ∧
  (∃ s', PortConnectedCmd_undo source target s = Ok s' ∧
         PortDisconnectedCmd_redo source target s = Ok s' ∧
         calls s' = calls s ++ [pipe_disconnect source target] ∧
         only_the_link source target s s').
Proof.
  split.
  - exists (connect_state source target s). split; [apply connect_eq|].
    split; [apply undo_disconnect_eq|]. split; [done|].
    apply only_the_link_connect.
  - exists (disconnect_state source target s). split; [apply disconnect_eq|].
    split; [apply redo_disconnect_eq|]. split; [done|].
    apply only_the_link_disconnect.
Qed.

(** X2: a connect and then its undo. [PortConnectedCmd.redo] followed by
    [PortConnectedCmd.undo] leaves every name as often in every list as
    it was, and every list as it was when neither port listed the other;
    but the two keys the redo read stay in the dictionaries, also when
    they were not there before. *)
Theorem connect_then_undo (source target : Port) (s : State) :
  ∃ s1 s2,
    PortConnectedCmd_redo source target s = Ok s1 ∧
    PortConnectedCmd_undo source target s1 = Ok s2 ∧
    (∀ P k x, count x (listed s2 P k) = count x (listed s P k)) ∧
    (port_name target ∉ listed s source (port_node target) →
     port_name source ∉ listed s target (port_node source) →
     ∀ P k, listed s2 P k = listed s P k) ∧
    is_Some (conns s2 source !! port_node target) ∧
    is_Some (conns s2 target !! port_node source).
Proof.
  exists (connect_state source target s),
    (disconnect_state source target (connect_state source target s)).
  split; [apply connect_eq|]. split; [apply disconnect_eq|].
  split; [|split; [|split]].
  - intros P k x. rewrite count_listed_disconnect, count_listed_connect.
    repeat case_decide; lia.
  - intros Ht Hs P k. rewrite listed_disconnect. cbv zeta.
    rewrite !listed_connect.
    destruct (decide (source = P ∧ port_node target = k)) as [[HP Hk]|HA];
      destruct (decide (target = P ∧ port_node source = k)) as [[HP' Hk']|HB].
    + subst P k target. rewrite <-app_assoc.
      rewrite remove_first_app_r by done. simpl.
      destruct (decide (port_name source = port_name source)); [|done].
      by apply remove_first_snoc.
    + subst P k. rewrite app_nil_r. by apply remove_first_snoc.
    + subst P k. by apply remove_first_snoc.
    + by rewrite app_nil_r.
  - apply disconnect_keys, connect_keys. right; by left.
  - apply disconnect_keys, connect_keys. right; by right.
Qed.

(** X3: a disconnect and then its undo. For two distinct ports,
    [PortDisconnectedCmd.redo] followed by [PortDisconnectedCmd.undo]
    leaves each port listing the other at the end of its list: a name
    that was listed moves to the end, and a name that was not listed is
    there now, so undoing a disconnect of two ports that were not
    connected connects them. The other lists are as they were. *)
Theorem disconnect_then_undo (source target : Port) (s : State) :
  source ≠ target →
  ∃ s1 s2,
    PortDisconnectedCmd_redo source target s = Ok s1 ∧
    PortDisconnectedCmd_undo source target s1 = Ok s2 ∧
    listed s2 source (port_node target) =
      remove_first (port_name target) (listed s source (port_node target))
      ++ [port_name target] ∧
    listed s2 target (port_node source) =
      remove_first (port_name source) (listed s target (port_node source))
      ++ [port_name source] ∧
    (∀ P k, ¬ (P = source ∧ k = port_node target) →
            ¬ (P = target ∧ k = port_node source) →
            listed s2 P k = listed s P k).
Proof.
  intros Hne.
  exists (disconnect_state source target s),
    (connect_state source target (disconnect_state source target s)).
  split; [apply redo_disconnect_eq|]. split; [apply undo_disconnect_eq|].
  split; [|split].
  - rewrite listed_connect, listed_disconnect. cbv zeta.
    repeat case_decide; try naive_solver. by rewrite app_nil_r.
  - rewrite listed_connect, listed_disconnect. cbv zeta.
    repeat case_decide; naive_solver.
  - intros P k HA HB. rewrite listed_connect, listed_disconnect. cbv zeta.
    repeat case_decide; try naive_solver. by rewrite app_nil_r.
Qed.

Lemma disconnect_then_undo_witness :
  out_A ≠ in_B ∧
  ∃ s1 s2,
    PortDisconnectedCmd_redo out_A in_B unlinked = Ok s1 ∧
    PortDisconnectedCmd_undo out_A in_B s1 = Ok s2 ∧
    listed unlinked out_A "B" = [] ∧ listed s2 out_A "B" = ["in"] ∧
    listed unlinked in_B "A" = [] ∧ listed s2 in_B "A" = ["out"].
Proof.
  assert (out_A ≠ in_B) as Hne by done.
  split; [exact Hne|].
  destruct (disconnect_then_undo out_A in_B unlinked Hne)
    as (s1 & s2 & H1 & H2 & Hs & Ht & _).
  exists s1, s2. split; [exact H1|]. split; [exact H2|].
  split; [reflexivity|]. split; [exact Hs|]. split; [reflexivity|exact Ht].
Defined.

(** X4: nothing stops a port from being connected to itself:
    [PortConnectedCmd.redo] on one port as source and as target returns
    and appends the port's name twice to its list under its own node
    id, and [PortConnectedCmd.undo] takes two occurrences away. *)
Theorem self_connection (P : Port) (s : State) :
  ∃ s1 s2,
    PortConnectedCmd_redo P P s = Ok s1 ∧
    listed s1 P (port_node P) =
      listed s P (port_node P) ++ [port_name P; port_name P] ∧
    PortConnectedCmd_undo P P s = Ok s2 ∧
    listed s2 P (port_node P) =
      remove_first (port_name P)
        (remove_first (port_name P) (listed s P (port_node P))).
Proof.
  exists (connect_state P P s), (disconnect_state P P s).
  split; [apply connect_eq|]. split; [|split; [apply disconnect_eq|]].
  - rewrite listed_connect. repeat case_decide; try naive_solver.
    by rewrite <-app_assoc.
  - rewrite listed_disconnect. cbv zeta. repeat case_decide; naive_solver.
Qed.

(** *** PropertyChangedCmd *)

Lemma state_eta s :
  mkState (nodes s) (properties s) (ports s) (views s) (prop_bin s) (calls s) = s.
Proof. by destruct s. Qed.

Lemma py_ne_same v : py_ne v v = false.
Proof. apply bool_decide_eq_false_2. by intros H. Qed.

Lemma py_ne_true a b : a ≠ b → py_ne a b = true.
Proof. intros H. by apply bool_decide_eq_true_2. Qed.

Lemma set_node_prop_eq node name value s :
  set_node_prop node name value s =
  mkState (nodes s) (<[(node, name) := value]> (properties s)) (ports s)
    (<[node := synced_view name value (node_view s node)]> (views s))
    (prop_bin s) (calls s).
Proof. done. Qed.

Lemma synced_view_again name value view :
  synced_view name value (synced_view name value view) =
  synced_view name value view.
Proof.
  destruct view as [ws ps attrs]. unfold synced_view.
  cbn [widgets view_properties view_attrs].
  destruct ws as [ws|].
  - destruct (ws !! name) as [cur|] eqn:Hcur;
      [destruct (py_ne cur value) eqn:Hne|];
      destruct (bool_decide (name ∈ ps)) eqn:Hps;
      repeat progress
        (cbn [widgets view_properties view_attrs];
         rewrite ?lookup_insert_eq, ?Hcur, ?py_ne_same, ?Hne, ?Hps,
           ?insert_insert_eq);
      done.
  - destruct (bool_decide (name ∈ ps)) eqn:Hps;
      repeat progress
        (cbn [widgets view_properties view_attrs];
         rewrite ?Hps, ?insert_insert_eq);
      done.
Qed.

Lemma set_node_prop_again node name value s :
  set_node_prop node name value (set_node_prop node name value s) =
  set_node_prop node name value s.
Proof.
  rewrite !set_node_prop_eq. simpl. unfold node_view at 1. simpl.
  rewrite lookup_insert_eq. simpl.
  by rewrite synced_view_again, !insert_insert_eq.
Qed.

Lemma set_node_prop_bin node name value c b t :
  set_node_prop node name value (call c (set_prop_bin b t)) =
  call c (set_prop_bin b (set_node_prop node name value t)).
Proof. done. Qed.

Lemma update_prop_bin_cases node name value t t' :
  update_prop_bin node name value t = Ok t' →
  t' = t ∨
  ∃ w, prop_bin t !! node = Some w ∧
       t' = call (bin_set_value node name value)
              (set_prop_bin (<[node := <[name := value]> w]> (prop_bin t)) t).
Proof.
  unfold update_prop_bin. destruct (prop_bin t !! node) as [w|] eqn:Hw.
  - destruct (w !! name) as [cur|]; [|done].
    destruct (py_ne cur value); intros [= <-]; [right; by exists w|by left].
  - intros [= <-]. by left.
Qed.

Lemma update_prop_bin_frame node name value t t' :
  update_prop_bin node name value t = Ok t' →
  nodes t' = nodes t ∧ properties t' = properties t ∧ ports t' = ports t ∧
  views t' = views t ∧
  ∀ n', n' ≠ node → prop_bin t' !! n' = prop_bin t !! n'.
Proof.
  intros [->|(w & Hw & ->)]%update_prop_bin_cases; [done|].
  repeat split. intros n' Hn. simpl. by rewrite lookup_insert_ne.
Qed.

(** Once the bin shows a value, showing it again does nothing. *)
Lemma update_prop_bin_again node name value t t' :
  update_prop_bin node name value t = Ok t' →
  update_prop_bin node name value t' = Ok t'.
Proof.
  intros Ht. pose proof Ht as [->|(w & Hw & ->)]%update_prop_bin_cases; [done|].
  unfold update_prop_bin. simpl.
  by rewrite lookup_insert_eq, lookup_insert_eq, py_ne_same.
Qed.

Lemma set_node_prop_update node name value t t' :
  update_prop_bin node name value t = Ok t' →
  set_node_prop node name value t = t →
  set_node_prop node name value t' = t'.
Proof.
  intros [->|(w & Hw & ->)]%update_prop_bin_cases Hfix; [done|].
  by rewrite set_node_prop_bin, Hfix.
Qed.

(** X5: a property change that is run again changes nothing. When
    [PropertyChangedCmd.redo] has returned, a second [redo] returns the
    state as the first left it, with no further call on the property
    bin; the same holds of [undo]. *)
Theorem property_change_twice (node name : string) (old_val new_val : Value)
    (s s1 : State) :
  (PropertyChangedCmd_redo node name old_val new_val s = Ok s1 →
   PropertyChangedCmd_redo node name old_val new_val s1 = Ok s1) ∧
  (PropertyChangedCmd_undo node name old_val new_val s = Ok s1 →
   PropertyChangedCmd_undo node name old_val new_val s1 = Ok s1).
Proof.
  unfold PropertyChangedCmd_redo, PropertyChangedCmd_undo.
  destruct (py_ne old_val new_val); [|by split; intros [= <-]].
  split; intros Hrun.
  - rewrite (set_node_prop_update _ _ _ _ _ Hrun (set_node_prop_again _ _ _ _)).
    by eapply update_prop_bin_again.
  - rewrite (set_node_prop_update _ _ _ _ _ Hrun (set_node_prop_again _ _ _ _)).
    by eapply update_prop_bin_again.
Qed.

Lemma property_change_twice_witness :
  ∃ s1,
    PropertyChangedCmd_redo "n" "size" (VInt 1) (VInt 2) sized_graph = Ok s1 ∧
    PropertyChangedCmd_redo "n" "size" (VInt 1) (VInt 2) s1 = Ok s1 ∧
    calls s1 = [bin_set_value "n" "size" (VInt 2)].
Proof.
  destruct (PropertyChangedCmd_redo "n" "size" (VInt 1) (VInt 2) sized_graph)
    as [s1|] eqn:Hrun; [|by vm_compute in Hrun].
  exists s1. split; [reflexivity|]. split.
  - exact (proj1 (property_change_twice "n" "size" (VInt 1) (VInt 2)
                    sized_graph s1) Hrun).
  - vm_compute in Hrun. by injection Hrun as <-.
Defined.

(** X6: a property change writes one property of the model. When the
    two values differ and [PropertyChangedCmd.redo] returns, the model
    has the new value for the property and is otherwise as it was, and
    so are the views and the rows of the bin of the other nodes; [undo]
    does the same with the old value. *)
Theorem property_change_writes_one (node name : string)
    (old_val new_val : Value) (s s1 : State) :
  old_val ≠ new_val →
  (PropertyChangedCmd_redo node name old_val new_val s = Ok s1 →
   model s1 = mkModel (nodes s) (<[(node, name) := new_val]> (properties s))
                (ports s) ∧
   ∀ n', n' ≠ node →
     views s1 !! n' = views s !! n' ∧ prop_bin s1 !! n' = prop_bin s !! n') ∧
  (PropertyChangedCmd_undo node name old_val new_val s = Ok s1 →
   model s1 = mkModel (nodes s) (<[(node, name) := old_val]> (properties s))
                (ports s) ∧
   ∀ n', n' ≠ node →
     views s1 !! n' = views s !! n' ∧ prop_bin s1 !! n' = prop_bin s !! n').
Proof.
  intros Hne. unfold PropertyChangedCmd_redo, PropertyChangedCmd_undo.
  rewrite (py_ne_true _ _ Hne).
  split; intros (Hn & Hp & Hpo & Hv & Hb)%update_prop_bin_frame.
  - split; [unfold model; by rewrite Hn, Hp, Hpo|].
    intros n' Hn'. rewrite Hv, (Hb n' Hn'). split; [|done].
    simpl. by rewrite lookup_insert_ne.
  - split; [unfold model; by rewrite Hn, Hp, Hpo|].
    intros n' Hn'. rewrite Hv, (Hb n' Hn'). split; [|done].
    simpl. by rewrite lookup_insert_ne.
Qed.

Lemma property_change_writes_one_witness :
  VInt 1 ≠ VInt 2 ∧
  ∃ s1,
    PropertyChangedCmd_redo "n" "size" (VInt 1) (VInt 2) sized_graph = Ok s1 ∧
    get_property "n" "size" s1 = VInt 2 ∧
    get_property "n" "pos" s1 = VPos 0 0.
Proof.
  assert (VInt 1 ≠ VInt 2) as Hne by done.
  split; [exact Hne|].
  destruct (PropertyChangedCmd_redo "n" "size" (VInt 1) (VInt 2) sized_graph)
    as [s1|] eqn:Hrun; [|by vm_compute in Hrun].
  exists s1. split; [reflexivity|].
  destruct (proj1 (property_change_writes_one "n" "size" (VInt 1) (VInt 2)
                     sized_graph s1 Hne) Hrun) as [Hmodel _].
  apply (f_equal m_properties) in Hmodel. simpl in Hmodel.
  unfold get_property. rewrite Hmodel. by split.
Defined.

(** X7: a property change built on a state and run on it is taken back
    by its undo. For a property the node has, when the redo of
    [PropertyChangedCmd(node, name, value)] returns, its undo returns
    too and the model is what it was when the command was built. *)
Theorem property_change_round_trip (node name : string) (value : Value)
    (s s1 : State) :
  is_Some (properties s !! (node, name)) →
  redo (PropertyChangedCmd_init node name value s) s = Ok s1 →
  ∃ s2, undo (PropertyChangedCmd_init node name value s) s1 =
          Ok (PropertyChangedCmd_init node name value s, s2) ∧
        model s2 = model s.
Proof.
  intros [old Hold]. unfold PropertyChangedCmd_init, get_property.
  rewrite Hold. simpl. unfold PropertyChangedCmd_redo, PropertyChangedCmd_undo.
  destruct (py_ne old value); [|intros [= <-]; by exists s].
  intros Hrun.
  destruct (update_prop_bin_shape _ _ _ _ _ Hrun) as (Hshape & Hn & Hp & Hpo).
  destruct (update_prop_bin_returns node name value old _ _
              (set_node_prop node name old s1) Hrun) as [s2 Hs2]; [done|].
  rewrite Hs2. simpl. exists s2. split; [done|].
  destruct (update_prop_bin_shape _ _ _ _ _ Hs2) as (_ & Hn2 & Hp2 & Hpo2).
  unfold model. rewrite Hn2, Hp2, Hpo2. simpl. rewrite Hn, Hp, Hpo. simpl.
  by rewrite insert_insert_eq, insert_id.
Qed.

Lemma property_change_round_trip_witness :
  is_Some (properties sized_graph !! ("n", "size")) ∧
  ∃ s1 s2,
    redo (PropertyChangedCmd_init "n" "size" (VInt 2) sized_graph) sized_graph
      = Ok s1 ∧
    get_property "n" "size" s1 = VInt 2 ∧
    undo (PropertyChangedCmd_init "n" "size" (VInt 2) sized_graph) s1
      = Ok (PropertyChangedCmd_init "n" "size" (VInt 2) sized_graph, s2) ∧
    model s2 = model sized_graph.
Proof.
  assert (is_Some (properties sized_graph !! ("n", "size"))) as Hsome
    by by eexists.
  split; [exact Hsome|].
  destruct (redo (PropertyChangedCmd_init "n" "size" (VInt 2) sized_graph)
              sized_graph) as [s1|] eqn:Hrun; [|by vm_compute in Hrun].
  destruct (property_change_round_trip "n" "size" (VInt 2) sized_graph s1
              Hsome Hrun) as (s2 & Hundo & Hmodel).
  exists s1, s2. split; [reflexivity|]. split.
  - vm_compute in Hrun. by injection Hrun as <-.
  - split; [exact Hundo|exact Hmodel].
Defined.

(** X8: changing the property ["pos"] moves the node as a move command
    does. Where the view of the node has the view property ["pos"] and
    no widget of that name, [PropertyChangedCmd.redo] on ["pos"] writes
    the attribute [xy_pos] of the view, not [pos], and leaves the model
    and the views as [NodeMovedCmd.redo] to the same position does. *)
Theorem pos_property_moves_the_node (node : string) (old_val new_val : Value)
    (s s1 : State) :
  old_val ≠ new_val →
  "pos" ∈ view_properties (node_view s node) →
  (∀ ws, widgets (node_view s node) = Some ws → ws !! "pos" = None) →
  PropertyChangedCmd_redo node "pos" old_val new_val s = Ok s1 →
  view_attrs (node_view s1 node) !! "xy_pos" = Some new_val ∧
  view_attrs (node_view s1 node) !! "pos" = view_attrs (node_view s node) !! "pos" ∧
  ∃ s2, NodeMovedCmd_redo node new_val old_val s = Ok s2 ∧
        model s1 = model s2 ∧ views s1 = views s2.
Proof.
  intros Hne Hprop Hwidget. unfold PropertyChangedCmd_redo, NodeMovedCmd_redo.
  rewrite (py_ne_true _ _ Hne).
  rewrite bool_decide_eq_false_2 by (by intros ->).
  intros (Hn & Hp & Hpo & Hv & _)%update_prop_bin_frame.
  assert (synced_view "pos" new_val (node_view s node) =
          mkNodeView (widgets (node_view s node))
            (view_properties (node_view s node))
            (<["xy_pos" := new_val]> (view_attrs (node_view s node)))) as Hview.
  { unfold synced_view. destruct (node_view s node) as [ws ps attrs].
    cbn [widgets view_properties view_attrs] in *.
    destruct ws as [ws|].
    - rewrite (Hwidget ws eq_refl). cbn [widgets view_properties view_attrs].
      by rewrite bool_decide_eq_true_2.
    - cbn [widgets view_properties view_attrs].
      by rewrite bool_decide_eq_true_2. }
  assert (views s1 = views (set_model_pos node new_val (set_xy_pos node new_val s)))
    as Hviews.
  { rewrite Hv, set_node_prop_eq. simpl. by rewrite Hview. }
  split; [|split].
  - unfold node_view at 1. rewrite Hviews. simpl.
    by rewrite lookup_insert_eq; simpl; rewrite lookup_insert_eq.
  - unfold node_view at 1. rewrite Hviews. simpl.
    by rewrite lookup_insert_eq; simpl; rewrite lookup_insert_ne.
  - eexists. split; [done|]. split; [|done].
    unfold model. by rewrite Hn, Hp, Hpo.
Qed.

Lemma pos_property_moves_the_node_witness :
  VPos 0 0 ≠ VPos 3 4 ∧
  "pos" ∈ view_properties (node_view sized_graph "n") ∧
  ∃ s1 s2,
    PropertyChangedCmd_redo "n" "pos" (VPos 0 0) (VPos 3 4) sized_graph = Ok s1 ∧
    NodeMovedCmd_redo "n" (VPos 3 4) (VPos 0 0) sized_graph = Ok s2 ∧
    model s1 = model s2 ∧ views s1 = views s2.
Proof.
  assert (VPos 0 0 ≠ VPos 3 4) as Hne by done.
  assert ("pos" ∈ view_properties (node_view sized_graph "n")) as Hprop
    by (vm_compute; set_solver).
  assert (∀ ws, widgets (node_view sized_graph "n") = Some ws →
                ws !! "pos" = None) as Hwidget
    by by intros ws [= <-].
  split; [exact Hne|]. split; [exact Hprop|].
  destruct (PropertyChangedCmd_redo "n" "pos" (VPos 0 0) (VPos 3 4) sized_graph)
    as [s1|] eqn:Hrun; [|by vm_compute in Hrun].
  destruct (pos_property_moves_the_node "n" (VPos 0 0) (VPos 3 4) sized_graph s1
              Hne Hprop Hwidget Hrun) as (_ & _ & s2 & Hmove & Hmodel & Hviews).
  exists s1, s2. split; [reflexivity|]. split; [exact Hmove|].
  split; [exact Hmodel|exact Hviews].
Defined.

(** *** NodeMovedCmd *)

Lemma view_eta (v : NodeView) :
  mkNodeView (widgets v) (view_properties v) (view_attrs v) = v.
Proof. by destruct v. Qed.

Lemma pos_key_ne (a b : string) : a ≠ b → (a, "pos") ≠ (b, "pos").
Proof. intros Hne [= ->]. done. Qed.

Lemma shows_position_moved node pos s n' :
  n' = node ∨ shows_position s n' →
  shows_position (set_model_pos node pos (set_xy_pos node pos s)) n'.
Proof.
  unfold shows_position, node_view. simpl.
  destruct (decide (n' = node)) as [->|Hne].
  - intros _. by rewrite !lookup_insert_eq; simpl; rewrite lookup_insert_eq.
  - intros [?|Hs]; [done|].
    rewrite !lookup_insert_ne; [done| |by intros ->].
    intros [= ->]. done.
Qed.

(** X9: a move keeps the position the view shows on the position of the
    model. [NodeMovedCmd.undo] returns on every state and leaves the
    model and the view of the node at the previous position;
    [NodeMovedCmd.redo] leaves both at the new position, or the state as
    it is when the two positions are equal; and a node whose view showed
    the position of its model still does after either. *)
Theorem move_keeps_view_on_model (node : string) (pos prev_pos : Value)
    (s : State) :
  ∃ s1 s2,
    NodeMovedCmd_undo node pos prev_pos s = Ok s1 ∧
    NodeMovedCmd_redo node pos prev_pos s = Ok s2 ∧
    properties s1 !! (node, "pos") = Some prev_pos ∧ shows_position s1 node ∧
    (pos ≠ prev_pos →
     properties s2 !! (node, "pos") = Some pos ∧ shows_position s2 node) ∧
    (pos = prev_pos → s2 = s) ∧
    (∀ n', shows_position s n' → shows_position s1 n' ∧ shows_position s2 n').
Proof.
  unfold NodeMovedCmd_undo, NodeMovedCmd_redo.
  case_bool_decide as Heq.
  - eexists _, s. split; [done|]. split; [done|].
    split; [apply lookup_insert_eq|]. split; [apply shows_position_moved; by left|].
    split; [done|]. split; [done|]. intros n' Hn'.
    split; [apply shows_position_moved; by right|done].
  - eexists _, _. split; [done|]. split; [done|].
    split; [apply lookup_insert_eq|]. split; [apply shows_position_moved; by left|].
    split; [intros _; split;
              [apply lookup_insert_eq|apply shows_position_moved; by left]|].
    split; [done|]. intros n' Hn'.
    split; apply shows_position_moved; by right.
Qed.

(** X10: a move whose previous position is the position of the node is
    taken back whole by its undo. When the model has the node at
    [prev_pos] and the view of the node shows that position, the state
    after [NodeMovedCmd.redo] and then [NodeMovedCmd.undo] is the state
    before, views included. *)
Theorem move_round_trip (node : string) (pos prev_pos : Value) (s : State) :
  properties s !! (node, "pos") = Some prev_pos →
  is_Some (views s !! node) → shows_position s node →
  ∃ s1, NodeMovedCmd_redo node pos prev_pos s = Ok s1 ∧
        NodeMovedCmd_undo node pos prev_pos s1 = Ok s.
Proof.
  intros Hpos [view Hview] Hshows.
  assert (view_attrs view !! "xy_pos" = Some prev_pos) as Hattr.
  { unfold shows_position, node_view in Hshows.
    by rewrite Hview, Hpos in Hshows. }
  assert (NodeMovedCmd_undo node pos prev_pos s = Ok s) as Hstill.
  { unfold NodeMovedCmd_undo, set_model_pos, set_xy_pos, set_views,
      set_properties, node_view. simpl. rewrite Hview. simpl.
    rewrite (insert_id (view_attrs view)) by done.
    rewrite view_eta, (insert_id (views s)) by done.
    rewrite (insert_id (properties s)) by done. by rewrite state_eta. }
  unfold NodeMovedCmd_redo. case_bool_decide as Heq; [by exists s|].
  eexists. split; [done|]. rewrite <-Hstill.
  unfold NodeMovedCmd_undo, set_model_pos, set_xy_pos, set_views,
    set_properties, node_view. simpl.
  rewrite lookup_insert_eq. simpl. by rewrite !insert_insert_eq.
Qed.

Lemma move_round_trip_witness :
  properties sized_graph !! ("n", "pos") = Some (VPos 0 0) ∧
  is_Some (views sized_graph !! "n") ∧ shows_position sized_graph "n" ∧
  ∃ s1, NodeMovedCmd_redo "n" (VPos 3 4) (VPos 0 0) sized_graph = Ok s1 ∧
        get_property "n" "pos" s1 = VPos 3 4 ∧
        NodeMovedCmd_undo "n" (VPos 3 4) (VPos 0 0) s1 = Ok sized_graph.
Proof.
  assert (properties sized_graph !! ("n", "pos") = Some (VPos 0 0)) as Hpos
    by reflexivity.
  assert (is_Some (views sized_graph !! "n")) as Hview by by eexists.
  assert (shows_position sized_graph "n") as Hshows by reflexivity.
  split; [exact Hpos|]. split; [exact Hview|]. split; [exact Hshows|].
  destruct (move_round_trip "n" (VPos 3 4) (VPos 0 0) sized_graph
              Hpos Hview Hshows) as (s1 & Hredo & Hundo).
  exists s1. split; [exact Hredo|]. split; [|exact Hundo].
  vm_compute in Hredo. by injection Hredo as <-.
Defined.

(** *** NodeAddedCmd and NodeRemovedCmd *)

Lemma nodes_pop_absent node s : node ∉ nodes s → nodes_pop node s = Raise KeyError.
Proof. intros Hn. unfold nodes_pop. by rewrite bool_decide_eq_false_2. Qed.

Lemma nodes_pop_present node s :
  node ∈ nodes s → nodes_pop node s = Ok (set_nodes (nodes s ∖ {[node]}) s).
Proof. intros Hn. unfold nodes_pop. by rewrite bool_decide_eq_true_2. Qed.

(** X11: [NodeAddedCmd.undo] raises [KeyError] exactly when the node is
    not in the node mapping. When it returns it has taken the node out,
    so an undo run twice in a row raises the second time. *)
Theorem node_added_undo_errors (node : string) (pos : Value) (s : State) :
  ((node ∉ nodes s) → NodeAddedCmd_undo node pos s = Raise KeyError) ∧
  (node ∈ nodes s →
   ∃ pos' s', NodeAddedCmd_undo node pos s = Ok (pos', s') ∧
              nodes s' = nodes s ∖ {[node]} ∧
              ∀ p, NodeAddedCmd_undo node p s' = Raise KeyError).
Proof.
  unfold NodeAddedCmd_undo. split; intros Hn.
  - by rewrite nodes_pop_absent.
  - rewrite nodes_pop_present by done. simpl. eexists _, _.
    split; [done|]. split; [done|]. intros p.
    rewrite nodes_pop_absent; [done|]. simpl. set_solver.
Qed.

Lemma node_added_undo_errors_witness :
  ("m" ∉ nodes small_graph) ∧ "n" ∈ nodes small_graph ∧
  NodeAddedCmd_undo "m" VNone small_graph = Raise KeyError ∧
  ∃ pos' s', NodeAddedCmd_undo "n" VNone small_graph = Ok (pos', s') ∧
             NodeAddedCmd_undo "n" pos' s' = Raise KeyError.
Proof.
  assert ("m" ∉ nodes small_graph) as Hm by (simpl; set_solver).
  assert ("n" ∈ nodes small_graph) as Hn by (simpl; set_solver).
  split; [exact Hm|]. split; [exact Hn|]. split.
  - exact (proj1 (node_added_undo_errors "m" VNone small_graph) Hm).
  - destruct (proj2 (node_added_undo_errors "n" VNone small_graph) Hn)
      as (pos' & s' & Hundo & _ & Hagain).
    exists pos', s'. split; [exact Hundo|exact (Hagain pos')].
Defined.

(** X12: adding a node and undoing it. [NodeAddedCmd.redo] returns on
    every state with the node in the mapping, and the [undo] after it
    returns with the node out of it and the properties and ports as they
    were: the model is what it was before when the node was new, and has
    lost the node when the node was there already. The command keeps a
    position that counts as true. *)
Theorem node_added_round_trip (node : string) (pos : Value) (s : State) :
  ∃ s1 pos' s2,
    NodeAddedCmd_redo node pos s = Ok s1 ∧ node ∈ nodes s1 ∧
    NodeAddedCmd_undo node pos s1 = Ok (pos', s2) ∧
    model s2 = mkModel (nodes s ∖ {[node]}) (properties s) (ports s) ∧
    (node ∉ nodes s → model s2 = model s) ∧
    (value_truthy pos = true → pos' = pos).
Proof.
  unfold NodeAddedCmd_redo, NodeAddedCmd_undo. eexists _, _, _.
  split; [done|]. split; [simpl; set_solver|].
  rewrite nodes_pop_present by (simpl; set_solver). simpl.
  split; [done|].
  assert (({[node]} ∪ nodes s) ∖ {[node]} = nodes s ∖ {[node]}) as Hset
    by set_solver.
  split; [|split].
  - unfold model. simpl. by rewrite Hset.
  - intros Hn. unfold model. simpl. rewrite Hset. f_equal. set_solver.
  - intros Ht. unfold py_or. by rewrite Ht.
Qed.

(** X13: removing a node that was captured without connections.
    [NodeRemovedCmd.redo] raises [KeyError] when the node is not in the
    mapping; when it is, the redo takes it out and the undo after it
    gives the model back. *)
Theorem node_removed_round_trip (node : string)
    (inputs outputs : list (Port * list Port)) (s : State) :
  (∀ pc, pc ∈ inputs ++ outputs → pc.2 = []) →
  ((node ∉ nodes s) →
   NodeRemovedCmd_redo node inputs outputs s = Raise KeyError) ∧
  (node ∈ nodes s →
   ∃ s1 s2, NodeRemovedCmd_redo node inputs outputs s = Ok s1 ∧
            (node ∉ nodes s1) ∧
            NodeRemovedCmd_undo node inputs outputs s1 = Ok s2 ∧
            model s2 = model s).
Proof.
  intros Hwf. rewrite node_removed_redo by exact Hwf. split; intros Hn.
  - by rewrite nodes_pop_absent.
  - rewrite nodes_pop_present by done. simpl. eexists _, _.
    split; [done|]. split; [simpl; set_solver|].
    rewrite node_removed_undo by exact Hwf. split; [done|].
    unfold model. simpl. f_equal.
    apply set_eq. intros x. rewrite elem_of_union, elem_of_difference,
      elem_of_singleton. destruct (decide (x = node)) as [->|]; naive_solver.
Qed.

Lemma node_removed_round_trip_witness :
  (∀ pc : Port * list Port, pc ∈ [(out_A, [])] ++ [] → pc.2 = []) ∧
  "n" ∈ nodes small_graph ∧
  ∃ s1 s2, NodeRemovedCmd_redo "n" [(out_A, [])] [] small_graph = Ok s1 ∧
           nodes s1 = ∅ ∧
           NodeRemovedCmd_undo "n" [(out_A, [])] [] s1 = Ok s2 ∧
           model s2 = model small_graph.
Proof.
  assert (∀ pc : Port * list Port, pc ∈ [(out_A, [])] ++ [] → pc.2 = [])
    as Hwf.
  { intros pc Hpc. simpl in Hpc. apply list_elem_of_singleton in Hpc. by subst. }
  assert ("n" ∈ nodes small_graph) as Hn by (simpl; set_solver).
  split; [exact Hwf|]. split; [exact Hn|].
  destruct (proj2 (node_removed_round_trip "n" [(out_A, [])] [] small_graph Hwf) Hn)
    as (s1 & s2 & Hredo & _ & Hundo & Hmodel).
  exists s1, s2. split; [exact Hredo|]. split.
  - vm_compute in Hredo. by injection Hredo as <-.
  - split; [exact Hundo|exact Hmodel].
Defined.

(** *** PortVisibleCmd *)

Lemma ports_set_visible_flag port flag s :
  visible (port_model (set_visible port flag s) port) = flag.
Proof.
  unfold port_model. rewrite ports_set_visible. unfold set_port_visible. simpl.
  by rewrite lookup_insert_eq.
Qed.

Lemma model_set_visible port flag s :
  model (set_visible port flag s) =
  mkModel (nodes s) (properties s)
    (<[port := mkPortModel flag (conns s port)]> (ports s)).
Proof. unfold model, set_visible. by destruct (port_dir port). Qed.

Lemma nodes_set_visible port flag s : nodes (set_visible port flag s) = nodes s.
Proof. unfold set_visible. by destruct (port_dir port). Qed.

Lemma properties_set_visible port flag s :
  properties (set_visible port flag s) = properties s.
Proof. unfold set_visible. by destruct (port_dir port). Qed.

Lemma port_model_eta (pm : PortModel) :
  mkPortModel (visible pm) (connected_ports pm) = pm.
Proof. by destruct pm. Qed.

(** X14: [PortVisibleCmd.redo] sets the flag, it does not toggle it.
    Whatever the flag of the port is, after [redo] it is the negation of
    the captured flag and after [undo] the captured flag; a redo run
    again changes nothing in the model; no connection list, no other
    port, no node and no property is touched. *)
Theorem port_visible_sets (port : Port) (flag : bool) (s : State) :
  ∃ s1 s2 s3,
    PortVisibleCmd_redo port flag s = Ok s1 ∧
    PortVisibleCmd_redo port flag s1 = Ok s2 ∧
    PortVisibleCmd_undo port flag s = Ok s3 ∧
    visible (port_model s1 port) = negb flag ∧
    visible (port_model s3 port) = flag ∧
    model s2 = model s1 ∧
    (∀ P, conns s1 P = conns s P ∧ conns s3 P = conns s P) ∧
    (∀ P, P ≠ port →
          ports s1 !! P = ports s !! P ∧ ports s3 !! P = ports s !! P) ∧
    nodes s1 = nodes s ∧ properties s1 = properties s ∧
    nodes s3 = nodes s ∧ properties s3 = properties s.
Proof.
  unfold PortVisibleCmd_redo, PortVisibleCmd_undo. eexists _, _, _.
  split; [done|]. split; [done|]. split; [done|].
  split; [by rewrite ports_set_visible_flag|].
  split; [by rewrite ports_set_visible_flag|].
  split.
  { rewrite (model_set_visible port (negb flag) (set_visible _ _ _)).
    rewrite model_set_visible, conns_set_visible, nodes_set_visible,
      properties_set_visible, ports_set_visible.
    unfold set_port_visible. simpl. by rewrite insert_insert_eq. }
  split; [intros P; by rewrite !conns_set_visible|].
  split; [|by rewrite !nodes_set_visible, !properties_set_visible].
  intros P HP. rewrite !ports_set_visible. unfold set_port_visible. simpl.
  by rewrite !lookup_insert_ne.
Qed.

(** X15: a visibility command built on a state and run on it is taken
    back by its undo. For a port of the graph, [PortVisibleCmd.redo]
    flips the flag the constructor read and [PortVisibleCmd.undo] after
    it gives the model back. *)
Theorem port_visible_round_trip (port : Port) (s : State) :
  is_Some (ports s !! port) →
  ∃ s1 s2,
    redo (PortVisibleCmd_init port s) s = Ok s1 ∧
    visible (port_model s1 port) = negb (visible (port_model s port)) ∧
    undo (PortVisibleCmd_init port s) s1 = Ok (PortVisibleCmd_init port s, s2) ∧
    model s2 = model s.
Proof.
  intros [pm Hpm]. unfold PortVisibleCmd_init. simpl.
  unfold PortVisibleCmd_redo, PortVisibleCmd_undo. simpl.
  eexists _, _. split; [done|].
  split; [by rewrite ports_set_visible_flag|]. split; [done|].
  rewrite model_set_visible, conns_set_visible, nodes_set_visible,
    properties_set_visible, ports_set_visible.
  unfold set_port_visible. simpl. rewrite insert_insert_eq.
  unfold model. f_equal.
  apply insert_id. unfold conns, port_model. rewrite Hpm. simpl.
  by rewrite port_model_eta.
Qed.

Lemma port_visible_round_trip_witness :
  is_Some (ports small_graph !! out_A) ∧
  ∃ s1 s2,
    redo (PortVisibleCmd_init out_A small_graph) small_graph = Ok s1 ∧
    visible (port_model s1 out_A) = false ∧
    undo (PortVisibleCmd_init out_A small_graph) s1
      = Ok (PortVisibleCmd_init out_A small_graph, s2) ∧
    model s2 = model small_graph.
Proof.
  assert (is_Some (ports small_graph !! out_A)) as Hport by by eexists.
  split; [exact Hport|].
  destruct (port_visible_round_trip out_A small_graph Hport)
    as (s1 & s2 & Hredo & Hflag & Hundo & Hmodel).
  exists s1, s2. split; [exact Hredo|]. split; [exact Hflag|].
  split; [exact Hundo|exact Hmodel].
Defined.

(** *** Histories *)

Lemma balanced_same_lists s s' :
  (∀ P k, listed s' P k = listed s P k) → balanced s → balanced s'.
Proof. intros Hl Hb P Q Hd. rewrite !Hl. by apply Hb. Qed.

Lemma redo_balanced c s s' :
  wf_cmd c → balanced s → redo c s = Ok s' → balanced s'.
Proof.
  intros Hwf Hb Hredo.
  destruct c as [node name o n|node p q|node p|node ins outs|src trg|src trg|port f].
  5:{ simpl in Hredo. rewrite connect_eq in Hredo. injection Hredo as <-.
      by apply balanced_connect. }
  5:{ simpl in Hredo. rewrite redo_disconnect_eq in Hredo. injection Hredo as <-.
      by apply balanced_disconnect. }
  all: eapply balanced_same_lists; [|done];
    intros P k; by rewrite (redo_listed _ _ _ P k Hwf Hredo).
Qed.

Lemma undo_balanced c s c' s' :
  wf_cmd c → balanced s → undo c s = Ok (c', s') → balanced s'.
Proof.
  intros Hwf Hb Hundo.
  destruct c as [node name o n|node p q|node p|node ins outs|src trg|src trg|port f].
  5:{ cbn [undo] in Hundo. rewrite disconnect_eq in Hundo. injection Hundo as _ <-.
      by apply balanced_disconnect. }
  5:{ cbn [undo] in Hundo. rewrite undo_disconnect_eq in Hundo.
      injection Hundo as _ <-. by apply balanced_connect. }
  all: eapply balanced_same_lists; [|done];
    intros P k; by rewrite (undo_listed _ _ _ _ P k Hwf Hundo).
Qed.

(** X22: the balance of the connection lists holds along a history. From
    a state where every two ports of opposite directions list each other
    equally often (a graph without connections is one), the redos of any
    list of commands, and their undos, lead to such a state again, in
    which a port lists a port of the other direction exactly when it is
    listed by it, as long as the port commands join ports of opposite
    directions and the removed nodes were captured without connections. *)
Theorem balance_along_history (cs : list Cmd) (s : State) :
  Forall wf_cmd cs → balanced s →
  (∀ s', redo_all cs s = Ok s' → balanced s' ∧ INV1_opposite s') ∧
  (∀ cs' s', undo_all cs s = Ok (cs', s') → balanced s' ∧ INV1_opposite s').
Proof.
  intros Hwf Hb.
  assert (∀ s', redo_all cs s = Ok s' → balanced s') as Hredo.
  { revert s Hb. induction Hwf as [|c cs Hc Hcs IH]; intros s Hb s'.
    - by intros [= <-].
    - intros (s1 & H1 & Hrest)%redo_all_cons.
      eapply IH; [|done]. by eapply redo_balanced. }
  assert (∀ cs' s', undo_all cs s = Ok (cs', s') → balanced s') as Hundo.
  { clear Hredo. induction Hwf as [|c cs Hc Hcs IH]; intros cs' s'.
    - by intros [= <- <-].
    - intros (cs1 & s1 & c1 & s2 & Hrest & H1 & [= -> ->])%undo_all_cons.
      eapply undo_balanced; [done| |done]. by eapply IH. }
  split.
  - intros s' Hs'. split; [by apply Hredo|]. by apply balanced_INV1_opposite, Hredo.
  - intros cs' s' Hs'. split; [by eapply Hundo|].
    by eapply balanced_INV1_opposite, Hundo.
Qed.

Lemma small_graph_unlinked P k : listed small_graph P k = [].
Proof.
  unfold listed, conns, port_model, small_graph. simpl.
  destruct (decide (out_A = P)) as [<-|]; [by rewrite lookup_insert_eq|].
  rewrite lookup_insert_ne by done.
  destruct (decide (in_B = P)) as [<-|]; [by rewrite lookup_insert_eq|].
  by rewrite lookup_insert_ne, lookup_empty.
Qed.

Lemma balance_along_history_witness :
  Forall wf_cmd small_history ∧ balanced small_graph ∧
  ∃ s', redo_all small_history small_graph = Ok s' ∧
        listed s' out_A "B" = ["in"] ∧ listed s' in_B "A" = ["out"] ∧
        INV1_opposite s'.
Proof.
  assert (Forall wf_cmd small_history) as Hwf.
  { repeat apply Forall_cons_2; [done|by simpl|done|apply Forall_nil_2]. }
  assert (balanced small_graph) as Hb
    by (intros P Q _; by rewrite !small_graph_unlinked).
  split; [exact Hwf|]. split; [exact Hb|].
  destruct (redo_all small_history small_graph) as [s'|] eqn:Hrun;
    [|by vm_compute in Hrun].
  exists s'. split; [reflexivity|].
  pose proof (proj1 (balance_along_history small_history small_graph Hwf Hb) s' Hrun)
    as [_ Hinv].
  vm_compute in Hrun. injection Hrun as <-.
  split; [reflexivity|]. split; [reflexivity|exact Hinv].
Defined.

End CommandLaws.

(** ** The topological sort on any graph *)

Module TopoLaws.
Import Py TopologicalSort TopoFacts SortFrames.

(** *** The nodes next to a node *)

Lemma NoDup_nodes_setitem (n : node) (nodes : list node) :
  NoDup nodes → NoDup (nodes_setitem n nodes).
Proof.
  intros Hnd. unfold nodes_setitem. case_bool_decide as Hin; [done|].
  apply NoDup_app. split; [done|]. split; [|apply NoDup_singleton].
  by intros x Hx ->%list_elem_of_singleton.
Qed.

Lemma NoDup_setitems (l acc : list node) :
  NoDup acc → NoDup (foldl (λ nodes n, nodes_setitem n nodes) acc l).
Proof.
  revert acc. induction l as [|n l IH]; intros acc Hacc; [done|].
  simpl. by apply IH, NoDup_nodes_setitem.
Qed.

Lemma NoDup_collect (ps : list PortObj) : NoDup (collect ps).
Proof.
  unfold collect. generalize (NoDup_nil_2 (A := node)).
  generalize (@nil node). induction ps as [|p ps IH]; intros acc Hacc; [done|].
  simpl. by apply IH, NoDup_setitems.
Qed.

(** X16: [get_output_nodes] and [get_input_nodes] return each connected
    node once, however many ports or connections lead to it: the nodes
    of the result are the nodes of the ports connected to the output
    (input) ports of the node, and none is listed twice. *)
Theorem connected_nodes_once (env : Env) (n : node) :
  NoDup (get_output_nodes env n) ∧ NoDup (get_input_nodes env n) ∧
  (∀ m, m ∈ get_output_nodes env n ↔
        ∃ p, p ∈ output_ports (obj env n) ∧ m ∈ port_peers p) ∧
  (∀ m, m ∈ get_input_nodes env n ↔
        ∃ p, p ∈ input_ports (obj env n) ∧ m ∈ port_peers p).
Proof.
  split; [apply NoDup_collect|]. split; [apply NoDup_collect|].
  split; intros m; apply elem_of_collect.
Qed.

(** *** The graph of the reachable nodes *)

Lemma while_output_nodes_mono fuel env outs g g' :
  while_output_nodes fuel env outs g = Done g' → g ⊆ g'.
Proof.
  revert outs g. induction fuel as [|fuel IH]; intros outs g.
  - destruct outs; [by intros [= <-]|done].
  - destruct outs as [|o outs]; [by intros [= <-]|]. simpl.
    destruct (expand env (o :: outs) g) as [g1 o1] eqn:Hexp.
    intros Hloop. apply IH in Hloop.
    destruct (expand_step_spec _ _ _ _ _ _ Hexp) as [Hsub _]. by etrans.
Qed.

Lemma for_start_nodes_keys fuel env starts g g' :
  for_start_nodes fuel env starts g = Done g' →
  (∀ k, is_Some (g !! k) → is_Some (g' !! k)) ∧
  ∀ n, n ∈ starts → is_Some (g' !! n).
Proof.
  revert g. induction starts as [|n starts IH]; intros g.
  - intros [= <-]. split; [done|]. by intros n ?%elem_of_nil.
  - simpl.
    destruct (while_output_nodes fuel env (get_output_nodes env n)
                (<[n := get_output_nodes env n]> g)) as [g1| |] eqn:Hloop;
      [|done|done].
    simpl. intros Hrest. destruct (IH _ Hrest) as [Hsub Hkeys].
    apply while_output_nodes_mono in Hloop.
    assert (∀ k, is_Some (<[n := get_output_nodes env n]> g !! k) →
                 is_Some (g1 !! k)) as Hg1.
    { intros k [l Hl]. exists l. by eapply lookup_weaken. }
    split.
    + intros k Hk. apply Hsub, Hg1.
      destruct (decide (n = k)) as [->|Hne];
        [rewrite lookup_insert_eq; by eexists|by rewrite lookup_insert_ne].
    + intros m [->|Hm]%elem_of_cons; [|by apply Hkeys].
      apply Hsub, Hg1. rewrite lookup_insert_eq. by eexists.
Qed.

Lemma reach_is_key env starts (g : gmap node (list node)) k :
  closed g → (∀ k l, g !! k = Some l → l = get_output_nodes env k) →
  (∀ n, n ∈ starts → is_Some (g !! n)) →
  reach env starts k → is_Some (g !! k).
Proof.
  intros Hcl Hval Hkeys. induction 1 as [n Hn|k e Hk IH He]; [by apply Hkeys|].
  destruct IH as [l Hl]. apply (Hcl k l e Hl). by rewrite (Hval k l Hl).
Qed.

(** X17: the graph [_build_graph] returns is the graph of the nodes that
    can be reached from the start nodes along output connections: given
    fuel for its loops, its keys are the reachable nodes, start nodes
    included, the value of a key is the list of its output nodes, and
    every node in a value is a key. Cycles do not stop it. *)
Theorem build_graph_reachable (env : Env) (start_nodes : list node)
    (fuel : nat) :
  size (universe env start_nodes) < fuel →
  ∃ g, _build_graph fuel env start_nodes = Done g ∧
       (∀ k, is_Some (g !! k) ↔ reach env start_nodes k) ∧
       (∀ k, is_Some (g !! k) → g !! k = Some (get_output_nodes env k)) ∧
       closed g.
Proof.
  intros Hfuel.
  destruct (build_graph_spec env start_nodes fuel Hfuel)
    as (g & Hg & [Hreach Hval] & Hcl & Hkeys).
  exists g. split; [done|]. split; [|split; [|done]].
  - intros k. split; [by intros [_ ?]%Hreach|]. by apply reach_is_key.
  - intros k [l Hl]. by rewrite Hl, (Hval k l Hl).
Qed.

Lemma build_graph_reachable_witness :
  size (universe ring ["S"]) < 5 ∧
  ∃ g, _build_graph 5 ring ["S"] = Done g ∧
       (∀ k, is_Some (g !! k) ↔ reach ring ["S"] k) ∧
       g !! "C" = Some ["A"].
Proof.
  assert (size (universe ring ["S"]) < 5) as Hfuel by (vm_compute; lia).
  split; [exact Hfuel|].
  destruct (build_graph_reachable ring ["S"] 5 Hfuel)
    as (g & Hg & Hkeys & _).
  exists g. split; [exact Hg|]. split; [exact Hkeys|].
  vm_compute in Hg. by injection Hg as <-.
Defined.

(** *** The walk on any graph *)

Lemma explored_mark g (pend : node → Prop) e w :
  explored g pend w → explored g (λ k, k = e ∨ pend k) (mark e w).
Proof.
  intros [Hends Hpend]. split.
  - intros k l x Hk Hl Hx. apply mark_keeps. by eapply Hends.
  - intros k. simpl. destruct (decide (e = k)) as [->|Hne]; [by right; left|].
    rewrite lookup_insert_ne by done. intros Hk.
    destruct (Hpend k Hk); [by left|by right; right].
Qed.

Lemma grows_refl w : grows w w.
Proof. by split. Qed.

Lemma grows_trans a b c : grows a b → grows b c → grows a c.
Proof. intros [H1 H2] [H3 H4]. split; intros k Hk; [by apply H3, H1|by apply H4, H2]. Qed.

Lemma grows_mark e w : grows w (mark e w).
Proof. split; [intros k; apply mark_keeps|done]. Qed.

Lemma dfs_appends_last f g start w w' :
  dfs f g start w = Done w' → ∃ S, sorted_nodes w' = S ++ [start].
Proof.
  destruct f as [|f]; [done|]. simpl. unfold dict_getitem.
  destruct (g !! start) as [ends|]; [|done]. simpl.
  destruct (for_end_nodes (dfs f g) ends w) as [w1| |]; [|done|done].
  simpl. intros [= <-]. by eexists.
Qed.

Section any_graph.
Context (g : gmap node (list node)).

Lemma for_end_nodes_explores f ends w w' (pend : node → Prop) :
  dfs_explores g f →
  for_end_nodes (dfs f g) ends w = Done w' →
  explored g pend w →
  explored g pend w' ∧ grows w w' ∧
  ∀ e, e ∈ ends → visit w' !! e = Some true.
Proof.
  intros Hrec. revert w. induction ends as [|e ends IH]; intros w Hloop Hw.
  { injection Hloop as <-. split; [done|]. split; [apply grows_refl|].
    by intros e ?%elem_of_nil. }
  simpl in Hloop. unfold dict_getitem in Hloop.
  destruct (visit w !! e) as [b|] eqn:Hb; [|done]. simpl in Hloop.
  destruct b; simpl in Hloop.
  - destruct (IH w Hloop Hw) as (Hw' & Hgrow & Hends).
    split; [done|]. split; [done|].
    intros x [->|Hx]%elem_of_cons; [by apply Hgrow|by apply Hends].
  - destruct (dfs f g e (mark e w)) as [w2| |] eqn:Hdfs; [|done|done].
    simpl in Hloop.
    destruct (Hrec e (mark e w) w2 pend Hdfs (explored_mark _ _ _ _ Hw))
      as (Hw2 & Hgrow2 & S & HS).
    destruct (IH w2 Hloop Hw2) as (Hw' & Hgrow & Hends).
    split; [done|].
    split; [eapply grows_trans; [apply grows_mark|by eapply grows_trans]|].
    intros x [->|Hx]%elem_of_cons; [|by apply Hends].
    apply Hgrow, Hgrow2. simpl. apply lookup_insert_eq.
Qed.

Lemma dfs_explores_all f : dfs_explores g f.
Proof.
  induction f as [|f IH]; intros start w w' pend Hdfs Hw; [done|].
  simpl in Hdfs. unfold dict_getitem in Hdfs.
  destruct (g !! start) as [ends|] eqn:Hends; [|done]. simpl in Hdfs.
  destruct (for_end_nodes (dfs f g) ends w) as [w1| |] eqn:Hloop; [|done|done].
  simpl in Hdfs. injection Hdfs as <-.
  destruct (for_end_nodes_explores f ends w w1 _ IH Hloop Hw)
    as ([Hsucc Hpend] & [Hmarks Hsorted] & Hall).
  split; [split|split; [split|by eexists]]; simpl.
  - intros k l e [Hk| ->%list_elem_of_singleton]%elem_of_app Hl He.
    + by eapply Hsucc.
    + rewrite Hends in Hl. injection Hl as <-. by apply Hall.
  - intros k Hk. rewrite elem_of_app, list_elem_of_singleton.
    destruct (Hpend k Hk) as [?|[?|?]]; [by left; left|by left; right|by right].
  - done.
  - intros k Hk. rewrite elem_of_app. left. by apply Hsorted.
Qed.

Lemma for_roots_explores f starts w w' :
  for_roots f g starts w = Done w' →
  explored g (λ _, False) w →
  explored g (λ _, False) w' ∧ grows w w' ∧
  ∀ n, n ∈ starts → n ∈ sorted_nodes w'.
Proof.
  revert w. induction starts as [|n starts IH]; intros w Hloop Hw.
  { injection Hloop as <-. split; [done|]. split; [apply grows_refl|].
    by intros n ?%elem_of_nil. }
  simpl in Hloop. unfold dict_getitem in Hloop.
  destruct (visit w !! n) as [b|] eqn:Hb; [|done]. simpl in Hloop.
  destruct b; simpl in Hloop.
  - destruct (IH w Hloop Hw) as (Hw' & Hgrow & Hstarts).
    split; [done|]. split; [done|].
    intros m [->|Hm]%elem_of_cons; [|by apply Hstarts].
    apply Hgrow. by destruct (proj2 Hw n Hb).
  - destruct (dfs f g n (mark n w)) as [w1| |] eqn:Hdfs; [|done|done].
    simpl in Hloop.
    destruct (dfs_explores_all f n (mark n w) w1 (λ _, False) Hdfs
                (explored_mark _ _ _ _ Hw)) as (Hw1 & Hgrow1 & S & HS).
    destruct (IH w1 Hloop Hw1) as (Hw' & Hgrow & Hstarts).
    split; [done|].
    split; [eapply grows_trans; [apply grows_mark|by eapply grows_trans]|].
    intros m [->|Hm]%elem_of_cons; [|by apply Hstarts].
    apply Hgrow. rewrite HS, elem_of_app, list_elem_of_singleton. by right.
Qed.

End any_graph.

Lemma explored_start (g : gmap node (list node)) :
  explored g (λ _, False) (mkWalk ((λ _, false) <$> g) []).
Proof.
  split; simpl.
  - by intros k l e ?%elem_of_nil.
  - intros k. rewrite lookup_fmap. by destruct (g !! k).
Qed.

Lemma marked_once_start (g : gmap node (list node)) :
  marked_once (mkWalk ((λ _, false) <$> g) []).
Proof. split; [constructor|]. by intros k ?%elem_of_nil. Qed.

(** The sort where it walks: what it builds, what it walks, what it
    returns. *)
Lemma sort_runs env start_nodes all_nodes fuel :
  enough_fuel env start_nodes all_nodes ≤ fuel →
  (∃ n, n ∈ roots env start_nodes all_nodes ∧ _has_output_node env n = true) →
  ∃ g w,
    _build_graph fuel env (roots env start_nodes all_nodes) = Done g ∧
    (∀ k, is_Some (g !! k) ↔ reach env (roots env start_nodes all_nodes) k) ∧
    (∀ k, is_Some (g !! k) → g !! k = Some (get_output_nodes env k)) ∧
    for_roots fuel g (roots env start_nodes all_nodes)
      (mkWalk ((λ _, false) <$> g) []) = Done w ∧
    dom (visit w) = dom g ∧
    topological_sort fuel env start_nodes all_nodes =
      Done (reverse (sorted_nodes w)).
Proof.
  unfold enough_fuel, topological_sort. intros Hfuel (n & Hn & Hout).
  set (starts := roots env start_nodes all_nodes) in *.
  destruct (build_graph_spec env starts fuel) as (g & Hg & [Hreach Hvals] & Hcl & Hst);
    [lia|].
  assert (∀ k, is_Some (g !! k) ↔ reach env starts k) as Hkeys.
  { intros k. split; [by intros [_ ?]%Hreach|]. by apply reach_is_key. }
  assert (∀ k, is_Some (g !! k) → g !! k = Some (get_output_nodes env k)) as Hval.
  { intros k [l Hl]. by rewrite Hl, (Hvals k l Hl). }
  exists g.
  destruct (for_roots_returns g Hcl fuel starts (mkWalk ((λ _, false) <$> g) []))
    as (w & Hw & Hdom).
  { intros m Hm. apply Hkeys. by constructor. }
  { simpl. apply dom_fmap_L. }
  { simpl. eapply Nat.le_lt_trans; [apply unvisited_size|].
    rewrite map_size_fmap, <-size_dom.
    eapply Nat.le_lt_trans; [|exact Hfuel].
    apply subseteq_size. intros k Hk%elem_of_dom%Hkeys.
    clear -Hk. induction Hk as [m Hm|k e Hk IH He].
    - unfold universe. rewrite elem_of_list_to_set, elem_of_app. by left.
    - by eapply get_output_nodes_universe. }
  exists w. split; [done|]. split; [done|]. split; [done|].
  split; [done|]. split; [done|].
  destruct starts as [|n0 rest] eqn:Hstarts; [by apply elem_of_nil in Hn|].
  simpl truthy. cbv iota. simpl negb. cbv iota.
  rewrite <-Hstarts in *.
  destruct (truthy (filter _ starts)) eqn:Hf.
  2:{ apply truthy_false in Hf.
      assert (n ∈ filter (λ n, _has_output_node env n = true) starts) as Hin
        by by apply list_elem_of_filter.
      rewrite Hf in Hin. by apply elem_of_nil in Hin. }
  simpl. rewrite Hg. simpl. case_bool_decide as Hempty.
  { exfalso. assert (is_Some (g !! n)) as [l Hl] by (apply Hkeys; by constructor).
    by rewrite Hempty, lookup_empty in Hl. }
  by rewrite Hw.
Qed.

(** X18: where the sort walks (with fuel for its loops, and a start node
    that has a pipe on an output port), it returns the nodes that can be
    reached from the start nodes along output connections, each of them
    once, whether or not the connections form cycles. *)
Theorem sort_lists_reachable_once (env : Env)
    (start_nodes all_nodes : list node) (fuel : nat) :
  enough_fuel env start_nodes all_nodes ≤ fuel →
  (∃ n, n ∈ roots env start_nodes all_nodes ∧ _has_output_node env n = true) →
  ∃ l, topological_sort fuel env start_nodes all_nodes = Done l ∧
       NoDup l ∧
       ∀ k, k ∈ l ↔ reach env (roots env start_nodes all_nodes) k.
Proof.
  intros Hfuel Hout.
  destruct (sort_runs env start_nodes all_nodes fuel Hfuel Hout)
    as (g & w & Hg & Hkeys & Hval & Hw & Hdom & Hsort).
  exists (reverse (sorted_nodes w)). split; [done|].
  pose proof (for_roots_once g fuel _ _ w Hw (marked_once_start g))
    as [Hnodup Hmarked].
  destruct (for_roots_explores g fuel _ _ w Hw (explored_start g))
    as ([Hsucc Hpend] & _ & Hstarts).
  split; [by rewrite reverse_Permutation|].
  intros k. rewrite elem_of_reverse. split.
  - intros Hk. apply Hkeys, elem_of_dom. rewrite <-Hdom. apply elem_of_dom.
    exists true. by apply Hmarked.
  - induction 1 as [n Hn|k e Hk IH He]; [by apply Hstarts|].
    assert (is_Some (g !! k)) as Hgk by (apply Hkeys; done).
    pose proof (Hsucc k _ e IH (Hval k Hgk) He) as Hmark.
    by destruct (Hpend e Hmark).
Qed.

Lemma sort_lists_reachable_once_witness :
  enough_fuel ring ["S"] [] ≤ 5 ∧
  (∃ n, n ∈ roots ring ["S"] [] ∧ _has_output_node ring n = true) ∧
  ∃ l, topological_sort 5 ring ["S"] [] = Done l ∧ NoDup l ∧
       l = ["S"; "A"; "B"; "C"].
Proof.
  assert (enough_fuel ring ["S"] [] ≤ 5) as Hfuel by (vm_compute; lia).
  assert (∃ n, n ∈ roots ring ["S"] [] ∧ _has_output_node ring n = true)
    as Hout by (exists "S"; split; [by apply list_elem_of_singleton|reflexivity]).
  split; [exact Hfuel|]. split; [exact Hout|].
  destruct (sort_lists_reachable_once ring ["S"] [] 5 Hfuel Hout)
    as (l & Hl & Hnodup & _).
  exists l. split; [exact Hl|]. split; [exact Hnodup|].
  vm_compute in Hl. by injection Hl as <-.
Defined.

(** *** Cycles *)

Lemma NoDup_split_inj {A} (a b c d : list A) (x : A) :
  NoDup (a ++ x :: b) → a ++ x :: b = c ++ x :: d → a = c ∧ b = d.
Proof.
  revert c. induction a as [|y a IH]; intros c Hnd Heq.
  - destruct c as [|z c]; [by injection Heq as <-|].
    simpl in Heq. injection Heq as <- ->.
    apply NoDup_cons in Hnd as [Hnin _]. exfalso. apply Hnin.
    rewrite elem_of_app, elem_of_cons. by right; left.
  - destruct c as [|z c]; simpl in Heq.
    + injection Heq as -> <-. simpl in Hnd.
      apply NoDup_cons in Hnd as [Hnin _]. exfalso. apply Hnin.
      rewrite elem_of_app, elem_of_cons. by right; left.
    + injection Heq as <- Heq. simpl in Hnd. apply NoDup_cons in Hnd as [_ Hnd].
      destruct (IH c Hnd Heq) as [-> ->]. done.
Qed.

Lemma precedes_trans (u v x : node) (l : list node) :
  NoDup l → precedes u v l → precedes v x l → precedes u x l.
Proof.
  intros Hnd (l1 & l2 & l3 & Huv) (m1 & m2 & m3 & Hvx).
  assert ((l1 ++ u :: l2) ++ v :: l3 = m1 ++ v :: m2 ++ x :: m3) as Heq
    by (rewrite <-app_assoc; simpl; congruence).
  apply NoDup_split_inj in Heq as [<- ->];
    [|rewrite <-app_assoc; simpl; by rewrite <-Huv].
  exists l1, (l2 ++ v :: m2), m3. rewrite Huv, <-!app_assoc. done.
Qed.

Lemma precedes_irrefl (v : node) (l : list node) : NoDup l → ¬ precedes v v l.
Proof.
  intros Hnd (l1 & l2 & l3 & ->).
  apply NoDup_app in Hnd as (_ & _ & Hnd). apply NoDup_cons in Hnd as [Hnin _].
  apply Hnin. rewrite elem_of_app, elem_of_cons. by right; left.
Qed.

Lemma respects_path g l u v :
  NoDup l → respects g l → path g u v → precedes u v l.
Proof.
  intros Hnd Hres. induction 1 as [a b Hab|a b c Hab Hbc IH]; [by apply Hres|].
  eapply precedes_trans; [done|by apply Hres|done].
Qed.

(** X19: the sort does not detect cycles. Where it walks a graph in
    which a node is on a cycle, it still returns a sequence, and in that
    sequence some edge of the graph goes backward: the sequence does not
    have every edge's source before its target. *)
Theorem sort_on_cycle_breaks_order (env : Env)
    (start_nodes all_nodes : list node) (fuel : nat)
    (g : gmap node (list node)) (v : node) :
  enough_fuel env start_nodes all_nodes ≤ fuel →
  (∃ n, n ∈ roots env start_nodes all_nodes ∧ _has_output_node env n = true) →
  _build_graph fuel env (roots env start_nodes all_nodes) = Done g →
  path g v v →
  ∃ l, topological_sort fuel env start_nodes all_nodes = Done l ∧
       ¬ respects g l.
Proof.
  intros Hfuel Hout Hbuild Hcycle.
  destruct (sort_runs env start_nodes all_nodes fuel Hfuel Hout)
    as (g' & w & Hg & _ & _ & Hw & _ & Hsort).
  rewrite Hbuild in Hg. injection Hg as <-.
  exists (reverse (sorted_nodes w)). split; [done|].
  pose proof (for_roots_once g fuel _ _ w Hw (marked_once_start g))
    as [Hnodup _].
  assert (NoDup (reverse (sorted_nodes w))) as Hnd
    by by rewrite reverse_Permutation.
  intros Hres. apply (precedes_irrefl v _ Hnd).
  by eapply respects_path.
Qed.

Lemma ring_has_cycle g :
  g !! "A" = Some ["B"] → g !! "B" = Some ["C"] → g !! "C" = Some ["A"] →
  path g "A" "A".
Proof.
  intros HA HB HC.
  apply path_step with "B"; [exists ["B"]; split; [done|by left]|].
  apply path_step with "C"; [exists ["C"]; split; [done|by left]|].
  apply path_edge. exists ["A"]. split; [done|by left].
Qed.

Lemma sort_on_cycle_breaks_order_witness :
  ∃ g, enough_fuel ring ["S"] [] ≤ 5 ∧
       (∃ n, n ∈ roots ring ["S"] [] ∧ _has_output_node ring n = true) ∧
       _build_graph 5 ring (roots ring ["S"] []) = Done g ∧
       path g "A" "A" ∧
       ∃ l, topological_sort 5 ring ["S"] [] = Done l ∧ ¬ respects g l.
Proof.
  assert (enough_fuel ring ["S"] [] ≤ 5) as Hfuel by (vm_compute; lia).
  assert (∃ n, n ∈ roots ring ["S"] [] ∧ _has_output_node ring n = true)
    as Hout by (exists "S"; split; [by apply list_elem_of_singleton|reflexivity]).
  destruct (_build_graph 5 ring (roots ring ["S"] [])) as [g| |] eqn:Hbuild;
    [|by vm_compute in Hbuild|by vm_compute in Hbuild].
  assert (path g "A" "A") as Hcycle.
  { vm_compute in Hbuild. injection Hbuild as <-. by apply ring_has_cycle. }
  exists g. split; [exact Hfuel|]. split; [exact Hout|].
  split; [reflexivity|]. split; [exact Hcycle|].
  exact (sort_on_cycle_breaks_order ring ["S"] [] 5 g "A" Hfuel Hout Hbuild Hcycle).
Defined.

(** *** Empty results and the first node *)

(** X20: the sort returns the empty sequence only when it has no start
    node. Whatever the fuel, the graph [_build_graph] returns has every
    start node as a key, so with a start node it is not empty and the
    return under [if not graph] is never taken; and a start node is in
    every sequence the sort returns. *)
Theorem sort_empty_only_without_start (env : Env)
    (start_nodes all_nodes : list node) (fuel : nat) :
  (∀ g n, _build_graph fuel env (roots env start_nodes all_nodes) = Done g →
          n ∈ roots env start_nodes all_nodes → is_Some (g !! n) ∧ g ≠ ∅) ∧
  (∀ l n, topological_sort fuel env start_nodes all_nodes = Done l →
          n ∈ roots env start_nodes all_nodes → n ∈ l).
Proof.
  assert (∀ g n, _build_graph fuel env (roots env start_nodes all_nodes) = Done g →
            n ∈ roots env start_nodes all_nodes → is_Some (g !! n) ∧ g ≠ ∅)
    as Hbuilt.
  { intros g n Hg Hn. apply for_start_nodes_keys in Hg as [_ Hkeys].
    destruct (Hkeys n Hn) as [l Hl]. split; [by eexists|].
    intros ->. by rewrite lookup_empty in Hl. }
  split; [exact Hbuilt|].
  intros l n. unfold topological_sort.
  set (starts := roots env start_nodes all_nodes) in *. intros Hsort Hn.
  destruct (truthy starts) eqn:Hstarts; simpl in Hsort.
  2:{ apply truthy_false in Hstarts. rewrite Hstarts in Hn.
      by apply elem_of_nil in Hn. }
  destruct (truthy (filter _ starts)); simpl in Hsort;
    [|by injection Hsort as <-].
  destruct (_build_graph fuel env starts) as [g| |] eqn:Hg; [|done|done].
  simpl in Hsort. destruct (Hbuilt g n eq_refl Hn) as [_ Hne].
  rewrite bool_decide_eq_false_2 in Hsort by done.
  destruct (for_roots fuel g starts (mkWalk ((λ _, false) <$> g) []))
    as [w| |] eqn:Hw; [|done|done].
  simpl in Hsort. injection Hsort as <-. rewrite elem_of_reverse.
  destruct (for_roots_explores g fuel _ _ w Hw (explored_start g))
    as (_ & _ & Hall).
  by apply Hall.
Qed.

Lemma sort_empty_only_without_start_witness :
  ∃ l, topological_sort 5 ring ["S"] [] = Done l ∧ "S" ∈ l.
Proof.
  destruct (topological_sort 5 ring ["S"] []) as [l| |] eqn:Hl;
    [|by vm_compute in Hl|by vm_compute in Hl].
  exists l. split; [reflexivity|].
  apply (proj2 (sort_empty_only_without_start ring ["S"] [] 5) l "S" Hl).
  by apply list_elem_of_singleton.
Defined.

(** X21: a single start node comes first. When the sort is given one
    start node that has a pipe on an output port, every sequence it
    returns begins with that node, also when the node is on a cycle. *)
Theorem single_start_comes_first (env : Env) (n : node)
    (all_nodes : list node) (fuel : nat) (l : list node) :
  _has_output_node env n = true →
  topological_sort fuel env [n] all_nodes = Done l →
  ∃ rest, l = n :: rest.
Proof.
  intros Hout. unfold topological_sort, roots. simpl truthy. cbv iota.
  simpl negb. cbv iota. rewrite filter_cons_True by done. simpl truthy.
  simpl negb. cbv iota.
  destruct (_build_graph fuel env [n]) as [g| |] eqn:Hg; [|done|done].
  simpl. apply for_start_nodes_keys in Hg as [_ Hkeys].
  destruct (Hkeys n) as [ends Hends]; [by left|].
  rewrite bool_decide_eq_false_2
    by (intros ->; by rewrite lookup_empty in Hends).
  unfold dict_getitem. simpl. rewrite lookup_fmap, Hends. simpl.
  destruct (dfs fuel g n _) as [w1| |] eqn:Hdfs; [|done|done].
  simpl. intros [= <-].
  apply dfs_appends_last in Hdfs as [S ->].
  rewrite reverse_app. by eexists.
Qed.

Lemma single_start_comes_first_witness :
  _has_output_node cycle "B" = true ∧
  ∃ l rest, topological_sort 3 cycle ["B"] [] = Done l ∧ l = "B" :: rest.
Proof.
  assert (_has_output_node cycle "B" = true) as Hout by reflexivity.
  split; [exact Hout|].
  destruct (topological_sort 3 cycle ["B"] []) as [l| |] eqn:Hl;
    [|by vm_compute in Hl|by vm_compute in Hl].
  destruct (single_start_comes_first cycle "B" [] 3 l Hout Hl) as [rest Hrest].
  by exists l, rest.
Defined.

End TopoLaws.
